(** * A Rocq model of the poker-friends-server rules engine

    Shallow embedding of [src/game/HandEvaluator.ts] and
    [src/game/PokerEngine.ts], followed by the properties of the
    specification that are checked against it.

    Conventions of the embedding:
    - chip amounts, ranks and seat numbers are JavaScript numbers that only
      ever hold integers in the engine; they are modelled as [Z].  Numbers
      that arrive from a caller (a requested stack, a requested bet size)
      may be fractional and are modelled as [Q]; [Math.floor] is [Qfloor].
      Non-finite numbers (NaN, Infinity) are outside the model.
    - a JavaScript [Map] or [Set] iterates in insertion order; it is
      modelled as an association list (resp. a duplicate-free list) whose
      order is the insertion order.
    - [Array.prototype.sort] is stable; it is modelled as a stable insertion
      sort driven by the same comparator.
    - an expression that would raise a [TypeError] in JavaScript (a field
      read on [undefined]) is modelled as [None] in the [option] monad.
    - an array element that may be [undefined] is an [option]. *)

From Stdlib Require Import ZArith QArith Qround String DecimalString Lia Bool Sorted.
From stdpp Require Import base list strings sets.
Import ListNotations.
Open Scope Z_scope.

(** ** JavaScript containers *)

Module Js.

Section JsSort.
Context {A : Type}.
Variable cmp : A → A → Z.

(** [js_insert x l] puts [x] in front of the first element of [l] that
    does not have to precede it. *)
Fixpoint js_insert (x : A) (l : list A) : list A :=
  match l with
  | [] => [x]
  | y :: l' => if cmp x y <=? 0 then x :: y :: l' else y :: js_insert x l'
  end.

(** [arr.sort(cmp)]: stable sort by the comparator [cmp]. *)
Definition js_sort (l : list A) : list A := foldr js_insert [] l.
End JsSort.

Section JsMap.
Context {K V : Type} `{EqDecision K}.

(** [m.get(k)] *)
Fixpoint map_get (m : list (K * V)) (k : K) : option V :=
  match m with
  | [] => None
  | (k', v) :: m' => if decide (k' = k) then Some v else map_get m' k
  end.

(** [m.set(k, v)]: an existing key keeps its position. *)
Fixpoint map_set (m : list (K * V)) (k : K) (v : V) : list (K * V) :=
  match m with
  | [] => [(k, v)]
  | (k', v') :: m' =>
      if decide (k' = k) then (k, v) :: m' else (k', v') :: map_set m' k v
  end.

(** [m.has(k)] *)
Definition map_has (m : list (K * V)) (k : K) : bool :=
  match map_get m k with Some _ => true | None => false end.
End JsMap.

Section JsSet.
Context {A : Type} `{EqDecision A}.

(** [s.add(x)] *)
Definition set_add (s : list A) (x : A) : list A :=
  if decide (x ∈ s) then s else s ++ [x].

(** [new Set(arr)] *)
Definition set_of_list (l : list A) : list A := foldl set_add [] l.

(** [s.delete(x)] *)
Definition set_delete (s : list A) (x : A) : list A :=
  filter (λ y, y ≠ x) s.

(** [s.has(x)] *)
Definition set_has (s : list A) (x : A) : bool := bool_decide (x ∈ s).
End JsSet.

(** comparator [(a,b) => b-a] *)
Definition desc (a b : Z) : Z := b - a.
(** comparator [(a,b) => a-b] *)
Definition asc (a b : Z) : Z := a - b.

End Js.
Import Js.

(** ** types.ts *)

Inductive Suit := Clubs | Diamonds | Hearts | Spades.

#[global] Instance Suit_eq_dec : EqDecision Suit.
Proof. solve_decision. Defined.

Record Card := mkCard { rank : Z; suit : Suit }.

#[global] Instance Card_eq_dec : EqDecision Card.
Proof. solve_decision. Defined.

(** ** HandEvaluator.ts *)

Module HandEvaluator.

Record RankResult := mkRank { category : Z; tiebreak : list (option Z) }.

(** [countsByRank]: a [Map] from rank to number of cards of that rank. *)
Definition countsByRank (cards : list Card) : list (Z * Z) :=
  foldl (λ m c, map_set m (rank c) (default 0 (map_get m (rank c)) + 1)) [] cards.

(** One turn of the [for] loop of [isStraight], at index [i], on the loop
    state [(run, bestHigh)].  The loop bound keeps [i + 1] inside [u], and
    [run >= 5] can only be reached at [i >= 3]. *)
Definition straightStep (u : list Z) (st : Z * Z) (i : nat) : Z * Z :=
  let '(run, bestHigh) := st in
  match u !! i, u !! S i with
  | Some a, Some b =>
      if a =? b + 1 then
        let run := run + 1 in
        (run, if 5 <=? run
              then Z.max bestHigh (default 0 (u !! (i - 3)%nat))
              else bestHigh)
      else (1, bestHigh)
  | _, _ => (run, bestHigh)
  end.

Definition isStraight (ranks : list Z) : option Z :=
  let u := js_sort desc (set_of_list ranks) in
  let u := if bool_decide (14 ∈ u) then u ++ [1] else u in
  let '(_, bestHigh) := foldl (straightStep u) (1, 0) (seq 0 (length u - 1)) in
  if bestHigh =? 0 then None else Some bestHigh.

(** The [suits] map of [rank7]: suit to the cards of that suit, in input
    order. *)
Definition suitsOf (cards : list Card) : list (Suit * list Card) :=
  foldl (λ m c, map_set m (suit c) (default [] (map_get m (suit c)) ++ [c])) [] cards.

(** [for (const [s, arr] of suits) if (arr.length >= 5) flushSuit = s] *)
Definition flushSuitOf (suits : list (Suit * list Card)) : option Suit :=
  foldl (λ fs e, if (5 <=? length e.2)%nat then Some e.1 else fs) None suits.

(** comparator of [groups]: by count descending, then rank descending *)
Definition groupCmp (a b : Z * Z) : Z :=
  if negb (b.2 =? a.2) then b.2 - a.2 else b.1 - a.1.

(** The classification of [rank7], given the helper values derived from
    the cards: [ranksDesc], the distinct ranks in descending order;
    [groups], the pairs (rank, count) by count, then rank, descending; and
    [flushRanks], the ranks of the flush suit in descending order when a
    suit has five cards or more. *)
Definition classify (ranksDesc : list Z) (groups : list (Z * Z))
  (flushRanks : option (list Z)) : RankResult :=
  match flushRanks ≫= isStraight with
  | Some sfHigh => mkRank 8 [Some sfHigh]
  | None =>
    match head groups with
    | Some (quad, 4) =>
        let kickers := List.filter (λ r, negb (r =? quad)) ranksDesc in
        mkRank 7 [Some quad; kickers !! 0%nat]
    | _ =>
      let threes := js_sort desc (List.filter (λ g, g.2 =? 3) groups).*1 in
      let pairs := js_sort desc (List.filter (λ g, g.2 =? 2) groups).*1 in
      if (2 <=? length threes)%nat
         || ((1 <=? length threes)%nat && (1 <=? length pairs)%nat)
      then
        let top3 := threes !! 0%nat in
        let top2 := if (2 <=? length threes)%nat
                    then threes !! 1%nat else pairs !! 0%nat in
        mkRank 6 [top3; top2]
      else
      match flushRanks with
      | Some fr => mkRank 5 (Some <$> take 5 fr)
      | None =>
      match isStraight ranksDesc with
      | Some sHigh => mkRank 4 [Some sHigh]
      | None =>
      match threes with
      | r3 :: _ =>
          let kick := take 2 (List.filter (λ r, negb (r =? r3)) ranksDesc) in
          mkRank 3 (Some r3 :: (Some <$> kick))
      | [] =>
      match pairs with
      | p1 :: p2 :: _ =>
          let kick :=
            List.filter (λ r, negb (r =? p1) && negb (r =? p2)) ranksDesc !! 0%nat in
          mkRank 2 [Some (Z.max p1 p2); Some (Z.min p1 p2); kick]
      | [p] =>
          let kick := take 3 (List.filter (λ r, negb (r =? p)) ranksDesc) in
          mkRank 1 (Some p :: (Some <$> kick))
      | [] => mkRank 0 (Some <$> take 5 ranksDesc)
      end end end end
    end
  end.

(** The ranks of the flush suit, descending: [flushRanks] of [rank7]. *)
Definition flushRanksOf (suits : list (Suit * list Card)) : option (list Z) :=
  (λ s, js_sort desc (rank <$> default [] (map_get suits s))) <$> flushSuitOf suits.

Definition rank7 (cards : list Card) : RankResult :=
  let byRank := countsByRank cards in
  let ranksDesc := js_sort desc byRank.*1 in
  let suits := suitsOf cards in
  let groups := js_sort groupCmp byRank in
  classify ranksDesc groups (flushRanksOf suits).

(** The loop of [compare] over the tie-break values, at the indices
    [steps]: the first difference decides, and a missing or undefined entry
    counts as [0]. *)
Fixpoint compareFrom (ta tb : list (option Z)) (steps : list nat) : Z :=
  match steps with
  | [] => 0
  | i :: steps' =>
      let va := default 0 (mjoin (ta !! i)) in
      let vb := default 0 (mjoin (tb !! i)) in
      if negb (va =? vb) then va - vb else compareFrom ta tb steps'
  end.

Definition compare (a b : list Card) : Z :=
  let ra := rank7 a in
  let rb := rank7 b in
  if negb (category ra =? category rb) then category ra - category rb
  else compareFrom (tiebreak ra) (tiebreak rb)
         (seq 0 (Nat.max (length (tiebreak ra)) (length (tiebreak rb)))).

End HandEvaluator.

(** ** PokerEngine.ts *)

Module PokerEngine.
Import HandEvaluator.

Inductive Stage := waiting | preflop | flop | turn | river | showdown.

#[global] Instance Stage_eq_dec : EqDecision Stage.
Proof. solve_decision. Defined.

Record Player := mkPlayer {
  id : string;
  name : string;
  stack : Z;
  seat : Z;
  hole : option (list Card);
  inHand : bool;
  hasActedThisRound : bool;
  isAllIn : bool;
  isOwner : bool
}.

Record WinnerInfo := mkWinner {
  w_seat : Z;
  w_name : string;
  w_amount : Z;
  w_category : option Z;
  w_categoryName : string
}.

Record SidePot := mkSidePot { amount : Z; eligibleSeats : list Z }.

(** The text of an action-log entry, kept as the event it is formatted
    from.  The wall-clock stamp [ts] of an entry is not modelled. *)
Inductive ActionLogItem :=
| LogJoined (name : string) (seatNo : Z) (stack : Q)
| LogLeft (name : string)
| LogPosts (name : string) (paid : Z)
| LogNewHand (dealer sb : string) (smallBlind bigBlind : Z)
| LogFlop (f1 f2 f3 : Card)
| LogTurn (t : Card)
| LogRiver (r : Card)
| LogWinUncontested (name : string) (amount : Z)
| LogShowdown (wins : list (string * Z))
| LogShows (name : string)
| LogMucks (name : string)
| LogFold (name : string)
| LogCheck (name : string)
| LogCall (name : string) (pay : Z)
| LogBet (name : string) (currentBet : Z)
| LogRaise (name : string) (currentBet : Z).

Record RoomState := mkRoom {
  code : string;
  stage : Stage;
  players : list Player;
  dealerSeat : Z;
  smallBlind : Z;
  bigBlind : Z;
  currentBet : Z;
  minRaise : Z;
  pot : Z;
  community : list Card;
  turnSeat : Z;
  deck : list Card;
  lastAggressorSeat : option Z;
  message : string;
  lastWinners : list WinnerInfo;
  st_actionLog : list ActionLogItem;
  pots : list SidePot
}.

(** The engine object: the public [state] and the private fields. *)
Record Engine := mkEngine {
  state : RoomState;
  streetBets : list Z;
  totalBets : list Z;
  publicReveals : list (Z * option (list Card));
  revealSeats : list Z;
  actionLog : list ActionLogItem
}.

(** *** Field updates *)

Definition set_stack (v : Z) (p : Player) : Player :=
  mkPlayer (id p) (name p) v (seat p) (hole p) (inHand p)
           (hasActedThisRound p) (isAllIn p) (isOwner p).
Definition set_seat (v : Z) (p : Player) : Player :=
  mkPlayer (id p) (name p) (stack p) v (hole p) (inHand p)
           (hasActedThisRound p) (isAllIn p) (isOwner p).
Definition set_hole (v : option (list Card)) (p : Player) : Player :=
  mkPlayer (id p) (name p) (stack p) (seat p) v (inHand p)
           (hasActedThisRound p) (isAllIn p) (isOwner p).
Definition set_inHand (v : bool) (p : Player) : Player :=
  mkPlayer (id p) (name p) (stack p) (seat p) (hole p) v
           (hasActedThisRound p) (isAllIn p) (isOwner p).
Definition set_hasActedThisRound (v : bool) (p : Player) : Player :=
  mkPlayer (id p) (name p) (stack p) (seat p) (hole p) (inHand p)
           v (isAllIn p) (isOwner p).
Definition set_isAllIn (v : bool) (p : Player) : Player :=
  mkPlayer (id p) (name p) (stack p) (seat p) (hole p) (inHand p)
           (hasActedThisRound p) v (isOwner p).

Definition set_stage (v : Stage) (s : RoomState) : RoomState :=
  mkRoom (code s) v (players s) (dealerSeat s) (smallBlind s) (bigBlind s)
    (currentBet s) (minRaise s) (pot s) (community s) (turnSeat s) (deck s)
    (lastAggressorSeat s) (message s) (lastWinners s) (st_actionLog s) (pots s).
Definition set_players (v : list Player) (s : RoomState) : RoomState :=
  mkRoom (code s) (stage s) v (dealerSeat s) (smallBlind s) (bigBlind s)
    (currentBet s) (minRaise s) (pot s) (community s) (turnSeat s) (deck s)
    (lastAggressorSeat s) (message s) (lastWinners s) (st_actionLog s) (pots s).
Definition set_dealerSeat (v : Z) (s : RoomState) : RoomState :=
  mkRoom (code s) (stage s) (players s) v (smallBlind s) (bigBlind s)
    (currentBet s) (minRaise s) (pot s) (community s) (turnSeat s) (deck s)
    (lastAggressorSeat s) (message s) (lastWinners s) (st_actionLog s) (pots s).
Definition set_smallBlind (v : Z) (s : RoomState) : RoomState :=
  mkRoom (code s) (stage s) (players s) (dealerSeat s) v (bigBlind s)
    (currentBet s) (minRaise s) (pot s) (community s) (turnSeat s) (deck s)
    (lastAggressorSeat s) (message s) (lastWinners s) (st_actionLog s) (pots s).
Definition set_bigBlind (v : Z) (s : RoomState) : RoomState :=
  mkRoom (code s) (stage s) (players s) (dealerSeat s) (smallBlind s) v
    (currentBet s) (minRaise s) (pot s) (community s) (turnSeat s) (deck s)
    (lastAggressorSeat s) (message s) (lastWinners s) (st_actionLog s) (pots s).
Definition set_currentBet (v : Z) (s : RoomState) : RoomState :=
  mkRoom (code s) (stage s) (players s) (dealerSeat s) (smallBlind s) (bigBlind s)
    v (minRaise s) (pot s) (community s) (turnSeat s) (deck s)
    (lastAggressorSeat s) (message s) (lastWinners s) (st_actionLog s) (pots s).
Definition set_minRaise (v : Z) (s : RoomState) : RoomState :=
  mkRoom (code s) (stage s) (players s) (dealerSeat s) (smallBlind s) (bigBlind s)
    (currentBet s) v (pot s) (community s) (turnSeat s) (deck s)
    (lastAggressorSeat s) (message s) (lastWinners s) (st_actionLog s) (pots s).
Definition set_pot (v : Z) (s : RoomState) : RoomState :=
  mkRoom (code s) (stage s) (players s) (dealerSeat s) (smallBlind s) (bigBlind s)
    (currentBet s) (minRaise s) v (community s) (turnSeat s) (deck s)
    (lastAggressorSeat s) (message s) (lastWinners s) (st_actionLog s) (pots s).
Definition set_community (v : list Card) (s : RoomState) : RoomState :=
  mkRoom (code s) (stage s) (players s) (dealerSeat s) (smallBlind s) (bigBlind s)
    (currentBet s) (minRaise s) (pot s) v (turnSeat s) (deck s)
    (lastAggressorSeat s) (message s) (lastWinners s) (st_actionLog s) (pots s).
Definition set_turnSeat (v : Z) (s : RoomState) : RoomState :=
  mkRoom (code s) (stage s) (players s) (dealerSeat s) (smallBlind s) (bigBlind s)
    (currentBet s) (minRaise s) (pot s) (community s) v (deck s)
    (lastAggressorSeat s) (message s) (lastWinners s) (st_actionLog s) (pots s).
Definition set_deck (v : list Card) (s : RoomState) : RoomState :=
  mkRoom (code s) (stage s) (players s) (dealerSeat s) (smallBlind s) (bigBlind s)
    (currentBet s) (minRaise s) (pot s) (community s) (turnSeat s) v
    (lastAggressorSeat s) (message s) (lastWinners s) (st_actionLog s) (pots s).
Definition set_lastAggressorSeat (v : option Z) (s : RoomState) : RoomState :=
  mkRoom (code s) (stage s) (players s) (dealerSeat s) (smallBlind s) (bigBlind s)
    (currentBet s) (minRaise s) (pot s) (community s) (turnSeat s) (deck s)
    v (message s) (lastWinners s) (st_actionLog s) (pots s).
Definition set_message (v : string) (s : RoomState) : RoomState :=
  mkRoom (code s) (stage s) (players s) (dealerSeat s) (smallBlind s) (bigBlind s)
    (currentBet s) (minRaise s) (pot s) (community s) (turnSeat s) (deck s)
    (lastAggressorSeat s) v (lastWinners s) (st_actionLog s) (pots s).
Definition set_lastWinners (v : list WinnerInfo) (s : RoomState) : RoomState :=
  mkRoom (code s) (stage s) (players s) (dealerSeat s) (smallBlind s) (bigBlind s)
    (currentBet s) (minRaise s) (pot s) (community s) (turnSeat s) (deck s)
    (lastAggressorSeat s) (message s) v (st_actionLog s) (pots s).
Definition set_pots (v : list SidePot) (s : RoomState) : RoomState :=
  mkRoom (code s) (stage s) (players s) (dealerSeat s) (smallBlind s) (bigBlind s)
    (currentBet s) (minRaise s) (pot s) (community s) (turnSeat s) (deck s)
    (lastAggressorSeat s) (message s) (lastWinners s) (st_actionLog s) v.

Definition upd_state (f : RoomState → RoomState) (e : Engine) : Engine :=
  mkEngine (f (state e)) (streetBets e) (totalBets e)
           (publicReveals e) (revealSeats e) (actionLog e).
Definition set_streetBets (v : list Z) (e : Engine) : Engine :=
  mkEngine (state e) v (totalBets e) (publicReveals e) (revealSeats e) (actionLog e).
Definition set_totalBets (v : list Z) (e : Engine) : Engine :=
  mkEngine (state e) (streetBets e) v (publicReveals e) (revealSeats e) (actionLog e).
Definition set_publicReveals (v : list (Z * option (list Card))) (e : Engine) : Engine :=
  mkEngine (state e) (streetBets e) (totalBets e) v (revealSeats e) (actionLog e).
Definition set_revealSeats (v : list Z) (e : Engine) : Engine :=
  mkEngine (state e) (streetBets e) (totalBets e) (publicReveals e) v (actionLog e).
Definition set_actionLog (v : list ActionLogItem) (e : Engine) : Engine :=
  mkEngine (state e) (streetBets e) (totalBets e) (publicReveals e) (revealSeats e) v.

(** *** Arrays indexed by a JavaScript number *)

(** [arr[i]], [undefined] when [i] is not an index of [arr]. *)
Definition at_ {A} (arr : list A) (i : Z) : option A :=
  if i <? 0 then None else arr !! Z.to_nat i.

(** [arr[i] || 0] on an array of numbers. *)
Definition num_at (arr : list Z) (i : Z) : Z := default 0 (at_ arr i).

(** [arr[i] = v] for [i >= 0]: writing past the end extends the array; the
    holes this leaves read as [undefined], i.e. as [0] under [|| 0]. *)
Definition arr_set (arr : list Z) (i : Z) (v : Z) : list Z :=
  let k := Z.to_nat i in
  if (k <? length arr)%nat then <[k := v]> arr
  else arr ++ replicate (k - length arr) 0 ++ [v].

(** [arr.splice(i, 0, v)] *)
Definition splice_in {A} (arr : list A) (i : nat) (v : A) : list A :=
  take i arr ++ v :: drop i arr.

(** [arr.pop()], [None] on an empty array. *)
Definition pop {A} (arr : list A) : option (A * list A) :=
  match reverse arr with
  | [] => None
  | x :: r => Some (x, reverse r)
  end.

(** The object [players[i]] is updated in place. *)
Definition upd_player (i : nat) (f : Player → Player) (e : Engine) : Engine :=
  upd_state (λ s, set_players (alter f i (players s)) s) e.

(** *** Constants and helpers *)

Definition SUITS : list Suit := [Clubs; Diamonds; Hearts; Spades].
Definition RANKS : list Z := [2;3;4;5;6;7;8;9;10;11;12;13;14].
Definition MAX_PLAYERS : nat := 9.
Definition LOG_LIMIT : nat := 200.

Definition showZ (z : Z) : string := NilZero.string_of_int (Z.to_int z).

Definition CATEGORY_NAMES : list string :=
  ["High Card"; "One Pair"; "Two Pair"; "Three of a Kind"; "Straight";
   "Flush"; "Full House"; "Four of a Kind"; "Straight Flush"]%string.

Definition catName (cat : option Z) : string :=
  match cat with
  | None => "Uncontested"
  | Some k => default ("Cat " ++ showZ k)%string (at_ CATEGORY_NAMES k)
  end.

(** [makeDeck]: the 52 cards, then a Fisher-Yates shuffle.  [rnd] is the
    stream of values of [Math.floor(Math.random() * (i + 1))], one for each
    [i] from 51 down to 1; each is an index between [0] and [i]. *)
Definition freshDeck : list Card :=
  s ← SUITS; r ← RANKS; [mkCard r s].

Definition swap {A} (d : list A) (i j : nat) : list A :=
  match d !! i, d !! j with
  | Some x, Some y => <[j := x]> (<[i := y]> d)
  | _, _ => d
  end.

Fixpoint shuffle (d : list Card) (i : nat) (rnd : list nat) : list Card :=
  match i, rnd with
  | S i', j :: rnd' => shuffle (swap d i (j mod (i + 1))%nat) i' rnd'
  | _, _ => d
  end.

Definition makeDeck (rnd : list nat) : list Card :=
  shuffle freshDeck (length freshDeck - 1) rnd.

Fixpoint nextSeat_from (ps : list Player) (from : Z) (steps : list nat) : option Z :=
  match steps with
  | [] => Some from
  | i :: steps' =>
      let seat := Z.rem (from + Z.of_nat i) (Z.of_nat (length ps)) in
      p ← at_ ps seat;
      if inHand p && negb (isAllIn p) then Some seat
      else nextSeat_from ps from steps'
  end.

Definition nextSeat (s : RoomState) (from : Z) : option Z :=
  nextSeat_from (players s) from (seq 1 (length (players s))).

(** [log]: append, then keep the last [LOG_LIMIT] entries. *)
Definition log (item : ActionLogItem) (e : Engine) : Engine :=
  let l := actionLog e ++ [item] in
  set_actionLog (drop (length l - LOG_LIMIT) l) e.

Definition resetReveals (e : Engine) : Engine :=
  set_revealSeats [] (set_publicReveals [] e).

(** *** Chips and contributions *)

Definition commitChips (seat amount : Z) (e : Engine) : option (Z * Engine) :=
  p ← at_ (players (state e)) seat;
  let pay := Z.max 0 (Z.min amount (stack p)) in
  if pay <=? 0 then Some (0, e)
  else
    let e := upd_player (Z.to_nat seat) (λ p,
               let p := set_stack (stack p - pay) p in
               if stack p =? 0 then set_isAllIn true p else p) e in
    let e := upd_state (λ s, set_pot (pot s + pay) s) e in
    let e := set_streetBets (arr_set (streetBets e) seat (num_at (streetBets e) seat + pay)) e in
    let e := set_totalBets (arr_set (totalBets e) seat (num_at (totalBets e) seat + pay)) e in
    Some (pay, e).

(** One turn of the [while] loop of [buildSidePots] on the working copy
    [remain]; [None] is the [break]. *)
Definition sidePotLayer (ps : list Player) (remain : list Z)
  : option (list SidePot * list Z) :=
  let n := length ps in
  let contributors :=
    List.filter (λ i, 0 <? num_at remain (Z.of_nat i)) (seq 0 n) in
  (* [layer]: [None] stands for [Infinity] *)
  let layer :=
    foldl (λ (layer : option Z) i,
             let r := num_at remain (Z.of_nat i) in
             Some (match layer with None => r | Some l => Z.min l r end))
          None contributors in
  match contributors, layer with
  | _ :: _, Some layer =>
      if layer <=? 0 then None
      else
        let amount := layer * Z.of_nat (length contributors) in
        let remain :=
          foldl (λ rem i, arr_set rem (Z.of_nat i) (num_at rem (Z.of_nat i) - layer))
                remain contributors in
        let eligibleSeats :=
          List.filter (λ i, match ps !! i with
                            | Some p => inHand p
                            | None => false
                            end) contributors in
        Some (if 0 <? amount
              then [mkSidePot amount (Z.of_nat <$> eligibleSeats)]
              else [],
              remain)
  | _, _ => None
  end.

(** The [while (stillHasMoney())] loop, run for at most [fuel] turns. *)
Fixpoint sidePotLoop (fuel : nat) (ps : list Player) (remain : list Z)
  (pots : list SidePot) : list SidePot :=
  match fuel with
  | O => pots
  | S fuel =>
      if existsb (λ v, 0 <? v) remain then
        match sidePotLayer ps remain with
        | Some (pot, remain) => sidePotLoop fuel ps remain (pots ++ pot)
        | None => pots
        end
      else pots
  end.

(** [buildSidePots].  Every turn of the loop that does not leave it brings
    the smallest positive entry of [remain] among the seats to zero, so the
    loop takes at most [players.length] turns (see [sidePotLoop_fuel]). *)
Definition buildSidePots (e : Engine) : list SidePot :=
  let ps := players (state e) in
  if (length ps =? 0)%nat then []
  else sidePotLoop (length ps) ps (Z.max 0 <$> totalBets e) [].

(** *** API *)

(** [Number(x) || d] on a finite number. *)
Definition orDefault (x d : Q) : Q := if Qeq_bool x 0 then d else x.

Definition setBlinds (sb bb : Q) (e : Engine) : Engine :=
  let s := Z.max 1 (Qfloor (orDefault sb 1)) in
  let b := Z.max s (Qfloor (orDefault bb 2)) in
  upd_state (λ st, set_minRaise b (set_bigBlind b (set_smallBlind s st))) e.

Definition newEngine (code : string) : Engine :=
  mkEngine (mkRoom code waiting [] 0 1 2 0 2 0 [] 0 [] None "" [] [] [])
           [] [] [] [] [].

Definition addPlayer (id name : string) (stack : Q) (owner : bool) (e : Engine)
  : bool * Engine :=
  let ps := players (state e) in
  if (MAX_PLAYERS <=? length ps)%nat then (false, e)
  else if existsb (λ p, String.eqb p.(PokerEngine.name) name) ps then (false, e)
  else
    let seat := length ps in
    let p := mkPlayer id name (Z.max 1 (Qfloor stack)) (Z.of_nat seat)
                      None true false false owner in
    let e := upd_state (set_players (ps ++ [p])) e in
    let e := set_streetBets (splice_in (streetBets e) seat 0) e in
    let e := set_totalBets (splice_in (totalBets e) seat 0) e in
    (true, log (LogJoined name (Z.of_nat seat + 1) stack) e).

Definition removePlayer (id : string) (e : Engine) : Engine :=
  match list_find (λ p, p.(PokerEngine.id) = id) (players (state e)) with
  | None => e
  | Some (idx, p) =>
      let ps := delete idx (players (state e)) in
      let ps := imap (λ i pp, set_seat (Z.of_nat i) pp) ps in
      let e := upd_state (set_players ps) e in
      let e := set_streetBets (delete idx (streetBets e)) e in
      let e := set_totalBets (delete idx (totalBets e)) e in
      let e := log (LogLeft (name p)) e in
      if (length ps =? 0)%nat then upd_state (set_stage waiting) e else e
  end.

(** *** Views *)

Record PlayerView := mkPlayerView {
  pv_id : string;
  pv_name : string;
  pv_stack : Z;
  pv_seat : Z;
  pv_inHand : bool;
  pv_hasActedThisRound : bool;
  pv_isAllIn : bool;
  pv_isOwner : bool;
  pv_holeCount : nat;
  pv_publicHole : option (list Card)
}.

(** The object returned by [getBroadcastView]: the fields of [state] other
    than [deck] and [players] ([pots], [lastWinners] and [actionLog] are
    overridden), the player entries and the reveal-eligible seats. *)
Record BroadcastView := mkView {
  v_code : string;
  v_stage : Stage;
  v_dealerSeat : Z;
  v_smallBlind : Z;
  v_bigBlind : Z;
  v_currentBet : Z;
  v_minRaise : Z;
  v_pot : Z;
  v_community : list Card;
  v_turnSeat : Z;
  v_lastAggressorSeat : option Z;
  v_message : string;
  v_pots : list SidePot;
  v_players : list PlayerView;
  v_revealSeats : list Z;
  v_lastWinners : list WinnerInfo;
  v_actionLog : list ActionLogItem
}.

(** [this.publicReveals[seat]] *)
Definition publicHoleOf (e : Engine) (seat : Z) : option (list Card) :=
  mjoin (map_get (publicReveals e) seat).

Definition playerView (e : Engine) (p : Player) : PlayerView :=
  mkPlayerView (id p) (name p) (stack p) (seat p) (inHand p)
    (hasActedThisRound p) (isAllIn p) (isOwner p)
    (match hole p with Some h => length h | None => 0%nat end)
    (publicHoleOf e (seat p)).

Definition getBroadcastView (e : Engine) : BroadcastView :=
  let s := state e in
  mkView (code s) (stage s) (dealerSeat s) (smallBlind s) (bigBlind s)
    (currentBet s) (minRaise s) (pot s) (community s) (turnSeat s)
    (lastAggressorSeat s) (message s)
    (buildSidePots e)
    (playerView e <$> players s)
    (revealSeats e)
    (lastWinners s)
    (actionLog e).

(** *** Playing a hand *)

(** The dealing loop of [startHand]: two cards off the end of the deck for
    every player that is in the hand. *)
Fixpoint dealHoles (ps : list Player) (d : list Card)
  : option (list Player * list Card) :=
  match ps with
  | [] => Some ([], d)
  | p :: ps' =>
      if inHand p then
        '(c1, d) ← pop d;
        '(c2, d) ← pop d;
        '(ps'', d) ← dealHoles ps' d;
        Some (set_hole (Some [c1; c2]) p :: ps'', d)
      else
        '(ps'', d) ← dealHoles ps' d;
        Some (p :: ps'', d)
  end.

Definition postBlind (seat amount : Z) (e : Engine) : option Engine :=
  '(paid, e) ← commitChips seat amount e;
  p ← at_ (players (state e)) seat;
  Some (log (LogPosts (name p) paid) e).

Definition nameAt (e : Engine) (seat : Z) (d : string) : string :=
  match at_ (players (state e)) seat with
  | Some p => name p
  | None => d
  end.

(** [startHand], first part: fresh deck, the table and the players reset,
    the dealer button moved on.  [rnd] are the random draws of the shuffle. *)
Definition openHand (rnd : list nat) (e : Engine) : Engine :=
  let e := upd_state (λ s,
    set_minRaise (bigBlind s) (set_currentBet 0 (set_stage preflop
      (set_pot 0 (set_community [] (set_deck (makeDeck rnd) s)))))) e in
  let e := upd_state (λ s, set_players
    ((λ p, set_hole None (set_hasActedThisRound false (set_isAllIn false
             (set_inHand (0 <? stack p) p)))) <$> players s) s) e in
  let e := resetReveals e in
  let e := upd_state (set_lastWinners []) e in
  let n := length (players (state e)) in
  let e := set_streetBets (replicate n 0) e in
  let e := set_totalBets (replicate n 0) e in
  let e := upd_state (set_pots []) e in
  upd_state (λ s, set_dealerSeat (Z.rem (dealerSeat s + 1) (Z.of_nat n)) s) e.

(** [startHand], second part: the hole cards. *)
Definition dealHand (e : Engine) : option Engine :=
  '(ps, d) ← dealHoles (players (state e)) (deck (state e));
  Some (upd_state (λ s, set_deck d (set_players ps s)) e).

(** [startHand], after the blinds: the bet to match, the first seat to
    act, the last aggressor and the log entry. *)
Definition openBetting (sbSeat bbSeat : Z) (e : Engine) : Engine :=
  let n := length (players (state e)) in
  let e := upd_state (λ s, set_currentBet (bigBlind s) s) e in
  let e := upd_state (λ s,
    set_message "New hand" (set_lastAggressorSeat (Some bbSeat)
      (set_turnSeat (Z.rem (dealerSeat s + 3) (Z.of_nat n)) s))) e in
  let dealer := nameAt e (dealerSeat (state e)) "Dealer" in
  let sb := nameAt e sbSeat "SB" in
  log (LogNewHand dealer sb (smallBlind (state e)) (bigBlind (state e))) e.

(** [startHand], last part: the blinds and the first seat to act. *)
Definition postBlinds (e : Engine) : option Engine :=
  let n := length (players (state e)) in
  let sbSeat := Z.rem (dealerSeat (state e) + 1) (Z.of_nat n) in
  let bbSeat := Z.rem (dealerSeat (state e) + 2) (Z.of_nat n) in
  e ← postBlind sbSeat (smallBlind (state e)) e;
  e ← postBlind bbSeat (bigBlind (state e)) e;
  Some (openBetting sbSeat bbSeat e).

Definition startHand (rnd : list nat) (e : Engine) : option Engine :=
  if (length (players (state e)) <? 2)%nat
  then Some (upd_state (set_message "Need 2+ players") e)
  else e ← dealHand (openHand rnd e); postBlinds e.

Definition everyoneActedOrAllIn (e : Engine) : bool :=
  forallb (λ p,
    if negb (inHand p) || isAllIn p then true
    else if negb (hasActedThisRound p) then false
    else negb (num_at (streetBets e) (seat p) <? currentBet (state e)))
    (players (state e)).

Definition activeCount (e : Engine) : nat :=
  length (List.filter inHand (players (state e))).

(** *** Showdown *)

(** The tie-break loop of [resolveShowdown]: the first difference decides,
    a missing or undefined entry counts as [0]. *)
Fixpoint tiebreakCmp (ta tb : list (option Z)) (steps : list nat) : Z :=
  match steps with
  | [] => 0
  | i :: steps' =>
      let a := default 0 (mjoin (ta !! i)) in
      let b := default 0 (mjoin (tb !! i)) in
      if negb (a =? b) then a - b else tiebreakCmp ta tb steps'
  end.

(** One turn of the loop that selects the best hand(s) among [elig]. *)
Definition bestStep (rankBySeat : list (Z * RankResult))
  (acc : list Z * option RankResult) (s : Z) : list Z * option RankResult :=
  let '(bestSeats, bestR) := acc in
  match map_get rankBySeat s with
  | None => acc
  | Some r =>
      match bestR with
      | None => ([s], Some r)
      | Some b =>
          if category b <? category r then ([s], Some r)
          else if category r =? category b then
            let len := Nat.max (length (tiebreak r)) (length (tiebreak b)) in
            let cmp := tiebreakCmp (tiebreak r) (tiebreak b) (seq 0 len) in
            if 0 <? cmp then ([s], Some r)
            else if cmp =? 0 then (bestSeats ++ [s], bestR)
            else acc
          else acc
      end
  end.

(** [wonBySeat.set(s, (wonBySeat.get(s) || 0) + x)] *)
Definition credit (won : list (Z * Z)) (s x : Z) : list (Z * Z) :=
  map_set won s (default 0 (map_get won s) + x).

(** The split of one pot among [bestSeats]: an equal share each, then the
    remainder one chip at a time in ascending seat order. *)
Definition splitPot (amount : Z) (bestSeats : list Z) (won : list (Z * Z))
  : list (Z * Z) :=
  let k := Z.of_nat (length bestSeats) in
  let share := amount / k in
  let remainder := amount - share * k in
  let won := foldl (λ w s, credit w s share) won bestSeats in
  let sorted := js_sort asc bestSeats in
  foldl (λ w idx,
           match sorted !! (idx mod length sorted)%nat with
           | Some s => credit w s 1
           | None => w
           end)
        won (seq 0 (Z.to_nat remainder)).

(** The body of [for (const pot of pots)]. *)
Definition payPot (rankBySeat : list (Z * RankResult))
  (won : list (Z * Z)) (pot : SidePot) : list (Z * Z) :=
  let elig := List.filter (map_has rankBySeat) (eligibleSeats pot) in
  match elig with
  | [] => won
  | _ =>
      let '(bestSeats, _) := foldl (bestStep rankBySeat) ([], None) elig in
      splitPot (amount pot) bestSeats won
  end.

(** comparator of [winnersList]: amount descending, then seat ascending *)
Definition winnerCmp (a b : WinnerInfo) : Z :=
  if negb (w_amount b - w_amount a =? 0) then w_amount b - w_amount a
  else w_seat a - w_seat b.

Definition joinNames (names : list string) : string :=
  String.concat ", " names.

(** [contenders]: the players in the hand that hold cards, each with its
    index in [players]. *)
Definition contendersOf (e : Engine) : list (nat * Player) :=
  List.filter (λ ip, inHand ip.2 && bool_decide (is_Some (hole ip.2)))
              (imap pair (players (state e))).

(** [rankBySeat]: every contender's hand, ranked once. *)
Definition rankContenders (board : list Card) (contenders : list (nat * Player))
  : list (Z * RankResult) :=
  foldl (λ m (ip : nat * Player),
           map_set m (seat ip.2) (rank7 (board ++ default [] (hole ip.2))))
        [] contenders.

(** [for (const [seat, amt] of wonBySeat) players[seat].stack += amt] *)
Definition creditWinnings (wonBySeat : list (Z * Z)) (e : Engine) : option Engine :=
  foldl (λ (oe : option Engine) (sa : Z * Z),
           e ← oe;
           _ ← at_ (players (state e)) sa.1;
           Some (upd_player (Z.to_nat sa.1) (λ p, set_stack (stack p + sa.2) p) e))
        (Some e) wonBySeat.

(** [winnersList], before it is sorted. *)
Definition winnersOf (rankBySeat : list (Z * RankResult))
  (wonBySeat : list (Z * Z)) (e : Engine) : option (list WinnerInfo) :=
  mapM (λ sa : Z * Z,
          p ← at_ (players (state e)) sa.1;
          r ← map_get rankBySeat sa.1;
          Some (mkWinner sa.1 (name p) sa.2 (Some (category r))
                         (catName (Some (category r)))))
       wonBySeat.

(** Winners are shown automatically. *)
Definition revealWinners (winnersList : list WinnerInfo) (e : Engine)
  : option Engine :=
  foldl (λ (oe : option Engine) w,
           e ← oe;
           pl ← at_ (players (state e)) (w_seat w);
           Some (match hole pl with
                 | Some h =>
                     set_publicReveals
                       (map_set (publicReveals e) (w_seat w) (Some h)) e
                 | None => e
                 end))
        (Some e) winnersList.

(** The other contenders may choose to show or muck. *)
Definition offerReveal (winnerSeats : list Z) (contenders : list (nat * Player))
  (e : Engine) : Engine :=
  foldl (λ e (ip : nat * Player),
           if set_has winnerSeats (seat ip.2) then e
           else set_revealSeats (set_add (revealSeats e) (seat ip.2)) e)
        e contenders.

(** [resolveShowdown] with a single contender: it takes the pot. *)
Definition showdownUncontested (j : nat) (winner : Player) (e : Engine) : Engine :=
  let amount := pot (state e) in
  let e := upd_player j (λ p, set_stack (stack p + amount) p) e in
  let e := upd_state (λ s,
    set_turnSeat (-1) (set_stage showdown (set_message
      (name winner ++ " wins (everyone folded) — may show or muck")
      (set_pot 0 s)))) e in
  let e := set_revealSeats (set_add (revealSeats e) (seat winner)) e in
  let winnersInfo :=
    [mkWinner (seat winner) (name winner) amount None (catName None)] in
  let e := log (LogWinUncontested (name winner) amount) e in
  let e := upd_state (set_lastWinners winnersInfo) e in
  upd_state (set_pots (buildSidePots e)) e.

(** [resolveShowdown] otherwise: the full showdown over the side pots. *)
Definition showdownFull (contenders : list (nat * Player)) (e : Engine)
  : option Engine :=
  let rankBySeat := rankContenders (community (state e)) contenders in
  let pots := buildSidePots e in
  let wonBySeat := foldl (payPot rankBySeat) [] pots in
  e ← creditWinnings wonBySeat e;
  winnersList ← winnersOf rankBySeat wonBySeat e;
  let winnersList := js_sort winnerCmp winnersList in
  let winnerSeats := set_of_list (w_seat <$> winnersList) in
  e ← revealWinners winnersList e;
  let e := offerReveal winnerSeats contenders e in
  let e := log (LogShowdown ((λ w, (w_name w, w_amount w)) <$> winnersList)) e in
  let msg :=
    match winnersList with
    | [w] => ("Winner: " ++ w_name w ++ " " ++ showZ (w_amount w))%string
    | _ => ("Winners: " ++ joinNames (w_name <$> winnersList))%string
    end in
  Some (upd_state (λ s,
    set_pots pots (set_pot 0 (set_turnSeat (-1) (set_stage showdown
      (set_lastWinners winnersList (set_message msg s)))))) e).

Definition resolveShowdown (e : Engine) : option Engine :=
  let contenders := contendersOf e in
  let e := resetReveals e in
  match contenders with
  | [(j, winner)] => Some (showdownUncontested j winner e)
  | _ => showdownFull contenders e
  end.

(** The opening statements of [advanceStage]: flags, bet to match and
    street ledger start afresh. *)
Definition resetStreet (e : Engine) : Engine :=
  let e := upd_state (λ s,
    set_players (set_hasActedThisRound false <$> players s) s) e in
  let e := upd_state (λ s, set_minRaise (bigBlind s) (set_currentBet 0 s)) e in
  set_streetBets (replicate (length (players (state e))) 0) e.

Definition advanceStage (e : Engine) : option Engine :=
  let e := resetStreet e in
  match stage (state e) with
  | preflop =>
      '(_, d) ← pop (deck (state e));
      '(f1, d) ← pop d;
      '(f2, d) ← pop d;
      '(f3, d) ← pop d;
      let e := upd_state (λ s,
        set_stage flop (set_community (community s ++ [f1; f2; f3])
          (set_deck d s))) e in
      t ← nextSeat (state e) (dealerSeat (state e));
      let e := upd_state (set_turnSeat t) e in
      let e := log (LogFlop f1 f2 f3) e in
      Some (upd_state (set_message "Next street") e)
  | flop =>
      '(_, d) ← pop (deck (state e));
      '(t, d) ← pop d;
      let e := upd_state (λ s,
        set_stage turn (set_community (community s ++ [t]) (set_deck d s))) e in
      ts ← nextSeat (state e) (dealerSeat (state e));
      let e := upd_state (set_turnSeat ts) e in
      let e := log (LogTurn t) e in
      Some (upd_state (set_message "Next street") e)
  | turn =>
      '(_, d) ← pop (deck (state e));
      '(r, d) ← pop d;
      let e := upd_state (λ s,
        set_stage river (set_community (community s ++ [r]) (set_deck d s))) e in
      ts ← nextSeat (state e) (dealerSeat (state e));
      let e := upd_state (set_turnSeat ts) e in
      let e := log (LogRiver r) e in
      Some (upd_state (set_message "Next street") e)
  | river =>
      resolveShowdown (upd_state (set_stage showdown) e)
  | _ => Some (upd_state (set_message "Next street") e)
  end.

(** *** Reveal or muck *)

Definition findById (id : string) (e : Engine) : option (nat * Player) :=
  list_find (λ p, p.(PokerEngine.id) = id) (players (state e)).

Definition canReveal (id : string) (e : Engine) : bool :=
  match findById id e with
  | None => false
  | Some (_, p) =>
      if negb (bool_decide (stage (state e) = showdown)) then false
      else set_has (revealSeats e) (seat p)
  end.

Definition doShow (id : string) (e : Engine) : bool * Engine :=
  match findById id e with
  | Some (_, p) =>
      if negb (canReveal id e) then (false, e)
      else
        let e := match hole p with
                 | Some h => set_publicReveals
                               (map_set (publicReveals e) (seat p) (Some h)) e
                 | None => e
                 end in
        let e := set_revealSeats (set_delete (revealSeats e) (seat p)) e in
        (true, log (LogShows (name p)) e)
  | None => (false, e)
  end.

Definition doMuck (id : string) (e : Engine) : bool * Engine :=
  match findById id e with
  | Some (_, p) =>
      if negb (canReveal id e) then (false, e)
      else
        let e := set_publicReveals (map_set (publicReveals e) (seat p) None) e in
        let e := set_revealSeats (set_delete (revealSeats e) (seat p)) e in
        (true, log (LogMucks (name p)) e)
  | None => (false, e)
  end.

(** *** Player actions *)

Inductive ActionKind := KFold | KCheck | KCall | KBet | KRaise.

Definition isBetting (s : Stage) : bool :=
  match s with
  | preflop | flop | turn | river => true
  | _ => false
  end.

(** Where [playerAction] stands after the branch of the action kind: it has
    returned, or it goes on to the round-closure block. *)
Inductive Outcome :=
| Returned (ok : bool) (e : Engine)
| Applied (e : Engine).

(** [p.hasActedThisRound = false] for every other player still to act *)
Definition reopenRound (actorSeat : Z) (e : Engine) : Engine :=
  upd_state (λ s, set_players
    ((λ p, if negb (seat p =? actorSeat) && inHand p && negb (isAllIn p)
           then set_hasActedThisRound false p else p) <$> players s) s) e.

(** The branches of [playerAction], one for each action kind.  [self] is
    the index of the [actor] object in [players], [seat] is [actor.seat],
    [contributed] is [streetBets[seat] || 0] and [toCall] is
    [max(0, currentBet - contributed)], all taken before the branch. *)

(** The hand ends on a fold that leaves one player in the hand. *)
Definition awardUncontested (e : Engine) : option Engine :=
  '(j, winner) ← list_find (λ p, inHand p = true) (players (state e));
  let amount := pot (state e) in
  let e := upd_player j (λ p, set_stack (stack p + amount) p) e in
  let e := upd_state (λ s,
    set_turnSeat (-1) (set_stage showdown (set_message
      (name winner ++ " wins (everyone folded) — may show or muck")
      (set_pot 0 s)))) e in
  let e := resetReveals e in
  let e := set_revealSeats (set_add (revealSeats e) (seat winner)) e in
  let e := upd_state (set_lastWinners
    [mkWinner (seat winner) (name winner) amount None (catName None)]) e in
  let e := log (LogWinUncontested (name winner) amount) e in
  Some (upd_state (set_pots (buildSidePots e)) e).

Definition foldAction (self : nat) (actor : Player) (e : Engine) : option Outcome :=
  let e := upd_player self (λ p,
             set_hasActedThisRound true (set_inHand false p)) e in
  let e := log (LogFold (name actor)) e in
  if (activeCount e =? 1)%nat then
    e ← awardUncontested e; Some (Returned true e)
  else Some (Applied e).

Definition checkAction (self : nat) (actor : Player) (toCall : Z) (e : Engine)
  : option Outcome :=
  if negb (toCall =? 0) then Some (Returned false e)
  else
    let e := upd_player self (set_hasActedThisRound true) e in
    Some (Applied (log (LogCheck (name actor)) e)).

Definition callAction (self : nat) (actor : Player) (toCall : Z) (e : Engine)
  : option Outcome :=
  if toCall <=? 0 then Some (Returned false e)
  else
    '(pay, e) ← commitChips (seat actor) toCall e;
    if pay <=? 0 then Some (Returned false e)
    else
      let e := upd_player self (set_hasActedThisRound true) e in
      Some (Applied (log (LogCall (name actor) pay) e)).

Definition betAction (self : nat) (actor : Player) (contributed : Z)
  (amount : option Q) (e : Engine) : option Outcome :=
  let seat := seat actor in
  if negb (currentBet (state e) =? 0) then Some (Returned false e)
  else
    let desired := Z.max (bigBlind (state e)) (Qfloor (default 0%Q amount)) in
    if desired <=? 0 then Some (Returned false e)
    else
      let need := Z.max 0 (desired - contributed) in
      '(pay, e) ← commitChips seat need e;
      if pay <=? 0 then Some (Returned false e)
      else
        let prev := currentBet (state e) in
        let e := upd_state (λ s,
          set_lastAggressorSeat (Some seat) (set_minRaise (bigBlind s)
            (set_currentBet (Z.max prev (num_at (streetBets e) seat)) s))) e in
        let e := reopenRound seat e in
        let e := upd_player self (set_hasActedThisRound true) e in
        Some (Applied (log (LogBet (name actor) (currentBet (state e))) e)).

Definition raiseAction (self : nat) (actor : Player) (contributed minRaise : Z)
  (amount : option Q) (e : Engine) : option Outcome :=
  let seat := seat actor in
  let raiseTo := Z.max (currentBet (state e) + minRaise)
                       (Qfloor (default 0%Q amount)) in
  if raiseTo <=? currentBet (state e) then Some (Returned false e)
  else
    let need := Z.max 0 (raiseTo - contributed) in
    '(pay, e) ← commitChips seat need e;
    if pay <=? 0 then Some (Returned false e)
    else
      let prev := currentBet (state e) in
      let e :=
        if prev <? num_at (streetBets e) seat then
          let e := upd_state (λ s,
            set_lastAggressorSeat (Some seat) (set_minRaise (bigBlind s)
              (set_currentBet (num_at (streetBets e) seat) s))) e in
          reopenRound seat e
        else e in
      let e := upd_player self (set_hasActedThisRound true) e in
      Some (Applied (log (LogRaise (name actor) (currentBet (state e))) e)).

(** [playerAction] up to the comment "Move turn / advance street". *)
Definition applyAction (id : string) (kind : ActionKind) (amount : option Q)
  (e : Engine) : option Outcome :=
  if negb (isBetting (stage (state e))) then Some (Returned false e)
  else
  match at_ (players (state e)) (turnSeat (state e)) with
  | None => Some (Returned false e)
  | Some actor =>
    if negb (String.eqb actor.(PokerEngine.id) id) || negb (inHand actor) || isAllIn actor
    then Some (Returned false e)
    else
    let self := Z.to_nat (turnSeat (state e)) in
    let contributed := num_at (streetBets e) (seat actor) in
    let toCall := Z.max 0 (currentBet (state e) - contributed) in
    let minRaise := bigBlind (state e) in
    match kind with
    | KFold => foldAction self actor e
    | KCheck => checkAction self actor toCall e
    | KCall => callAction self actor toCall e
    | KBet => betAction self actor contributed amount e
    | KRaise => raiseAction self actor contributed minRaise amount e
    end
  end.

(** The block "Move turn / advance street" of [playerAction]. *)
Definition closeRound (e : Engine) : option Engine :=
  if isBetting (stage (state e)) then
    if everyoneActedOrAllIn e then advanceStage e
    else
      t ← nextSeat (state e) (turnSeat (state e));
      Some (upd_state (set_turnSeat t) e)
  else Some e.

Definition playerAction (id : string) (kind : ActionKind) (amount : option Q)
  (e : Engine) : option (bool * Engine) :=
  r ← applyAction id kind amount e;
  match r with
  | Returned ok e => Some (ok, e)
  | Applied e => e ← closeRound e; Some (true, e)
  end.

(** *** Membership and the private view *)

(** [isOwner(id)]; the name [isOwner] is the field of [Player]. *)
Definition engineIsOwner (id : string) (e : Engine) : bool :=
  match findById id e with
  | Some (_, p) => isOwner p
  | None => false
  end.

Definition hasPlayer (id : string) (e : Engine) : bool :=
  match findById id e with
  | Some _ => true
  | None => false
  end.

Definition kick (id : string) (e : Engine) : Engine := removePlayer id e.

(** [getClientView]: the broadcast view in which, when the requestor holds
    cards, every player entry with the requestor's id also carries the key
    [hole] with those cards.  The second component gives, for each player
    entry in order, the value of that key, [None] where the entry has no
    such key. *)
Definition getClientView (requestorId : string) (e : Engine)
  : BroadcastView * list (option (list Card)) :=
  let pv := getBroadcastView e in
  let me := findById requestorId e in
  match me ≫= (λ ip, hole ip.2) with
  | Some h =>
      (pv, (λ p, if String.eqb (pv_id p) requestorId then Some h else None)
             <$> v_players pv)
  | None => (pv, (λ _, None) <$> v_players pv)
  end.

End PokerEngine.

(** ** index.ts

    The socket handlers, as functions of the room store.  Each handler is
    modelled by what it does to [rooms] and by the outcome it reports
    through its callback; the views it then sends to the sockets are those
    of [getClientView] and [getBroadcastView] and change nothing.  The room
    code drawn by [createRoom] and the [trim] of a string are parameters.
    A numeric field of a payload that is absent, or not a finite number, is
    [None].  The assignments [(room.engine as any).smallBlind = sb] and
    [... .bigBlind = bb] set properties of the engine object that no code
    reads (the blinds are fields of [state]); they are left out. *)

Module Server.
Import PokerEngine.

Record RoomSettings := mkSettings {
  currency : string;
  cfg_smallBlind : Q;
  cfg_bigBlind : Q;
  buyInMin : Q;
  buyInDefault : Q
}.

Record RoomData := mkRoomData { engine : Engine; settings : RoomSettings }.

(** [rooms], a [Map] from room code to room *)
Definition Rooms : Type := list (string * RoomData).

Definition getRoom (code : string) (rooms : Rooms) : option RoomData :=
  map_get rooms code.

Definition defaultSettings : RoomSettings := mkSettings "₪" 1 2 20 50.

Definition ensureRoom (code : string) (rooms : Rooms) : Rooms * RoomData :=
  match map_get rooms code with
  | Some room => (rooms, room)
  | None =>
      let room := mkRoomData (newEngine code) defaultSettings in
      (map_set rooms code room, room)
  end.

(** [Number.isFinite(x) && Number(x) > 0 ? Number(x) : d] *)
Definition positiveOr (x : option Q) (d : Q) : Q :=
  match x with
  | Some v => if Qle_bool v 0 then d else v
  | None => d
  end.

(** [Math.max] on two finite numbers *)
Definition qmax (a b : Q) : Q := if Qle_bool a b then b else a.

(** [payload.name || 'Player'] *)
Definition nameOr (name : string) : string :=
  if String.eqb name "" then "Player" else name.

Record CreatePayload := mkCreatePayload {
  cp_name : string;
  cp_stack : option Q;
  cp_smallBlind : option Q;
  cp_bigBlind : option Q;
  cp_buyInMin : option Q;
  cp_buyInDefault : option Q;
  cp_currency : option string
}.

(** what a handler reports through its callback *)
Inductive Outcome :=
| Done
| RoomNotFound
| BelowBuyInMin
| RoomFullOrNameInUse
| NotOwner.

Section Handlers.
Variable trim : string → string.

(** the settings [createRoom] derives from its payload *)
Definition createSettings (payload : CreatePayload) : RoomSettings :=
  let sb := positiveOr (cp_smallBlind payload) 1 in
  let bbRaw := positiveOr (cp_bigBlind payload) 2 in
  let bb := qmax bbRaw sb in
  let currency :=
    let c := trim (default "₪" (cp_currency payload)) in
    if String.eqb c "" then "₪" else c in
  let buyInMin := positiveOr (cp_buyInMin payload) 20 in
  let buyInDefaultRaw :=
    positiveOr (cp_buyInDefault payload) (positiveOr (cp_stack payload) 50) in
  let buyInDefault := qmax buyInDefaultRaw buyInMin in
  mkSettings currency sb bb buyInMin buyInDefault.

(** [socket.on('createRoom')], for the room code [code] and the socket
    [socketId] *)
Definition createRoom (code socketId : string) (payload : CreatePayload)
  (rooms : Rooms) : Rooms :=
  let '(rooms, room) := ensureRoom code rooms in
  let settings := createSettings payload in
  let e := setBlinds (cfg_smallBlind settings) (cfg_bigBlind settings) (engine room) in
  let startingStack := buyInDefault settings in
  let e := (addPlayer socketId (nameOr (cp_name payload)) startingStack true e).2 in
  map_set rooms code (mkRoomData e settings).

End Handlers.

(** [socket.on('joinRoom')] *)
Definition joinRoom (code socketId name : string) (stack : option Q)
  (rooms : Rooms) : Outcome * Rooms :=
  match getRoom code rooms with
  | None => (RoomNotFound, rooms)
  | Some room =>
      let settings := settings room in
      let desiredStack := positiveOr stack (buyInDefault settings) in
      if negb (Qle_bool (buyInMin settings) desiredStack) then (BelowBuyInMin, rooms)
      else
        let '(ok, e) := addPlayer socketId (nameOr name) desiredStack false (engine room) in
        if negb ok then (RoomFullOrNameInUse, map_set rooms code (mkRoomData e settings))
        else (Done, map_set rooms code (mkRoomData e settings))
  end.

(** [socket.on('leaveRoom')] *)
Definition leaveRoom (code socketId : string) (rooms : Rooms) : Rooms :=
  match getRoom code rooms with
  | None => rooms
  | Some room =>
      map_set rooms code (mkRoomData (removePlayer socketId (engine room)) (settings room))
  end.

(** [socket.on('startGame')]; [rnd] are the random draws of the shuffle *)
Definition startGame (code socketId : string) (rnd : list nat) (rooms : Rooms)
  : option (Outcome * Rooms) :=
  match getRoom code rooms with
  | None => Some (RoomNotFound, rooms)
  | Some room =>
      if negb (engineIsOwner socketId (engine room)) then Some (NotOwner, rooms)
      else
        let s := settings room in
        let e := setBlinds (cfg_smallBlind s) (cfg_bigBlind s) (engine room) in
        e ← startHand rnd e;
        Some (Done, map_set rooms code (mkRoomData e s))
  end.

(** [socket.on('kick')] *)
Definition kickPlayer (code socketId targetId : string) (rooms : Rooms) : Rooms :=
  match getRoom code rooms with
  | None => rooms
  | Some room =>
      if negb (engineIsOwner socketId (engine room)) then rooms
      else map_set rooms code (mkRoomData (kick targetId (engine room)) (settings room))
  end.

(** [socket.on('action')] *)
Definition action (code socketId : string) (kind : ActionKind) (amount : option Q)
  (rooms : Rooms) : option Rooms :=
  match getRoom code rooms with
  | None => Some rooms
  | Some room =>
      '(_, e) ← playerAction socketId kind amount (engine room);
      Some (map_set rooms code (mkRoomData e (settings room)))
  end.

(** [socket.on('showCards')] *)
Definition showCards (code socketId : string) (rooms : Rooms) : Rooms :=
  match getRoom code rooms with
  | None => rooms
  | Some room =>
      if negb (canReveal socketId (engine room)) then rooms
      else map_set rooms code
             (mkRoomData (doShow socketId (engine room)).2 (settings room))
  end.

(** [socket.on('muckCards')] *)
Definition muckCards (code socketId : string) (rooms : Rooms) : Rooms :=
  match getRoom code rooms with
  | None => rooms
  | Some room =>
      if negb (canReveal socketId (engine room)) then rooms
      else map_set rooms code
             (mkRoomData (doMuck socketId (engine room)).2 (settings room))
  end.

(** [socket.on('disconnect')] *)
Definition disconnect (socketId : string) (rooms : Rooms) : Rooms :=
  (λ cr : string * RoomData,
     if hasPlayer socketId (engine cr.2)
     then (cr.1, mkRoomData (removePlayer socketId (engine cr.2)) (settings cr.2))
     else cr) <$> rooms.

End Server.

Import HandEvaluator PokerEngine.

(** * Specification-level definitions *)

(** ** The side-pot layering, as the specification words it

    [Layering ps remain pots]: starting from the remaining contributions
    [remain], take the least positive one as the layer, post a pot of
    [layer] times the number of seats with a positive remainder, open to
    those of them that are still in the hand, take the layer off each of
    them, and go on until no seat has a positive remainder. *)

Definition positiveSeats (remain : list Z) : list nat :=
  List.filter (λ i, 0 <? num_at remain (Z.of_nat i)) (seq 0 (length remain)).

Definition isMinPositive (remain : list Z) (layer : Z) : Prop :=
  0 < layer ∧ layer ∈ remain ∧ ∀ v, v ∈ remain → 0 < v → layer ≤ v.

Definition takeLayer (layer : Z) (remain : list Z) : list Z :=
  (λ v, if 0 <? v then v - layer else v) <$> remain.

Definition stillIn (ps : list Player) (i : nat) : bool :=
  match ps !! i with Some p => inHand p | None => false end.

Inductive Layering (ps : list Player) : list Z → list SidePot → Prop :=
| Layering_stop remain :
    (∀ v, v ∈ remain → v ≤ 0) → Layering ps remain []
| Layering_layer remain layer pots :
    isMinPositive remain layer →
    Layering ps (takeLayer layer remain) pots →
    Layering ps remain
      (mkSidePot (layer * Z.of_nat (length (positiveSeats remain)))
                 (Z.of_nat <$> List.filter (stillIn ps) (positiveSeats remain))
       :: pots).

Definition sumZ (l : list Z) : Z := foldr Z.add 0 l.
Arguments sumZ : simpl never.

Definition posCount (remain : list Z) : nat :=
  length (List.filter (λ v, 0 <? v) remain).

Definition threeWay : Engine :=
  let p (i : Z) := mkPlayer "" "" 0 i None true false false false in
  mkEngine (mkRoom "" river [p 0; p 1; p 2] 0 1 2 0 2 90 [] 0 [] None "" [] [] [])
           [0; 0; 0] [10; 30; 50] [] [] [].

(** [wonBySeat.get(s) || 0] *)
Definition wonOf (won : list (Z * Z)) (s : Z) : Z := default 0 (map_get won s).

(** the remainder loop, while it has not gone round the table *)
Definition oddChip (sorted : list Z) (w : list (Z * Z)) (idx : nat) : list (Z * Z) :=
  match sorted !! (idx mod length sorted)%nat with
  | Some s => credit w s 1
  | None => w
  end.

(** ** Chip accounting *)

Definition stacks (e : Engine) : list Z := stack <$> players (state e).

(** chips on the table: the stacks and the pot *)
Definition chips (e : Engine) : Z := sumZ (stacks e) + pot (state e).

(** a side pot that some ranked contender is entitled to *)
Definition claimable (rankBySeat : list (Z * RankResult)) (p : SidePot) : bool :=
  existsb (map_has rankBySeat) (eligibleSeats p).

(** [stacksOnly e e']: nothing but the stacks of the players differs *)
Definition stacksOnly (e e' : Engine) : Prop :=
  ∃ ps, e' = upd_state (set_players ps) e
        ∧ set_stack 0 <$> ps = set_stack 0 <$> players (state e).

(** what a showdown pays out: the pot to a single contender, otherwise the
    side pots that a ranked contender is entitled to *)
Definition showdownPaid (e : Engine) : Z :=
  match contendersOf e with
  | [_] => pot (state e)
  | cs => sumZ (amount <$> List.filter
                  (claimable (rankContenders (community (state e)) cs))
                  (buildSidePots e))
  end.

(** ** Round closure, as the specification words it *)

(** a player that still has to act: in the hand and not all-in *)
Definition active (p : Player) : bool := inHand p && negb (isAllIn p).


Definition nextStage (s : Stage) : Stage :=
  match s with
  | preflop => flop
  | flop => turn
  | turn => river
  | river => showdown
  | s => s
  end.

(** the seat [j] places after [from], going round the table *)
Definition seatAfter (ps : list Player) (from : Z) (j : nat) : Z :=
  Z.rem (from + Z.of_nat j) (Z.of_nat (length ps)).

(** [t] is the first seat after [from], going round the table, whose player
    is in the hand and not all-in; the seats passed over are folded or
    all-in *)
Definition nextActive (ps : list Player) (from t : Z) : Prop :=
  ∃ i : nat, (1 ≤ i ≤ length ps)%nat
    ∧ t = seatAfter ps from i
    ∧ (∃ p, at_ ps t = Some p ∧ active p = true)
    ∧ ∀ j : nat, (1 ≤ j < i)%nat →
        ∃ q, at_ ps (seatAfter ps from j) = Some q ∧ active q = false.

(** the players once the actor at index [self] has folded *)
Definition afterFold (self : nat) (ps : list Player) : list Player :=
  alter (λ p, set_hasActedThisRound true (set_inHand false p)) self ps.

(** ** Sequences of engine operations *)

Inductive Op :=
| OpAddPlayer (id name : string) (stack : Q) (owner : bool)
| OpRemovePlayer (id : string)
| OpSetBlinds (sb bb : Q)
| OpStartHand (rnd : list nat)
| OpAction (id : string) (kind : ActionKind) (amount : option Q)
| OpShow (id : string)
| OpMuck (id : string).

Definition step (op : Op) (e : Engine) : option Engine :=
  match op with
  | OpAddPlayer id name stack owner => Some (addPlayer id name stack owner e).2
  | OpRemovePlayer id => Some (removePlayer id e)
  | OpSetBlinds sb bb => Some (setBlinds sb bb e)
  | OpStartHand rnd => startHand rnd e
  | OpAction id kind amount => snd <$> playerAction id kind amount e
  | OpShow id => Some (doShow id e).2
  | OpMuck id => Some (doMuck id e).2
  end.

Definition run (ops : list Op) (e : Engine) : option Engine :=
  foldl (λ oe op, oe ≫= step op) (Some e) ops.

(** the random draws that leave the deck in the order it is built *)
Definition noShuffle : list nat := rev (seq 1 51).

(** two players of 100 chips each, hand started, blinds 1 and 2 posted *)
Definition headsUpOps : list Op :=
  [OpAddPlayer "a" "Alice" 100 true; OpAddPlayer "b" "Bob" 100 false;
   OpStartHand noShuffle].

Definition headsUp : Engine :=
  default (newEngine "room") (run headsUpOps (newEngine "room")).

(** C3 as the specification states it: a raise whose requested total is
    below [currentBet + minRaise] is refused and changes nothing *)
Definition raise_below_minimum_refused : Prop :=
  ∀ id (amount : Q) e,
    Qfloor amount < currentBet (state e) + minRaise (state e) →
    playerAction id KRaise (Some amount) e = Some (false, e).

(** the total a raise is taken to, and what the raiser can pay towards it *)
Definition raiseTarget (amount : option Q) (e : Engine) : Z :=
  Z.max (currentBet (state e) + bigBlind (state e)) (Qfloor (default 0%Q amount)).

Definition raisePayment (amount : option Q) (e : Engine) (actor payer : Player) : Z :=
  Z.max 0 (Z.min (Z.max 0 (raiseTarget amount e - num_at (streetBets e) (seat actor)))
                 (stack payer)).

(** ** Chip conservation over sequences of operations *)

(** the chips an operation brings to the table: the stack given to the
    player by a successful [addPlayer] *)
Definition buyIn (op : Op) (e : Engine) : Z :=
  match op with
  | OpAddPlayer id name stack owner =>
      if (addPlayer id name stack owner e).1 then Z.max 1 (Qfloor stack) else 0
  | _ => 0
  end.

(** [runBought ops e b]: the state after [ops], with the chips bought in *)
Fixpoint runBought (ops : list Op) (e : Engine) (b : Z) : option (Engine * Z) :=
  match ops with
  | [] => Some (e, b)
  | op :: ops' => e' ← step op e; runBought ops' e' (b + buyIn op e)
  end.

(** C1 as the specification states it, the side pots being those of the
    table state *)
Definition chips_conserved_with_side_pots : Prop :=
  ∀ ops e b, runBought ops (newEngine "room") 0 = Some (e, b) →
    sumZ (stacks e) + pot (state e) + sumZ (amount <$> pots (state e)) = b.

(** a hand played to a full showdown: the small blind calls and both
    players check every street *)
Definition checkedDownOps : list Op :=
  headsUpOps ++
  [OpAction "a" KCall None; OpAction "b" KCheck None;
   OpAction "a" KCheck None; OpAction "b" KCheck None;
   OpAction "a" KCheck None; OpAction "b" KCheck None;
   OpAction "a" KCheck None; OpAction "b" KCheck None].

(** a hand in which the big blind, covering two short stacks that are
    all-in for one chip each, checks to the river and folds there *)
Definition strandedChipOps : list Op :=
  [OpAddPlayer "a" "Ann" 100 true; OpAddPlayer "b" "Bob" 1 false;
   OpAddPlayer "c" "Cid" 1 false; OpStartHand noShuffle;
   OpAction "b" KCall None; OpAction "a" KCheck None;
   OpAction "a" KCheck None; OpAction "a" KCheck None;
   OpAction "a" KFold None].

(** the ledger of the hand is in step with the pot *)
Definition ledgerOk (e : Engine) : Prop :=
  length (totalBets e) = length (players (state e))
  ∧ Forall (λ v, 0 ≤ v) (totalBets e)
  ∧ (isBetting (stage (state e)) = true → pot (state e) = sumZ (totalBets e)).

(** every side pot of the showdown of [s] can be claimed: a single
    contender takes everything, otherwise each side pot has a ranked,
    eligible seat *)
Definition allClaimed (s : Engine) : Prop :=
  length (contendersOf s) = 1%nat
  ∨ Forall (λ p, claimable (rankContenders (community (state s)) (contendersOf s)) p = true)
           (buildSidePots s).

(** the steps that neither take chips off the table nor strand them: nobody
    leaves, a hand starts over an empty pot, and a showdown finds a claimant
    for every side pot *)
Definition settled (op : Op) (e : Engine) : Prop :=
  match op with
  | OpRemovePlayer _ => False
  | OpStartHand _ => pot (state e) = 0
  | OpAction id kind amount =>
      ∀ m, applyAction id kind amount e = Some (Applied m) →
           stage (state m) = river → everyoneActedOrAllIn m = true →
           allClaimed (upd_state (set_stage showdown) (resetStreet m))
  | _ => True
  end.

Fixpoint settledRun (ops : list Op) (e : Engine) : Prop :=
  match ops with
  | [] => True
  | op :: ops' =>
      settled op e ∧ ∀ e', step op e = Some e' → settledRun ops' e'
  end.

(** ** What the broadcast view may depend on *)

(** [holeCount] of the view *)
Definition holeCount (p : Player) : nat :=
  match hole p with Some h => length h | None => 0%nat end.

(** two player records that differ at most in their hole cards, of which
    they hold the same number *)
Definition samePublicPlayer (p q : Player) : Prop :=
  set_hole None p = set_hole None q ∧ holeCount p = holeCount q.

(** two engine states that differ at most in the deck and in the hole cards
    of the players: same table fields, same ledgers, same public reveals,
    same reveal-eligible seats, same log *)
Definition samePublic (e1 e2 : Engine) : Prop :=
  set_deck [] (set_players [] (state e1)) = set_deck [] (set_players [] (state e2))
  ∧ Forall2 samePublicPlayer (players (state e1)) (players (state e2))
  ∧ streetBets e1 = streetBets e2
  ∧ totalBets e1 = totalBets e2
  ∧ publicReveals e1 = publicReveals e2
  ∧ revealSeats e1 = revealSeats e2
  ∧ actionLog e1 = actionLog e2.

(** ** The evaluator, as the specification words it *)

(** the number of cards of rank [r] *)
Definition countRank (r : Z) (cards : list Card) : Z :=
  Z.of_nat (length (filter (λ c, rank c = r) cards)).

(** the cards of suit [s], in input order *)
Definition ofSuit (s : Suit) (cards : list Card) : list Card :=
  filter (λ c, suit c = s) cards.


(** the thirteen ranks of a deck, descending *)
Definition allRanks : list Z := [14; 13; 12; 11; 10; 9; 8; 7; 6; 5; 4; 3; 2].

(** [Ranks: 2..14 (14 = Ace)] *)
Definition validRank (r : Z) : Prop := 2 ≤ r ≤ 14.

(** Straight detection as the specification words it, on a set of ranks
    given by its membership test [mem]: an Ace also counts as rank 1, and
    the result is the highest [h] for which [h, h-1, h-2, h-3, h-4] are all
    present, if there is one. *)
Definition present (mem : Z → bool) (r : Z) : bool :=
  mem r || ((r =? 1) && mem 14).

Definition runBelow (mem : Z → bool) (h : Z) : bool :=
  forallb (λ k, present mem (h - k)) [0; 1; 2; 3; 4].

Definition straightHighOf (mem : Z → bool) : option Z :=
  List.find (runBelow mem) [14; 13; 12; 11; 10; 9; 8; 7; 6; 5].

Definition straightHigh (ranks : list Z) : option Z :=
  straightHighOf (λ r, bool_decide (r ∈ ranks)).

(** all the sublists of a list *)
Fixpoint sublists {A} (l : list A) : list (list A) :=
  match l with
  | [] => [[]]
  | x :: l' => (cons x <$> sublists l') ++ sublists l'
  end.

(** the wheel of the specification's example, A♣ 2♦ 3♥ 4♠ 5♣, with two
    more cards of ranks [rx] and [ry] that complete no flush *)
Definition wheelPlus (rx ry : Z) : list Card :=
  [mkCard 14 Clubs; mkCard 2 Diamonds; mkCard 3 Hearts; mkCard 4 Spades;
   mkCard 5 Clubs; mkCard rx Diamonds; mkCard ry Hearts].

(** The wheel claim as the specification states it: seven cards holding
    A, 2, 3, 4, 5, no flush, no category above a straight. *)
Definition wheel_always_five_high : Prop :=
  ∀ cards : list Card,
    length cards = 7%nat →
    Forall (λ c, validRank (rank c)) cards →
    (∀ r, r ∈ [14; 2; 3; 4; 5] → r ∈ rank <$> cards) →
    (∀ s, (length (ofSuit s cards) < 5)%nat) →
    category (rank7 cards) ≤ 4 →
    rank7 cards = mkRank 4 [Some 5].

(** the heads-up table of [headsUp], dealt from another shuffle *)
Definition headsUpReshuffled : Engine :=
  default (newEngine "room")
    (run [OpAddPlayer "a" "Alice" 100 true; OpAddPlayer "b" "Bob" 100 false;
          OpStartHand (replicate 51 0%nat)] (newEngine "room")).

(** ** Comparing hands *)

(** the tie-break value at index [i], [0] where there is none *)
Definition tieAt (t : list (option Z)) (i : nat) : Z := default 0 (mjoin (t !! i)).

(** three hands over the board 2♣ 7♦ 9♥ J♠ K♣: a pair of kings, a pair of
    nines, and king high *)
Definition boardCards : list Card :=
  [mkCard 2 Clubs; mkCard 7 Diamonds; mkCard 9 Hearts; mkCard 11 Spades;
   mkCard 13 Clubs].
Definition handKings : list Card := boardCards ++ [mkCard 13 Hearts; mkCard 4 Diamonds].
Definition handNines : list Card := boardCards ++ [mkCard 9 Spades; mkCard 4 Hearts].
Definition handHigh : list Card := boardCards ++ [mkCard 5 Spades; mkCard 4 Clubs].

(** ** Cards in play *)

(** the hole cards held at the table, seat by seat *)
Definition holeCards (ps : list Player) : list Card :=
  ps ≫= (λ p, default [] (hole p)).

(** what a player record is apart from the hole cards *)
Definition withoutHole (p : Player) : Player := set_hole None p.

(** ** What an operation leaves alone *)

(** who a player is and what cards the player holds *)
Definition ident (p : Player) : string * string * Z * bool * option (list Card) :=
  (id p, name p, seat p, isOwner p, hole p).

(** the two ledgers have one entry for each player *)
Definition ledgerLen (e : Engine) : Prop :=
  length (streetBets e) = length (players (state e))
  ∧ length (totalBets e) = length (players (state e)).

(** no stack and no pot is negative *)
Definition solvent (e : Engine) : Prop :=
  Forall (λ p, 0 ≤ stack p) (players (state e)) ∧ 0 ≤ pot (state e).

Definition logBounded (e : Engine) : Prop :=
  (length (actionLog e) ≤ LOG_LIMIT)%nat.

(** the minimum raise is the big blind *)
Definition raiseIsBlind (e : Engine) : Prop :=
  minRaise (state e) = bigBlind (state e).

(** [calm e e']: going from [e] to [e'] no player joined, left, changed
    seat or cards, the blinds, the button, the deck and the board stayed,
    the stage stayed or became [showdown], and the table stayed in order *)
Record calm (e e' : Engine) : Prop := mkCalm {
  calm_ident : ident <$> players (state e') = ident <$> players (state e);
  calm_code : code (state e') = code (state e);
  calm_smallBlind : smallBlind (state e') = smallBlind (state e);
  calm_bigBlind : bigBlind (state e') = bigBlind (state e);
  calm_dealerSeat : dealerSeat (state e') = dealerSeat (state e);
  calm_deck : deck (state e') = deck (state e);
  calm_community : community (state e') = community (state e);
  calm_stage : stage (state e') = stage (state e) ∨ stage (state e') = showdown;
  calm_raise : raiseIsBlind e → raiseIsBlind e';
  calm_log : logBounded e → logBounded e';
  calm_ledger : ledgerLen e → ledgerLen e';
  calm_solvent : solvent e → solvent e'
}.

(** a change of the table state that [calm] allows *)
Record tame (f : RoomState → RoomState) : Prop := mkTame {
  tame_players : ∀ s, players (f s) = players s;
  tame_code : ∀ s, code (f s) = code s;
  tame_smallBlind : ∀ s, smallBlind (f s) = smallBlind s;
  tame_bigBlind : ∀ s, bigBlind (f s) = bigBlind s;
  tame_dealerSeat : ∀ s, dealerSeat (f s) = dealerSeat s;
  tame_deck : ∀ s, deck (f s) = deck s;
  tame_community : ∀ s, community (f s) = community s;
  tame_stage : ∀ s, stage (f s) = stage s ∨ stage (f s) = showdown;
  tame_raise : ∀ s, minRaise s = bigBlind s → minRaise (f s) = bigBlind (f s);
  tame_pot : ∀ s, 0 ≤ pot s → 0 ≤ pot (f s)
}.

(** the table once the street has been reset, the cards [cs] have gone from
    the deck, leaving [d], onto the board, and the stage has moved on *)
Definition dealBoard (d cs : list Card) (e : Engine) : Engine :=
  upd_state (λ s, set_stage (nextStage (stage s))
                    (set_community (community s ++ cs) (set_deck d s)))
            (resetStreet e).

(** who a player is and what the player has *)
Definition core (p : Player) : string * string * Z * bool * Z :=
  (id p, name p, seat p, isOwner p, stack p).

(** the number of cards a street puts on the board *)
Definition streetCards (s : Stage) : nat :=
  match s with preflop => 3 | flop | turn => 1 | _ => 0 end.

(** ** The table in order *)

(** the board has the number of cards of the street *)
Definition boardOk (e : Engine) : Prop :=
  match stage (state e) with
  | preflop => community (state e) = []
  | flop => length (community (state e)) = 3%nat
  | turn => length (community (state e)) = 4%nat
  | river => length (community (state e)) = 5%nat
  | _ => True
  end.

(** what holds of a table however it was played *)
Record tableOk (e : Engine) : Prop := mkTableOk {
  ok_seats : seat <$> players (state e)
             = Z.of_nat <$> seq 0 (length (players (state e)));
  ok_names : NoDup (name <$> players (state e));
  ok_size : (length (players (state e)) ≤ MAX_PLAYERS)%nat;
  ok_blinds : 1 ≤ smallBlind (state e) ≤ bigBlind (state e);
  ok_raise : raiseIsBlind e;
  ok_dealer : 0 ≤ dealerSeat (state e);
  ok_log : logBounded e;
  ok_ledger : ledgerLen e;
  ok_solvent : solvent e;
  ok_cards : NoDup (deck (state e) ++ community (state e)
                    ++ holeCards (players (state e)));
  ok_board : boardOk e
}.

(** the players as [startHand] resets them before the deal *)
Definition seatedForHand (p : Player) : Player :=
  set_hole None (set_hasActedThisRound false (set_isAllIn false
    (set_inHand (0 <? stack p) p))).

(** a hand has been dealt to the players [ps0]: who has chips holds two
    cards, who has none holds no card *)
Definition dealtTo (ps0 ps : list Player) : Prop :=
  Forall2 (λ p p', if 0 <? stack p then ∃ c1 c2, hole p' = Some [c1; c2]
                   else hole p' = None) ps0 ps.

(** the heads-up hand after Alice has folded to the big blind: Bob has won
    uncontested and may show or muck *)
Definition foldedToBob : Engine :=
  default headsUp (snd <$> playerAction "a" KFold None headsUp).

(** the cards of the requestor, as [getClientView] reads them *)
Definition ownHole (requestorId : string) (e : Engine) : option (list Card) :=
  findById requestorId e ≫= (λ ip, hole ip.2).

(** a three-way hand in which seat 0 has folded after putting in 10 *)
Definition threeWayFolded : Engine :=
  upd_player 0 (set_inHand false) threeWay.

(** two rooms, each with its owner seated *)
Definition ownersOnly : Server.Rooms :=
  let r0 := Server.createRoom (λ s, s) "AAAAA" "s1"
              (Server.mkCreatePayload "Ann" None None None None None None) [] in
  Server.createRoom (λ s, s) "BBBBB" "s2"
    (Server.mkCreatePayload "Bob" None (Some (5 # 2)) (Some 1%Q)
       (Some (41 # 2)) (Some 10%Q) (Some "$")) r0.

(** the same rooms after a guest has joined the second *)
Definition twoRooms : Server.Rooms :=
  (Server.joinRoom "BBBBB" "s3" "Cid" (Some (207 # 10)) ownersOnly).2.

(** ** The deck lasts to the river *)




(** * Properties *)

Lemma at_nat {A} (l : list A) (i : nat) : at_ l (Z.of_nat i) = l !! i.
Proof. unfold at_. destruct (Z.ltb_spec (Z.of_nat i) 0); [lia|]. by rewrite Nat2Z.id. Qed.

Lemma num_at_nat (l : list Z) (i : nat) : num_at l (Z.of_nat i) = default 0 (l !! i).
Proof. unfold num_at. by rewrite at_nat. Qed.

Lemma arr_set_in (l : list Z) (i : nat) v :
  (i < length l)%nat → arr_set l (Z.of_nat i) v = <[i := v]> l.
Proof.
  intros Hi. unfold arr_set. rewrite Nat2Z.id.
  destruct (Nat.ltb_spec i (length l)); [done | lia].
Qed.

Lemma elem_of_positiveSeats remain i :
  i ∈ positiveSeats remain ↔ ∃ v, remain !! i = Some v ∧ 0 < v.
Proof.
  unfold positiveSeats. rewrite list_elem_of_In, List.filter_In, <- list_elem_of_In, elem_of_seq.
  rewrite num_at_nat. split.
  - intros [[_ Hi] Hp]. simpl in Hi. destruct (lookup_lt_is_Some_2 remain i Hi) as [v Hv].
    rewrite Hv in Hp. simpl in Hp. exists v. split; [done | lia].
  - intros (v & Hv & Hp). split.
    + split; [lia|]. simpl. by eapply lookup_lt_Some.
    + rewrite Hv. simpl. lia.
Qed.

Lemma NoDup_positiveSeats remain : NoDup (positiveSeats remain).
Proof.
  unfold positiveSeats. apply NoDup_ListNoDup, List.NoDup_filter, NoDup_ListNoDup, NoDup_seq.
Qed.

Lemma foldr_min_acc (a v : Z) (ws : list Z) :
  foldr Z.min (Z.min a v) ws = Z.min v (foldr Z.min a ws).
Proof. induction ws as [|x xs IH]; simpl; lia. Qed.

Lemma foldr_min_in (a : Z) (vs : list Z) : foldr Z.min a vs ∈ a :: vs.
Proof.
  induction vs as [|x xs IH]; simpl; [by left|].
  destruct (Z.min_spec x (foldr Z.min a xs)) as [[_ ->]|[_ ->]].
  - right; left.
  - apply elem_of_cons in IH as [->|IH]; [left | do 2 right]; done.
Qed.

Lemma foldr_min_le (a : Z) (vs : list Z) v :
  v ∈ a :: vs → foldr Z.min a vs ≤ v.
Proof.
  induction vs as [|x xs IH]; simpl.
  - intros ->%list_elem_of_singleton. lia.
  - intros Hv. apply elem_of_cons in Hv as [->|Hv].
    + etrans; [apply Z.le_min_r | apply IH; left].
    + apply elem_of_cons in Hv as [->|Hv]; [apply Z.le_min_l|].
      etrans; [apply Z.le_min_r | apply IH; by right].
Qed.

(** the [layer] loop computes the least of the values it visits *)
Lemma layer_fold (vals : list Z) (acc : option Z) :
  foldl (λ (layer : option Z) r,
           Some (match layer with None => r | Some l => Z.min l r end)) acc vals
  = match vals, acc with
    | [], _ => acc
    | v :: vs, None => Some (foldr Z.min v vs)
    | _, Some a => Some (foldr Z.min a vals)
    end.
Proof.
  revert acc. induction vals as [|v vs IH]; intros acc; [by destruct acc|].
  simpl. rewrite IH. destruct acc as [a|], vs as [|w ws]; simpl; f_equal; try lia.
  rewrite foldr_min_acc. lia.
Qed.

(** the subtraction loop takes [layer] off exactly the visited seats *)
Lemma subtract_fold (layer : Z) (seats : list nat) (rem : list Z) :
  NoDup seats → (∀ i, i ∈ seats → (i < length rem)%nat) →
  foldl (λ rem i, arr_set rem (Z.of_nat i) (num_at rem (Z.of_nat i) - layer))
        rem seats
  = imap (λ j v, if bool_decide (j ∈ seats) then v - layer else v) rem.
Proof.
  revert rem. induction seats as [|i seats IH]; intros rem Hnd Hlt.
  - simpl. apply list_eq. intros j. rewrite list_lookup_imap.
    by destruct (rem !! j).
  - apply NoDup_cons in Hnd as [Hni Hnd]. simpl.
    assert (i < length rem)%nat as Hi by (apply Hlt; set_solver).
    rewrite arr_set_in, num_at_nat by done.
    rewrite IH; [|done|].
    2:{ intros j Hj. rewrite length_insert. apply Hlt. set_solver. }
    apply list_eq. intros j. rewrite !list_lookup_imap.
    destruct (decide (j = i)) as [->|Hne].
    + rewrite list_lookup_insert_eq by done.
      destruct (lookup_lt_is_Some_2 rem i Hi) as [v Hv]. rewrite Hv. simpl.
      rewrite bool_decide_eq_false_2 by done.
      rewrite bool_decide_eq_true_2 by set_solver. done.
    + rewrite list_lookup_insert_ne by done.
      destruct (rem !! j) as [v|]; [simpl|done].
      f_equal.
      destruct (decide (j ∈ seats)).
      * rewrite (bool_decide_eq_true_2 (j ∈ seats)) by done.
        rewrite (bool_decide_eq_true_2 (j ∈ i :: seats)) by (by right). done.
      * rewrite (bool_decide_eq_false_2 (j ∈ seats)) by done.
        rewrite (bool_decide_eq_false_2 (j ∈ i :: seats)); [done|].
        by intros [?|?]%elem_of_cons.
Qed.

Lemma subtract_positiveSeats (layer : Z) (remain : list Z) :
  foldl (λ rem i, arr_set rem (Z.of_nat i) (num_at rem (Z.of_nat i) - layer))
        remain (positiveSeats remain)
  = takeLayer layer remain.
Proof.
  rewrite subtract_fold.
  - unfold takeLayer. apply list_eq. intros j.
    rewrite list_lookup_imap, list_lookup_fmap.
    destruct (remain !! j) as [v|] eqn:Hv; [simpl|done]. f_equal.
    destruct (Z.ltb_spec 0 v).
    + rewrite bool_decide_eq_true_2; [done|]. apply elem_of_positiveSeats. eauto.
    + rewrite bool_decide_eq_false_2; [done|].
      intros (w & Hw & ?)%elem_of_positiveSeats. simplify_eq. lia.
  - apply NoDup_positiveSeats.
  - intros i (v & Hv & _)%elem_of_positiveSeats. by eapply lookup_lt_Some.
Qed.

Lemma existsb_positive remain :
  existsb (λ v, 0 <? v) remain = true ↔ ∃ v, v ∈ remain ∧ 0 < v.
Proof.
  rewrite List.existsb_exists. setoid_rewrite <- list_elem_of_In.
  setoid_rewrite Z.ltb_lt. done.
Qed.

Lemma posCount_zero remain :
  posCount remain = 0%nat → existsb (λ v, 0 <? v) remain = false.
Proof.
  unfold posCount. induction remain as [|v vs IH]; simpl; [done|].
  destruct (0 <? v); simpl; [done | exact IH].
Qed.

Lemma posCount_le_length remain : (posCount remain ≤ length remain)%nat.
Proof. apply List.filter_length_le. Qed.

Lemma posCount_cons v remain :
  posCount (v :: remain) = ((if (0 <? v)%Z then 1 else 0) + posCount remain)%nat.
Proof. unfold posCount. simpl. by destruct (0 <? v). Qed.

Lemma takeLayer_cons layer v remain :
  takeLayer layer (v :: remain)
  = (if 0 <? v then v - layer else v) :: takeLayer layer remain.
Proof. done. Qed.

Lemma posCount_takeLayer_le layer remain :
  0 < layer → (posCount (takeLayer layer remain) ≤ posCount remain)%nat.
Proof.
  intros Hl. induction remain as [|v vs IH]; [done|].
  rewrite takeLayer_cons, !posCount_cons.
  destruct (Z.ltb_spec 0 v).
  - destruct (0 <? v - layer); lia.
  - destruct (Z.ltb_spec 0 v); lia.
Qed.

Lemma posCount_takeLayer_lt layer remain :
  0 < layer → layer ∈ remain →
  (posCount (takeLayer layer remain) < posCount remain)%nat.
Proof.
  intros Hl Hin. induction remain as [|v vs IH]; [by apply elem_of_nil in Hin|].
  rewrite takeLayer_cons, !posCount_cons.
  apply elem_of_cons in Hin as [<-|Hin].
  - pose proof (posCount_takeLayer_le layer vs Hl) as Hle.
    destruct (Z.ltb_spec 0 layer); [|lia].
    rewrite Z.sub_diag. simpl. lia.
  - specialize (IH Hin).
    destruct (Z.ltb_spec 0 v).
    + destruct (0 <? v - layer); lia.
    + destruct (Z.ltb_spec 0 v); lia.
Qed.

Lemma sidePotLayer_spec ps remain :
  length remain = length ps → (∃ v, v ∈ remain ∧ 0 < v) →
  ∃ layer, isMinPositive remain layer ∧
    sidePotLayer ps remain =
      Some ([mkSidePot (layer * Z.of_nat (length (positiveSeats remain)))
                       (Z.of_nat <$> List.filter (stillIn ps) (positiveSeats remain))],
            takeLayer layer remain).
Proof.
  intros Hlen (v0 & Hv0 & Hpos0).
  unfold sidePotLayer. rewrite <- Hlen. fold (positiveSeats remain).
  apply list_elem_of_lookup in Hv0 as [i0 Hi0].
  assert (i0 ∈ positiveSeats remain) as Hi0in by (apply elem_of_positiveSeats; eauto).
  destruct (positiveSeats remain) as [|c cs] eqn:Hcs; [by apply elem_of_nil in Hi0in|].
  rewrite <- Hcs.
  cbv zeta.
  rewrite <- (foldl_fmap (λ (layer : option Z) r,
     Some (match layer with None => r | Some l => Z.min l r end))
     None (positiveSeats remain) (λ i, num_at remain (Z.of_nat i))).
  rewrite layer_fold.
  destruct ((λ i, num_at remain (Z.of_nat i)) <$> positiveSeats remain)
    as [|w ws] eqn:Hvals; [by rewrite Hcs in Hvals|].
  set (m := foldr Z.min w ws).
  assert (m ∈ (λ i, num_at remain (Z.of_nat i)) <$> positiveSeats remain) as Hmin.
  { rewrite Hvals. apply foldr_min_in. }
  assert (∀ v, v ∈ (λ i, num_at remain (Z.of_nat i)) <$> positiveSeats remain → m ≤ v) as Hmle.
  { rewrite Hvals. apply foldr_min_le. }
  apply list_elem_of_fmap in Hmin as (im & Hm & (vm & Hvm & Hvpos)%elem_of_positiveSeats).
  rewrite num_at_nat, Hvm in Hm. simpl in Hm. subst vm.
  assert (isMinPositive remain m) as Hmp.
  { split; [done|]. split; [by eapply list_elem_of_lookup_2|].
    intros v [i Hi]%list_elem_of_lookup Hv. apply Hmle.
    apply list_elem_of_fmap. exists i. split.
    - rewrite num_at_nat, Hi. done.
    - apply elem_of_positiveSeats. eauto. }
  exists m. split; [done|].
  destruct (Z.leb_spec m 0); [lia|].
  rewrite subtract_positiveSeats.
  assert (0 < m * Z.of_nat (length (positiveSeats remain))) as Hamt.
  { rewrite Hcs. simpl length. lia. }
  destruct (Z.ltb_spec 0 (m * Z.of_nat (length (positiveSeats remain)))); [|lia].
  rewrite Hcs. done.
Qed.

Lemma sidePotLoop_Layering ps fuel remain pots0 :
  length remain = length ps → (posCount remain ≤ fuel)%nat →
  ∃ pots, sidePotLoop fuel ps remain pots0 = pots0 ++ pots ∧ Layering ps remain pots.
Proof.
  revert remain pots0. induction fuel as [|fuel IH]; intros remain pots0 Hlen Hfuel.
  - exists []. split; [by rewrite app_nil_r|].
    apply Layering_stop. intros v Hv.
    destruct (Z.le_gt_cases v 0) as [|Hpos]; [done|].
    assert (existsb (λ v, 0 <? v) remain = true) as Hex
      by (apply existsb_positive; exists v; split; [done|lia]).
    rewrite posCount_zero in Hex by lia. done.
  - simpl. destruct (existsb (λ v, 0 <? v) remain) eqn:Hex.
    + apply existsb_positive in Hex.
      destruct (sidePotLayer_spec ps remain Hlen Hex) as (layer & Hmp & ->).
      destruct (IH (takeLayer layer remain)
                   (pots0 ++ [mkSidePot (layer * Z.of_nat (length (positiveSeats remain)))
                       (Z.of_nat <$> List.filter (stillIn ps) (positiveSeats remain))]))
        as (pots & Heq & Hlay).
      * unfold takeLayer. by rewrite length_fmap.
      * destruct Hmp as (Hl & Hin & _).
        pose proof (posCount_takeLayer_lt layer remain Hl Hin). lia.
      * eexists. split; [rewrite Heq, <- app_assoc; done|].
        by apply Layering_layer.
    + exists []. split; [by rewrite app_nil_r|].
      apply Layering_stop. intros v Hv.
      destruct (Z.le_gt_cases v 0) as [|Hpos]; [done|].
      assert (existsb (λ v, 0 <? v) remain = true) as Hex'
        by (apply existsb_positive; exists v; split; [done|lia]).
      congruence.
Qed.

(** [buildSidePots] carries out the layering of the cumulative ledger *)
Lemma buildSidePots_Layering e :
  length (totalBets e) = length (players (state e)) →
  Layering (players (state e)) (Z.max 0 <$> totalBets e) (buildSidePots e).
Proof.
  intros Hlen. unfold buildSidePots.
  destruct (Nat.eqb_spec (length (players (state e))) 0) as [H0|_].
  - rewrite H0 in Hlen. apply nil_length_inv in Hlen. rewrite Hlen.
    apply Layering_stop. by intros v ?%elem_of_nil.
  - destruct (sidePotLoop_Layering (players (state e)) (length (players (state e)))
                (Z.max 0 <$> totalBets e) []) as (pots & -> & Hlay).
    + by rewrite length_fmap.
    + etrans; [apply posCount_le_length|]. rewrite length_fmap. lia.
    + done.
Qed.

(** running the loop longer changes nothing *)
Lemma sidePotLoop_fuel ps fuel extra remain pots0 :
  length remain = length ps → (posCount remain ≤ fuel)%nat →
  sidePotLoop (fuel + extra) ps remain pots0 = sidePotLoop fuel ps remain pots0.
Proof.
  revert remain pots0. induction fuel as [|fuel IH]; intros remain pots0 Hlen Hfuel.
  - simpl. destruct extra; [done|]. simpl. rewrite posCount_zero by lia. done.
  - simpl. destruct (existsb (λ v, 0 <? v) remain) eqn:Hex; [|done].
    apply existsb_positive in Hex.
    destruct (sidePotLayer_spec ps remain Hlen Hex) as (layer & (Hl & Hin & _) & ->).
    apply IH.
    + unfold takeLayer. by rewrite length_fmap.
    + pose proof (posCount_takeLayer_lt layer remain Hl Hin). lia.
Qed.

(** the amounts of the layers add up to the positive contributions *)
Lemma posCount_positiveSeats remain : length (positiveSeats remain) = posCount remain.
Proof.
  unfold positiveSeats, posCount.
  assert (∀ (l pre : list Z),
    length (List.filter (λ i, 0 <? num_at (pre ++ l) (Z.of_nat i))
                        (seq (length pre) (length l)))
    = length (List.filter (λ v, 0 <? v) l)) as H.
  { induction l as [|v vs IH]; intros pre; [done|]. simpl.
    rewrite num_at_nat, lookup_app_r by lia.
    rewrite Nat.sub_diag. simpl.
    specialize (IH (pre ++ [v])). rewrite <- app_assoc, length_app in IH. simpl in IH.
    rewrite Nat.add_1_r in IH.
    destruct (0 <? v); simpl; by rewrite IH. }
  apply (H remain []).
Qed.

Lemma sumZ_cons x l : sumZ (x :: l) = x + sumZ l.
Proof. done. Qed.

Lemma sumZ_app l k : sumZ (l ++ k) = sumZ l + sumZ k.
Proof.
  induction l as [|x l IH]; [reflexivity|].
  rewrite <- app_comm_cons, !sumZ_cons, IH. lia.
Qed.

Lemma sumZ_takeLayer layer remain :
  sumZ (Z.max 0 <$> takeLayer layer remain)
  = sumZ (Z.max 0 <$> remain) - layer * Z.of_nat (posCount remain)
    + sumZ ((λ v, if (0 <? v) && (v <? layer) then layer - v else 0) <$> remain).
Proof.
  induction remain as [|v vs IH]; [unfold posCount, sumZ; simpl; lia|].
  rewrite takeLayer_cons, posCount_cons, !fmap_cons, !sumZ_cons, IH.
  set (P := posCount vs) in *.
  set (A := sumZ (Z.max 0 <$> vs)) in *.
  set (B := sumZ (_ <$> vs)) in *. clearbody P A B. clear IH.
  destruct (Z.ltb_spec 0 v), (Z.ltb_spec v layer); simpl;
    rewrite ?Nat2Z.inj_succ; lia.
Qed.

Lemma Layering_sum ps remain pots :
  Layering ps remain pots →
  sumZ (amount <$> pots) = sumZ (Z.max 0 <$> remain).
Proof.
  induction 1 as [remain Hnp | remain layer pots (Hl & Hin & Hmin) Hlay IH].
  - induction remain as [|v vs IHv]; [done|].
    rewrite fmap_cons, sumZ_cons, <- IHv by (intros; apply Hnp; by right).
    specialize (Hnp v (list_elem_of_here _ _)). simpl. lia.
  - rewrite fmap_cons, sumZ_cons, IH. simpl amount.
    rewrite sumZ_takeLayer, posCount_positiveSeats.
    assert (sumZ ((λ v, if (0 <? v) && (v <? layer) then layer - v else 0) <$> remain) = 0) as ->.
    { clear -Hmin. induction remain as [|v vs IHv]; [done|].
      rewrite fmap_cons, sumZ_cons, IHv by (intros; apply Hmin; [by right|done]).
      destruct (Z.ltb_spec 0 v), (Z.ltb_spec v layer); simpl; try lia.
      specialize (Hmin v (list_elem_of_here _ _)). lia. }
    lia.
Qed.

(** C2. [buildSidePots] layers the cumulative ledger [totalBets]: it takes
    the least positive remaining contribution as the layer, posts a pot of
    layer times the number of seats with a positive remainder, open to those
    of them still in the hand, takes the layer off each and stops when no
    remainder is positive.  For [totalBets = [10; 30; 50]] with the three
    seats in the hand the pots are 30 for seats 0, 1, 2, then 40 for seats
    1, 2, then 20 for seat 2. *)
Theorem buildSidePots_layers (e : Engine) :
  length (totalBets e) = length (players (state e)) →
  Layering (players (state e)) (Z.max 0 <$> totalBets e) (buildSidePots e)
  ∧ (totalBets e = [10; 30; 50] →
     Forall (λ p, inHand p = true) (players (state e)) →
     buildSidePots e
     = [mkSidePot 30 [0; 1; 2]; mkSidePot 40 [1; 2]; mkSidePot 20 [2]]).
Proof.
  intros Hlen. split; [by apply buildSidePots_Layering|].
  intros Htb Hin. rewrite Htb in Hlen. unfold buildSidePots. rewrite Htb.
  destruct (players (state e)) as [|p0 [|p1 [|p2 [|? ?]]]]; try discriminate Hlen.
  apply Forall_cons in Hin as [H0 Hin]. apply Forall_cons in Hin as [H1 Hin].
  apply Forall_cons in Hin as [H2 _].
  destruct p0, p1, p2. simpl in H0, H1, H2. subst. reflexivity.
Qed.

Lemma buildSidePots_layers_witness :
  buildSidePots threeWay
  = [mkSidePot 30 [0; 1; 2]; mkSidePot 40 [1; 2]; mkSidePot 20 [2]].
Proof.
  apply (buildSidePots_layers threeWay); [reflexivity | reflexivity |].
  repeat constructor.
Defined.

(** ** Facts about the JavaScript containers *)

Section SortFacts.
Context {A : Type} (cmp : A → A → Z).

Lemma js_insert_Permutation x l : js_insert cmp x l ≡ₚ x :: l.
Proof.
  induction l as [|y l IH]; simpl; [done|].
  destruct (cmp x y <=? 0); [done|].
  rewrite IH. apply Permutation_swap.
Qed.

Lemma js_sort_Permutation l : js_sort cmp l ≡ₚ l.
Proof.
  induction l as [|x l IH]; simpl; [done|].
  rewrite js_insert_Permutation. by f_equiv.
Qed.

Lemma js_sort_length l : length (js_sort cmp l) = length l.
Proof. apply Permutation_length, js_sort_Permutation. Qed.

(** For a comparator that is a total order, the result of the sort is
    determined by the elements alone. *)
Hypothesis cmp_total : ∀ x y, cmp x y ≤ 0 ∨ cmp y x ≤ 0.
Hypothesis cmp_antisym : ∀ x y, cmp x y ≤ 0 → cmp y x ≤ 0 → x = y.
Hypothesis cmp_trans : ∀ x y z, cmp x y ≤ 0 → cmp y z ≤ 0 → cmp x z ≤ 0.

Lemma js_insert_comm x y l :
  js_insert cmp x (js_insert cmp y l) = js_insert cmp y (js_insert cmp x l).
Proof.
  induction l as [|z l IH]; simpl.
  - destruct (Z.leb_spec (cmp x y) 0), (Z.leb_spec (cmp y x) 0); try done.
    + by rewrite (cmp_antisym x y).
    + destruct (cmp_total x y); lia.
  - destruct (Z.leb_spec (cmp y z) 0) as [Hyz|Hyz],
             (Z.leb_spec (cmp x z) 0) as [Hxz|Hxz]; simpl.
    + destruct (Z.leb_spec (cmp x y) 0) as [Hxy|Hxy],
               (Z.leb_spec (cmp y x) 0) as [Hyx|Hyx].
      * by rewrite (cmp_antisym x y).
      * destruct (Z.leb_spec (cmp y z) 0); [done|lia].
      * destruct (Z.leb_spec (cmp x z) 0); [done|lia].
      * destruct (cmp_total x y); lia.
    + destruct (Z.leb_spec (cmp x y) 0) as [Hxy|Hxy].
      * pose proof (cmp_trans x y z Hxy Hyz). lia.
      * destruct (Z.leb_spec (cmp x z) 0); [lia|].
        destruct (Z.leb_spec (cmp y z) 0); [done|lia].
    + destruct (Z.leb_spec (cmp y x) 0) as [Hyx|Hyx].
      * pose proof (cmp_trans y x z Hyx Hxz). lia.
      * destruct (Z.leb_spec (cmp y z) 0); [lia|].
        destruct (Z.leb_spec (cmp x z) 0); [done|lia].
    + destruct (Z.leb_spec (cmp x z) 0); [lia|].
      destruct (Z.leb_spec (cmp y z) 0); [lia|].
      by rewrite IH.
Qed.

Lemma js_sort_perm_eq l k : l ≡ₚ k → js_sort cmp l = js_sort cmp k.
Proof.
  induction 1 as [|x l k _ IH|x y l|l k m _ IH1 _ IH2]; simpl.
  - done.
  - by rewrite IH.
  - apply js_insert_comm.
  - by rewrite IH1.
Qed.
End SortFacts.

Lemma desc_total x y : desc x y ≤ 0 ∨ desc y x ≤ 0.
Proof. unfold desc. lia. Qed.
Lemma desc_antisym x y : desc x y ≤ 0 → desc y x ≤ 0 → x = y.
Proof. unfold desc. lia. Qed.
Lemma desc_trans x y z : desc x y ≤ 0 → desc y z ≤ 0 → desc x z ≤ 0.
Proof. unfold desc. lia. Qed.
Lemma asc_total x y : asc x y ≤ 0 ∨ asc y x ≤ 0.
Proof. unfold asc. lia. Qed.
Lemma asc_antisym x y : asc x y ≤ 0 → asc y x ≤ 0 → x = y.
Proof. unfold asc. lia. Qed.
Lemma asc_trans x y z : asc x y ≤ 0 → asc y z ≤ 0 → asc x z ≤ 0.
Proof. unfold asc. lia. Qed.

(** [sort((a,b)=>a-b)] yields an ascending list *)
Lemma js_insert_asc_sorted x l :
  StronglySorted Z.le l → StronglySorted Z.le (js_insert asc x l).
Proof.
  induction 1 as [|y l Hs IH Hall]; simpl; [repeat constructor|].
  unfold asc at 1. destruct (Z.leb_spec (x - y) 0).
  - constructor; [by constructor|]. constructor; [lia|].
    eapply List.Forall_impl; [|exact Hall]. simpl. intros; lia.
  - constructor; [done|].
    apply Forall_forall. intros z Hz.
    rewrite js_insert_Permutation in Hz. apply elem_of_cons in Hz as [->|Hz]; [lia|].
    rewrite List.Forall_forall in Hall. apply Hall. by apply list_elem_of_In.
Qed.

Lemma js_sort_asc_sorted l : StronglySorted Z.le (js_sort asc l).
Proof.
  induction l as [|x l IH]; simpl; [constructor|]. by apply js_insert_asc_sorted.
Qed.

Section MapFacts.
Context {K V : Type} `{EqDecision K}.
Implicit Types m : list (K * V).

Lemma map_get_set m k v k' :
  map_get (map_set m k v) k' = if decide (k = k') then Some v else map_get m k'.
Proof.
  induction m as [|[k0 v0] m IH]; simpl.
  - repeat case_decide; congruence.
  - repeat (case_decide; simpl); try congruence.
Qed.

Lemma map_set_keys m k v :
  (map_set m k v).*1 = if bool_decide (k ∈ m.*1) then m.*1 else m.*1 ++ [k].
Proof.
  induction m as [|[k0 v0] m IH]; [done|].
  cbn [map_set]. destruct (decide (k0 = k)) as [->|Hk]; rewrite !fmap_cons; cbn [fst].
  - rewrite bool_decide_eq_true_2 by left. done.
  - rewrite IH. destruct (decide (k ∈ m.*1)).
    + rewrite (bool_decide_eq_true_2 (k ∈ m.*1)) by done.
      rewrite (bool_decide_eq_true_2 (k ∈ k0 :: m.*1)) by (by right). done.
    + rewrite (bool_decide_eq_false_2 (k ∈ m.*1)) by done.
      rewrite (bool_decide_eq_false_2 (k ∈ k0 :: m.*1)); [done|].
      intros [?|?]%elem_of_cons; congruence.
Qed.

Lemma map_set_NoDup m k v : NoDup m.*1 → NoDup (map_set m k v).*1.
Proof.
  intros Hnd. rewrite map_set_keys. case_bool_decide; [done|].
  apply NoDup_app. split; [done|]. split; [|apply NoDup_singleton].
  intros x Hx ->%list_elem_of_singleton. done.
Qed.

Lemma map_get_None m k : map_get m k = None ↔ k ∉ m.*1.
Proof.
  induction m as [|[k0 v0] m IH]; simpl.
  - split; [intros _ Hk; by apply elem_of_nil in Hk|done].
  - case_decide; subst.
    + split; [done|]. intros []. left.
    + rewrite IH, not_elem_of_cons. split; [by split|by intros [_ ?]].
Qed.

Lemma map_get_Some_elem m k v : map_get m k = Some v → (k, v) ∈ m.
Proof.
  induction m as [|[k0 v0] m IH]; simpl; [done|].
  case_decide; subst.
  - intros [= ->]. left.
  - intros. right. auto.
Qed.

Lemma map_elem_get m k v : NoDup m.*1 → (k, v) ∈ m → map_get m k = Some v.
Proof.
  induction m as [|[k0 v0] m IH]; simpl; [by intros _ ?%elem_of_nil|].
  intros [Hni Hnd]%NoDup_cons [Heq|Hin]%elem_of_cons.
  - simplify_eq. by rewrite decide_True.
  - case_decide; subst; [|by apply IH].
    exfalso. apply Hni. apply list_elem_of_fmap. by exists (k, v).
Qed.
End MapFacts.

Lemma sumZ_map_set (m : list (Z * Z)) k v :
  sumZ (map_set m k v).*2 = sumZ m.*2 - default 0 (map_get m k) + v.
Proof.
  induction m as [|[k0 v0] m IH]; [unfold sumZ; simpl; lia|].
  cbn [map_set map_get]. destruct (decide (k0 = k)) as [->|Hk];
    rewrite !fmap_cons, !sumZ_cons; cbn [snd default];
    [unfold Datatypes.id; lia|].
  rewrite IH. lia.
Qed.

(** ** The split of a pot *)

Lemma credit_get won s x s' :
  map_get (credit won s x) s'
  = if decide (s = s') then Some (wonOf won s + x) else map_get won s'.
Proof. unfold credit. by rewrite map_get_set. Qed.

Lemma wonOf_credit won s x s' :
  wonOf (credit won s x) s' = wonOf won s' + (if decide (s = s') then x else 0).
Proof.
  unfold wonOf at 1. rewrite credit_get. case_decide; subst; simpl; [done|].
  unfold wonOf. lia.
Qed.

Lemma sumZ_credit won s x : sumZ (credit won s x).*2 = sumZ won.*2 + x.
Proof. unfold credit. rewrite sumZ_map_set. lia. Qed.

(** case analysis on the membership tests of a goal *)
Ltac elem_cases :=
  repeat first [case_bool_decide | case_decide]; subst;
  try lia; try (exfalso; set_solver).

(** the equal-share loop *)
Lemma shares_wonOf share (l : list Z) won s :
  NoDup l →
  wonOf (foldl (λ w s, credit w s share) won l) s
  = wonOf won s + (if bool_decide (s ∈ l) then share else 0).
Proof.
  revert won. induction l as [|x l IH]; intros won Hnd.
  - cbn [foldl]. elem_cases.
  - apply NoDup_cons in Hnd as [Hx Hnd]. cbn [foldl].
    rewrite IH, wonOf_credit by done. elem_cases.
Qed.

Lemma shares_get_other share (l : list Z) won s :
  s ∉ l → map_get (foldl (λ w s, credit w s share) won l) s = map_get won s.
Proof.
  revert won. induction l as [|x l IH]; intros won Hs; [done|].
  apply not_elem_of_cons in Hs as [Hne Hs]. simpl.
  rewrite IH, credit_get by done. by rewrite decide_False.
Qed.

Lemma shares_sum share (l : list Z) won :
  sumZ (foldl (λ w s, credit w s share) won l).*2
  = sumZ won.*2 + share * Z.of_nat (length l).
Proof.
  revert won. induction l as [|x l IH]; intros won; [simpl; lia|].
  cbn [foldl length]. rewrite IH, sumZ_credit. lia.
Qed.

Lemma oddChips_wonOf (sorted : list Z) (r : nat) won s :
  NoDup sorted → (r ≤ length sorted)%nat →
  wonOf (foldl (oddChip sorted) won (seq 0 r)) s
  = wonOf won s + (if bool_decide (s ∈ take r sorted) then 1 else 0).
Proof.
  intros Hnd. induction r as [|r IH]; intros Hr.
  - cbn [seq foldl]. rewrite take_0. elem_cases.
  - rewrite seq_S, foldl_snoc. cbn [Nat.add]. unfold oddChip at 1.
    rewrite Nat.mod_small by lia.
    destruct (lookup_lt_is_Some_2 sorted r) as [sr Hsr]; [lia|].
    rewrite Hsr, wonOf_credit, IH by lia.
    rewrite (take_S_r _ _ _ Hsr).
    assert (sr ∉ take r sorted) as Hsr'.
    { intros [i Hi]%list_elem_of_lookup. apply lookup_take_Some in Hi as [Hi Hlt].
      pose proof (NoDup_lookup _ _ _ _ Hnd Hi Hsr). lia. }
    elem_cases.
Qed.

Lemma oddChips_get_other (sorted : list Z) (steps : list nat) won s :
  s ∉ sorted → map_get (foldl (oddChip sorted) won steps) s = map_get won s.
Proof.
  intros Hs. revert won. induction steps as [|i steps IH]; intros won; [done|].
  simpl. rewrite IH. unfold oddChip.
  destruct (sorted !! (i mod length sorted)%nat) as [sr|] eqn:Hsr; [|done].
  rewrite credit_get, decide_False; [done|].
  intros ->. apply Hs. by eapply list_elem_of_lookup_2.
Qed.

Lemma oddChips_sum (sorted : list Z) (steps : list nat) won :
  sorted ≠ [] →
  sumZ (foldl (oddChip sorted) won steps).*2 = sumZ won.*2 + Z.of_nat (length steps).
Proof.
  intros Hne. revert won. induction steps as [|i steps IH]; intros won; [simpl; lia|].
  cbn [foldl length]. rewrite IH. unfold oddChip.
  destruct (lookup_lt_is_Some_2 sorted (i mod length sorted)) as [sr ->].
  { apply Nat.mod_upper_bound. by destruct sorted. }
  rewrite sumZ_credit. lia.
Qed.

Lemma splitPot_unfold amount bestSeats won :
  splitPot amount bestSeats won
  = let k := Z.of_nat (length bestSeats) in
    foldl (oddChip (js_sort asc bestSeats))
          (foldl (λ w s, credit w s (amount / k)) won bestSeats)
          (seq 0 (Z.to_nat (amount - amount / k * k))).
Proof. done. Qed.

(** the whole amount of the pot is handed out *)
Lemma splitPot_sum amount bestSeats won :
  0 ≤ amount → bestSeats ≠ [] →
  sumZ (splitPot amount bestSeats won).*2 = sumZ won.*2 + amount.
Proof.
  intros Ha Hne. rewrite splitPot_unfold. cbv zeta.
  rewrite oddChips_sum, shares_sum, length_seq.
  - assert (0 < Z.of_nat (length bestSeats)) as Hk by (destruct bestSeats; simpl; [done|lia]).
    pose proof (Z.mul_div_le amount _ Hk). lia.
  - intros Hs. apply Hne. apply Permutation_nil_r. by rewrite <- Hs, js_sort_Permutation.
Qed.

(** C5. Remainder distribution: splitting a pot of [amount] among the [k]
    tied winners [bestSeats] credits each of them [amount / k] (integer
    division), and the [amount - k * (amount / k)] chips left go one each
    to the winners that come first in ascending seat order.  A pot of 100
    between seats 2, 5 and 7 gives 33 each and the odd chip to seat 2. *)
Theorem splitPot_remainder (amount : Z) (bestSeats : list Z) (won : list (Z * Z)) :
  0 ≤ amount → bestSeats ≠ [] → NoDup bestSeats →
  let k := Z.of_nat (length bestSeats) in
  let sorted := js_sort asc bestSeats in
  let won' := splitPot amount bestSeats won in
  sorted ≡ₚ bestSeats ∧ StronglySorted Z.le sorted
  ∧ (∀ j s, sorted !! j = Some s →
       wonOf won' s
       = wonOf won s + amount / k
         + (if Z.of_nat j <? amount - k * (amount / k) then 1 else 0))
  ∧ (∀ s, s ∉ bestSeats → map_get won' s = map_get won s)
  ∧ splitPot 100 [2; 5; 7] [] = [(2, 34); (5, 33); (7, 33)].
Proof.
  intros Ha Hne Hnd k sorted won'.
  assert (sorted ≡ₚ bestSeats) as Hperm by apply js_sort_Permutation.
  assert (NoDup sorted) as Hnds by (by rewrite Hperm).
  assert (0 < k) as Hk by (subst k; destruct bestSeats; simpl; [done|lia]).
  assert (length sorted = length bestSeats) as Hlen by apply js_sort_length.
  pose proof (Z.mod_pos_bound amount k Hk) as Hmod.
  pose proof (Z.div_mod amount k ltac:(lia)) as Hdm.
  split; [done|]. split; [apply js_sort_asc_sorted|].
  split; [|split; [|reflexivity]].
  - intros j s Hj. subst won'. rewrite splitPot_unfold. cbv zeta.
    fold k. fold sorted.
    rewrite oddChips_wonOf, shares_wonOf by (done || lia).
    assert (s ∈ bestSeats) by (rewrite <- Hperm; by eapply list_elem_of_lookup_2).
    rewrite (bool_decide_eq_true_2 (s ∈ bestSeats)) by done.
    destruct (Z.ltb_spec (Z.of_nat j) (amount - k * (amount / k))) as [Hlt|Hge].
    + rewrite bool_decide_eq_true_2; [done|].
      apply list_elem_of_lookup. exists j. apply lookup_take_Some. split; [done|lia].
    + rewrite bool_decide_eq_false_2; [done|].
      intros [i Hi]%list_elem_of_lookup. apply lookup_take_Some in Hi as [Hi Hlt].
      pose proof (NoDup_lookup _ _ _ _ Hnds Hi Hj). lia.
  - intros s Hs. subst won'. rewrite splitPot_unfold. cbv zeta.
    rewrite oddChips_get_other, shares_get_other; [done..|].
    fold sorted. by rewrite Hperm.
Qed.

Lemma splitPot_remainder_witness :
  wonOf (splitPot 100 [2; 5; 7] []) 2 = 34
  ∧ wonOf (splitPot 100 [2; 5; 7] []) 5 = 33
  ∧ wonOf (splitPot 100 [2; 5; 7] []) 7 = 33.
Proof.
  assert (0 ≤ 100) as Ha by lia.
  assert ([2; 5; 7] ≠ []) as Hne by discriminate.
  assert (NoDup [2; 5; 7]) as Hnd by exact (bool_decide_unpack (NoDup [2; 5; 7]) I).
  destruct (splitPot_remainder 100 [2; 5; 7] [] Ha Hne Hnd) as (_ & _ & Hw & _).
  split; [exact (Hw 0%nat 2 eq_refl) | split].
  - exact (Hw 1%nat 5 eq_refl).
  - exact (Hw 2%nat 7 eq_refl).
Defined.

(** ** Facts about the engine state *)

Lemma at_Some {A} (l : list A) (i : Z) x :
  at_ l i = Some x ↔ 0 ≤ i ∧ l !! Z.to_nat i = Some x.
Proof.
  unfold at_. destruct (Z.ltb_spec i 0).
  - split; [done|]. intros [? _]. lia.
  - split; [done|]. by intros [_ ?].
Qed.

Lemma sumZ_insert (l : list Z) (i : nat) v x :
  l !! i = Some x → sumZ (<[i := v]> l) = sumZ l - x + v.
Proof.
  revert i. induction l as [|y l IH]; intros [|i] Hi; simplify_eq/=.
  - rewrite !sumZ_cons. lia.
  - rewrite !sumZ_cons, (IH i) by done. lia.
Qed.

Lemma sumZ_replicate n : sumZ (replicate n 0) = 0.
Proof. induction n as [|n IH]; [done|]. simpl. rewrite sumZ_cons, IH. done. Qed.

Lemma sumZ_arr_set (l : list Z) (i : Z) v :
  0 ≤ i → sumZ (arr_set l i v) = sumZ l - num_at l i + v.
Proof.
  intros Hi. unfold arr_set, num_at, at_.
  destruct (Z.ltb_spec i 0); [lia|].
  destruct (Nat.ltb_spec (Z.to_nat i) (length l)) as [Hlt|Hge].
  - destruct (lookup_lt_is_Some_2 l _ Hlt) as [x Hx].
    rewrite Hx. simpl. by apply sumZ_insert.
  - rewrite lookup_ge_None_2 by lia. simpl.
    rewrite !sumZ_app, sumZ_replicate. unfold sumZ at 2. simpl. lia.
Qed.

Lemma sumZ_stack_alter (f : Player → Player) (ps : list Player) (i : nat) p :
  ps !! i = Some p →
  sumZ (stack <$> alter f i ps) = sumZ (stack <$> ps) - stack p + stack (f p).
Proof.
  revert i. induction ps as [|q ps IH]; intros [|i] Hi; simplify_eq/=.
  - rewrite !sumZ_cons. lia.
  - rewrite !sumZ_cons. rewrite (IH i) by done. lia.
Qed.

Lemma stack_alter_same (f : Player → Player) (ps : list Player) (i : nat) :
  (∀ p, stack (f p) = stack p) → stack <$> alter f i ps = stack <$> ps.
Proof.
  intros Hf. revert i. induction ps as [|q ps IH]; intros [|i]; simpl; [done..| |].
  - by rewrite Hf.
  - f_equal. apply IH.
Qed.

Lemma stack_fmap_same (f : Player → Player) (ps : list Player) :
  (∀ p, stack (f p) = stack p) → stack <$> (f <$> ps) = stack <$> ps.
Proof.
  intros Hf. rewrite <- list_fmap_compose. apply list_fmap_ext. intros _ p _. apply Hf.
Qed.

(** [commitChips] moves the payment from the stack to the pot and enters it
    in both ledgers *)
Lemma commitChips_spec seat amt e pay e' :
  commitChips seat amt e = Some (pay, e') →
  ∃ p, at_ (players (state e)) seat = Some p
    ∧ pay = Z.max 0 (Z.min amt (stack p))
    ∧ (pay = 0 → e' = e)
    ∧ chips e' = chips e
    ∧ pot (state e') = pot (state e) + pay
    ∧ sumZ (totalBets e') = sumZ (totalBets e) + pay
    ∧ sumZ (streetBets e') = sumZ (streetBets e) + pay.
Proof.
  unfold commitChips. destruct (at_ (players (state e)) seat) as [p|] eqn:Hp; [|done].
  simpl. intros H. exists p. split; [done|].
  destruct (Z.leb_spec (Z.max 0 (Z.min amt (stack p))) 0) as [Hle|Hgt];
    injection H as <- <-.
  - repeat split; lia.
  - apply at_Some in Hp as [Hseat Hp].
    split; [done|]. split; [lia|].
    unfold chips, stacks. simpl.
    rewrite (sumZ_stack_alter _ _ _ _ Hp), !sumZ_arr_set by done.
    repeat split; try lia.
    destruct (_ =? 0); simpl; lia.
Qed.

Lemma stack_set_hasActed b p : stack (set_hasActedThisRound b p) = stack p.
Proof. done. Qed.

Lemma chips_flags (f : Player → Player) i e :
  (∀ p, stack (f p) = stack p) → chips (upd_player i f e) = chips e.
Proof.
  intros Hf. unfold chips, stacks. simpl.
  by rewrite stack_alter_same.
Qed.

Lemma chips_log x e : chips (log x e) = chips e.
Proof. done. Qed.

Lemma chips_reopenRound s e : chips (reopenRound s e) = chips e.
Proof.
  unfold chips, stacks, reopenRound. simpl.
  rewrite stack_fmap_same; [done|]. intros p. by destruct (_ && _).
Qed.

(** paying the whole pot to one player *)
Lemma chips_award j (e : Engine) p :
  players (state e) !! j = Some p →
  sumZ (stack <$> alter (λ p, set_stack (stack p + pot (state e)) p) j
                        (players (state e)))
  = chips e.
Proof.
  intros Hp. rewrite (sumZ_stack_alter _ _ _ _ Hp). unfold chips, stacks. simpl. lia.
Qed.

Lemma awardUncontested_chips e e' :
  awardUncontested e = Some e' → chips e' = chips e.
Proof.
  unfold awardUncontested. intros H.
  destruct (list_find _ _) as [[j winner]|] eqn:Hfind; [|discriminate H].
  apply list_find_Some in Hfind as (Hj & _ & _).
  cbn [mbind option_bind] in H. injection H as <-.
  unfold chips, stacks. simpl.
  rewrite (sumZ_stack_alter _ _ _ _ Hj). cbn [stack set_stack]. lia.
Qed.

Lemma commitChips_zero seat amt e pay e' :
  commitChips seat amt e = Some (pay, e') → pay ≤ 0 → e' = e.
Proof.
  intros Hc Hle. apply commitChips_spec in Hc as (p & _ & Hpay & Hz & _).
  apply Hz. lia.
Qed.

Lemma foldAction_chips self actor e out :
  foldAction self actor e = Some out →
  match out with
  | Returned ok e' => chips e' = chips e ∧ ok = true
  | Applied m => chips m = chips e
  end.
Proof.
  unfold foldAction. destruct (_ =? 1)%nat.
  - destruct (awardUncontested _) as [e1|] eqn:Ha; [|discriminate].
    intros [= <-]. apply awardUncontested_chips in Ha.
    by rewrite Ha, chips_log, chips_flags.
  - intros [= <-]. by rewrite chips_log, chips_flags.
Qed.

Lemma checkAction_chips self actor toCall e out :
  checkAction self actor toCall e = Some out →
  match out with
  | Returned ok e' => e' = e ∧ ok = false
  | Applied m => chips m = chips e
  end.
Proof.
  unfold checkAction. destruct (negb _); intros [= <-]; [done|].
  by rewrite chips_log, chips_flags.
Qed.

Lemma callAction_chips self actor toCall e out :
  callAction self actor toCall e = Some out →
  match out with
  | Returned ok e' => e' = e ∧ ok = false
  | Applied m => chips m = chips e
  end.
Proof.
  unfold callAction. destruct (_ <=? 0); [by intros [= <-]|].
  destruct (commitChips _ _ _) as [[pay e1]|] eqn:Hc; [|discriminate].
  cbn [mbind option_bind]. destruct (Z.leb_spec pay 0); intros [= <-].
  - split; [by eapply commitChips_zero|done].
  - apply commitChips_spec in Hc as (p & _ & _ & _ & Hch & _).
    by rewrite chips_log, chips_flags.
Qed.

Lemma betAction_chips self actor contributed amt e out :
  betAction self actor contributed amt e = Some out →
  match out with
  | Returned ok e' => e' = e ∧ ok = false
  | Applied m => chips m = chips e
  end.
Proof.
  unfold betAction. destruct (negb _); [by intros [= <-]|].
  destruct (_ <=? 0); [by intros [= <-]|].
  destruct (commitChips _ _ _) as [[pay e1]|] eqn:Hc; [|discriminate].
  cbn [mbind option_bind]. destruct (Z.leb_spec pay 0); intros [= <-].
  - split; [by eapply commitChips_zero|done].
  - apply commitChips_spec in Hc as (p & _ & _ & _ & Hch & _).
    by rewrite chips_log, chips_flags, chips_reopenRound.
Qed.

Lemma raiseAction_chips self actor contributed minRaise amt e out :
  raiseAction self actor contributed minRaise amt e = Some out →
  match out with
  | Returned ok e' => e' = e ∧ ok = false
  | Applied m => chips m = chips e
  end.
Proof.
  unfold raiseAction. destruct (_ <=? _); [by intros [= <-]|].
  destruct (commitChips _ _ _) as [[pay e1]|] eqn:Hc; [|discriminate].
  cbn [mbind option_bind]. destruct (Z.leb_spec pay 0); intros [= <-].
  - split; [by eapply commitChips_zero|done].
  - apply commitChips_spec in Hc as (p & _ & _ & _ & Hch & _).
    rewrite chips_log, chips_flags by done.
    destruct (_ <? _); [by rewrite chips_reopenRound|done].
Qed.

(** the branch of an action kind leaves the chips on the table, and a
    refusal leaves the whole state as it was *)
Lemma applyAction_chips id kind amt e out :
  applyAction id kind amt e = Some out →
  match out with
  | Returned ok e' => chips e' = chips e ∧ (ok = false → e' = e)
  | Applied m => chips m = chips e
  end.
Proof.
  unfold applyAction.
  destruct (negb _); [by intros [= <-]|].
  destruct (at_ _ _) as [actor|]; [|by intros [= <-]].
  destruct (_ || _); [by intros [= <-]|].
  destruct kind; intros H.
  - apply foldAction_chips in H. destruct out; [|done].
    destruct H as [? ->]. done.
  - apply checkAction_chips in H. destruct out; [|done]. by destruct H as [-> ->].
  - apply callAction_chips in H. destruct out; [|done]. by destruct H as [-> ->].
  - apply betAction_chips in H. destruct out; [|done]. by destruct H as [-> ->].
  - apply raiseAction_chips in H. destruct out; [|done]. by destruct H as [-> ->].
Qed.

(** ** Showdown accounting *)

Lemma sidePotLayer_positive ps remain pots remain' :
  sidePotLayer ps remain = Some (pots, remain') →
  Forall (λ p, 0 < amount p) pots.
Proof.
  unfold sidePotLayer. cbv zeta.
  destruct (List.filter _ _); [done|].
  destruct (foldl _ _ _) as [layer|]; [|done].
  destruct (layer <=? 0); [done|].
  destruct (Z.ltb_spec 0 (layer * Z.of_nat (length (n :: l)))); intros [= <- <-].
  - by repeat constructor.
  - constructor.
Qed.

Lemma sidePotLoop_positive fuel ps remain pots0 :
  Forall (λ p, 0 < amount p) pots0 →
  Forall (λ p, 0 < amount p) (sidePotLoop fuel ps remain pots0).
Proof.
  revert remain pots0. induction fuel as [|fuel IH]; intros remain pots0 H0; [done|].
  simpl. destruct (existsb _ _); [|done].
  destruct (sidePotLayer ps remain) as [[pots remain']|] eqn:Hl; [|done].
  apply IH. apply Forall_app. split; [done|]. by eapply sidePotLayer_positive.
Qed.

Lemma buildSidePots_positive e : Forall (λ p, 0 < amount p) (buildSidePots e).
Proof.
  unfold buildSidePots. destruct (_ =? _)%nat; [constructor|].
  apply sidePotLoop_positive. constructor.
Qed.

(** the loop that picks the best hands ends with at least one seat *)
Lemma bestStep_keeps rbs acc s :
  acc.1 ≠ [] → (bestStep rbs acc s).1 ≠ [].
Proof.
  destruct acc as [bestSeats bestR]. simpl. intros Hne.
  destruct (map_get rbs s) as [r|]; [|done].
  destruct bestR as [b|]; [|done].
  destruct (_ <? _); [done|]. destruct (_ =? _); [|done].
  destruct (0 <? _); [done|]. destruct (_ =? 0); [|done].
  simpl. by destruct bestSeats.
Qed.

Lemma bestStep_fold_keeps rbs acc l :
  acc.1 ≠ [] → (foldl (bestStep rbs) acc l).1 ≠ [].
Proof.
  revert acc. induction l as [|s l IH]; intros acc Hne; [done|].
  simpl. apply IH. by apply bestStep_keeps.
Qed.

Lemma bestSeats_nonempty rbs s l :
  map_has rbs s = true → (foldl (bestStep rbs) ([], None) (s :: l)).1 ≠ [].
Proof.
  intros Hs. simpl. apply bestStep_fold_keeps.
  unfold map_has in Hs. destruct (map_get rbs s); [done|discriminate].
Qed.

Lemma claimable_filter rbs p :
  claimable rbs p = true ↔ List.filter (map_has rbs) (eligibleSeats p) ≠ [].
Proof.
  unfold claimable. induction (eligibleSeats p) as [|s l IH]; simpl; [done|].
  destruct (map_has rbs s); simpl; [done|]. apply IH.
Qed.

Lemma payPot_sum rbs won p :
  0 ≤ amount p →
  sumZ (payPot rbs won p).*2
  = sumZ won.*2 + (if claimable rbs p then amount p else 0).
Proof.
  intros Ha. unfold payPot.
  pose proof (claimable_filter rbs p) as Hc.
  destruct (List.filter (map_has rbs) (eligibleSeats p)) as [|s l] eqn:Hf.
  - destruct (claimable rbs p); [|lia]. by destruct Hc as [Hc _]; destruct Hc.
  - rewrite (proj2 Hc) by done.
    destruct (foldl _ _ _) as [bestSeats bestR] eqn:Hb.
    apply splitPot_sum; [done|].
    assert (map_has rbs s = true) as Hs.
    { assert (In s (List.filter (map_has rbs) (eligibleSeats p))) as Hin
        by (rewrite Hf; by left).
      by apply List.filter_In in Hin as [_ ?]. }
    pose proof (bestSeats_nonempty rbs s l Hs) as Hne. by rewrite Hb in Hne.
Qed.

Lemma payPots_sum rbs won pots :
  Forall (λ p, 0 < amount p) pots →
  sumZ (foldl (payPot rbs) won pots).*2
  = sumZ won.*2 + sumZ (amount <$> List.filter (claimable rbs) pots).
Proof.
  revert won. induction pots as [|p pots IH]; intros won Hpos; [unfold sumZ at 3; simpl; lia|].
  apply Forall_cons in Hpos as [Hp Hpos]. cbn [foldl List.filter].
  rewrite IH, payPot_sum by (done || lia).
  destruct (claimable rbs p); [rewrite fmap_cons, sumZ_cons|]; lia.
Qed.

Lemma stacksOnly_refl e : stacksOnly e e.
Proof. exists (players (state e)). by destruct e as [[] ?]. Qed.

Lemma zero_stack_alter j amt (ps : list Player) :
  set_stack 0 <$> alter (λ p, set_stack (stack p + amt) p) j ps = set_stack 0 <$> ps.
Proof.
  revert j. induction ps as [|q ps IH]; intros [|j]; simpl; [done..| |].
  - done.
  - f_equal. apply IH.
Qed.

Lemma creditWinnings_spec won e e' :
  creditWinnings won e = Some e' →
  stacksOnly e e' ∧ sumZ (stacks e') = sumZ (stacks e) + sumZ won.*2.
Proof.
  unfold creditWinnings. revert e.
  induction won as [|[s a] won IH]; intros e.
  - simpl. intros [= <-]. split; [apply stacksOnly_refl|]. unfold sumZ at 3. simpl. lia.
  - rewrite fmap_cons, sumZ_cons. cbn [foldl mbind option_bind fst snd].
    destruct (at_ (players (state e)) s) as [p|] eqn:Hp; cbn [mbind option_bind].
    + intros H. apply IH in H as [(ps & -> & Hps) Hsum]. split.
      * exists ps. split; [by destruct e as [[] ?]|].
        rewrite Hps. simpl. apply zero_stack_alter.
      * rewrite Hsum. apply at_Some in Hp as [_ Hp].
        unfold stacks. cbn [upd_player upd_state state set_players players].
        rewrite (sumZ_stack_alter _ _ _ _ Hp). cbn [stack set_stack]. lia.
    + intros H. exfalso. clear -H. induction won as [|sa won IHw]; [done|].
      apply IHw. exact H.
Qed.

Lemma revealWinners_spec ws e e' :
  revealWinners ws e = Some e' → ∃ pr, e' = set_publicReveals pr e.
Proof.
  unfold revealWinners. revert e. induction ws as [|w ws IH]; intros e.
  - simpl. intros [= <-]. exists (publicReveals e). by destruct e.
  - cbn [foldl mbind option_bind].
    destruct (at_ (players (state e)) (w_seat w)) as [pl|]; cbn [mbind option_bind].
    + intros H. apply IH in H as [pr ->]. exists pr. by destruct (hole pl).
    + intros H. exfalso. clear -H. induction ws as [|w' ws IHw]; [done|].
      apply IHw. exact H.
Qed.

Lemma offerReveal_spec winnerSeats contenders e :
  ∃ rs, offerReveal winnerSeats contenders e = set_revealSeats rs e.
Proof.
  unfold offerReveal. revert e. induction contenders as [|ip l IH]; intros e.
  - exists (revealSeats e). by destruct e.
  - cbn [foldl]. destruct (IH (if set_has winnerSeats (seat ip.2) then e
        else set_revealSeats (set_add (revealSeats e) (seat ip.2)) e)) as [rs ->].
    exists rs. by destruct (set_has _ _).
Qed.


(** the full showdown pays the side pots that a ranked contender can
    claim, empties the pot and keeps the side pots *)
Lemma showdownFull_spec contenders e e' :
  showdownFull contenders e = Some e' →
  pot (state e') = 0
  ∧ pots (state e') = buildSidePots e
  ∧ stage (state e') = showdown
  ∧ turnSeat (state e') = -1
  ∧ totalBets e' = totalBets e
  ∧ streetBets e' = streetBets e
  ∧ set_stack 0 <$> players (state e') = set_stack 0 <$> players (state e)
  ∧ sumZ (stacks e')
    = sumZ (stacks e)
      + sumZ (amount <$> List.filter
                (claimable (rankContenders (community (state e)) contenders))
                (buildSidePots e)).
Proof.
  unfold showdownFull. cbv zeta.
  set (rbs := rankContenders _ _). set (won := foldl _ _ _).
  destruct (creditWinnings won e) as [e1|] eqn:Hc; [|discriminate].
  cbn [mbind option_bind].
  destruct (winnersOf rbs won e1) as [ws|]; [|discriminate].
  cbn [mbind option_bind].
  destruct (revealWinners _ e1) as [e2|] eqn:Hr; [|discriminate].
  cbn [mbind option_bind]. intros [= <-].
  apply creditWinnings_spec in Hc as [(ps & -> & Hps) Hsum].
  apply revealWinners_spec in Hr as [pr ->].
  destruct (offerReveal_spec (set_of_list (w_seat <$> js_sort winnerCmp ws)) contenders
              (set_publicReveals pr (upd_state (set_players ps) e))) as [rs ->].
  do 6 (split; [reflexivity|]). split; [exact Hps|].
  change (sumZ (stacks (upd_state (set_players ps) e))
          = sumZ (stacks e) + sumZ (amount <$> List.filter (claimable rbs) (buildSidePots e))).
  rewrite Hsum. f_equal.
  subst won. rewrite payPots_sum by apply buildSidePots_positive.
  unfold sumZ at 1. simpl. lia.
Qed.

(** the side pots depend on the players only through who is in the hand *)
Lemma sidePotLayer_ext ps1 ps2 remain :
  inHand <$> ps1 = inHand <$> ps2 →
  sidePotLayer ps1 remain = sidePotLayer ps2 remain.
Proof.
  intros H. unfold sidePotLayer.
  assert (length ps1 = length ps2) as ->
    by (rewrite <- (length_fmap inHand ps1), H; apply length_fmap).
  assert (∀ i, match ps1 !! i with Some p => inHand p | None => false end
             = match ps2 !! i with Some p => inHand p | None => false end) as Hi.
  { intros i. pose proof (f_equal (λ l, l !! i) H) as Hl. simpl in Hl.
    rewrite !list_lookup_fmap in Hl.
    destruct (ps1 !! i), (ps2 !! i); simplify_eq/=; done. }
  cbv zeta. destruct (List.filter _ (seq 0 (length ps2))) as [|a l]; [done|].
  destruct (foldl _ None (a :: l)) as [layer|]; [|done].
  destruct (layer <=? 0); [done|].
  rewrite (List.filter_ext _ _ Hi). done.
Qed.

Lemma sidePotLoop_ext fuel ps1 ps2 remain pots0 :
  inHand <$> ps1 = inHand <$> ps2 →
  sidePotLoop fuel ps1 remain pots0 = sidePotLoop fuel ps2 remain pots0.
Proof.
  intros H. revert remain pots0. induction fuel as [|fuel IH]; intros; [done|].
  simpl. rewrite (sidePotLayer_ext ps1 ps2) by done.
  destruct (existsb _ _); [|done]. destruct (sidePotLayer ps2 remain) as [[? ?]|]; [|done].
  apply IH.
Qed.

Lemma buildSidePots_ext e1 e2 :
  inHand <$> players (state e1) = inHand <$> players (state e2) →
  totalBets e1 = totalBets e2 →
  buildSidePots e1 = buildSidePots e2.
Proof.
  intros H Ht. unfold buildSidePots. rewrite Ht.
  assert (length (players (state e1)) = length (players (state e2))) as ->
    by (rewrite <- (length_fmap inHand (players (state e1))), H; apply length_fmap).
  destruct (_ =? _)%nat; [done|]. by apply sidePotLoop_ext.
Qed.

Lemma inHand_alter_stack j amt (ps : list Player) :
  inHand <$> alter (λ p, set_stack (stack p + amt) p) j ps = inHand <$> ps.
Proof.
  revert j. induction ps as [|q ps IH]; intros [|j]; simpl; [done..|].
  f_equal. apply IH.
Qed.

Lemma contendersOf_lookup e j p :
  (j, p) ∈ contendersOf e → players (state e) !! j = Some p.
Proof.
  unfold contendersOf. rewrite list_elem_of_In, List.filter_In, <- list_elem_of_In.
  intros [Hin _]. apply elem_of_lookup_imap in Hin as (i & q & ? & Hq). by simplify_eq.
Qed.

Lemma resolveShowdown_spec e e' :
  resolveShowdown e = Some e' →
  pot (state e') = 0
  ∧ pots (state e') = buildSidePots e
  ∧ stage (state e') = showdown
  ∧ turnSeat (state e') = -1
  ∧ totalBets e' = totalBets e
  ∧ set_stack 0 <$> players (state e') = set_stack 0 <$> players (state e)
  ∧ sumZ (stacks e') = sumZ (stacks e) + showdownPaid e.
Proof.
  unfold resolveShowdown, showdownPaid. cbv zeta.
  destruct (contendersOf e) as [|[j winner] [|c2 cs]] eqn:Hcs.
  - intros H. apply showdownFull_spec in H as (?&?&?&?&?&?&?&?). done.
  - intros [= <-].
    assert (players (state e) !! j = Some winner) as Hj
      by (apply contendersOf_lookup; rewrite Hcs; left).
    split; [reflexivity|]. split.
    { cbn. apply buildSidePots_ext; [|done]. cbn. apply inHand_alter_stack. }
    do 3 (split; [reflexivity|]). split.
    { cbn. apply zero_stack_alter. }
    unfold stacks. cbn.
    rewrite (sumZ_stack_alter _ _ _ _ Hj). cbn. lia.
  - intros H. apply showdownFull_spec in H as (?&?&?&?&?&?&?&?). done.
Qed.

(** ** Turn order and round closure *)


Lemma nextSeat_from_seq ps from a len t :
  nextSeat_from ps from (seq a len) = Some t →
  (t = from ∧ ∀ j, (a ≤ j < a + len)%nat →
      ∃ q, at_ ps (seatAfter ps from j) = Some q ∧ active q = false)
  ∨ ∃ i, (a ≤ i < a + len)%nat
      ∧ t = seatAfter ps from i
      ∧ (∃ p, at_ ps t = Some p ∧ active p = true)
      ∧ ∀ j, (a ≤ j < i)%nat →
          ∃ q, at_ ps (seatAfter ps from j) = Some q ∧ active q = false.
Proof.
  revert a. induction len as [|len IH]; intros a.
  - simpl. intros [= <-]. left. split; [done|]. intros; lia.
  - cbn [seq nextSeat_from]. fold (seatAfter ps from a).
    destruct (at_ ps (seatAfter ps from a)) as [p|] eqn:Hp; [|done].
    cbn [mbind option_bind]. fold (active p).
    destruct (active p) eqn:Hact.
    + intros [= <-]. right. exists a. split; [lia|]. split; [done|].
      split; [eauto|]. intros; lia.
    + intros H. apply IH in H as [[-> Hall]|(i & Hi & -> & Hp' & Hbefore)].
      * left. split; [done|]. intros j Hj.
        destruct (decide (j = a)) as [->|]; [eauto|]. apply Hall. lia.
      * right. exists i. split; [lia|]. split; [done|]. split; [done|].
        intros j Hj. destruct (decide (j = a)) as [->|]; [eauto|]. apply Hbefore. lia.
Qed.

(** going round the table reaches every seat *)
Lemma seatAfter_reaches (ps : list Player) from (k : nat) :
  0 ≤ from → (k < length ps)%nat →
  ∃ j, (1 ≤ j ≤ length ps)%nat ∧ seatAfter ps from j = Z.of_nat k.
Proof.
  intros Hfrom Hk. unfold seatAfter.
  set (n := Z.of_nat (length ps)). assert (0 < n) by lia.
  set (d := (Z.of_nat k - from) mod n).
  pose proof (Z.mod_pos_bound (Z.of_nat k - from) n ltac:(lia)) as Hd. fold d in Hd.
  assert ((from + d) mod n = Z.of_nat k) as Hmod.
  { subst d. rewrite Z.add_mod_idemp_r by lia.
    replace (from + (Z.of_nat k - from)) with (Z.of_nat k) by lia.
    apply Z.mod_small. lia. }
  destruct (decide (d = 0)) as [Hd0|Hd0].
  - exists (length ps). split; [lia|]. fold n.
    rewrite Z.rem_mod_nonneg by lia.
    rewrite <- Hmod, Hd0, Z.add_0_r.
    rewrite <- (Z.add_mod_idemp_r from n n), Z.mod_same, Z.add_0_r by lia. done.
  - exists (Z.to_nat d). split; [lia|].
    rewrite Z2Nat.id by lia. rewrite Z.rem_mod_nonneg by lia. done.
Qed.


Lemma advanceStage_street e e' :
  advanceStage e = Some e' → stage (state e) ≠ river →
  players (state e') = set_hasActedThisRound false <$> players (state e)
  ∧ pot (state e') = pot (state e)
  ∧ totalBets e' = totalBets e
  ∧ stage (state e') = nextStage (stage (state e)).
Proof.
  unfold advanceStage. cbv zeta.
  change (stage (state (resetStreet e))) with (stage (state e)).
  intros H Hriver. destruct (stage (state e)) eqn:Hst; try done.
  - injection H as <-; repeat split; try reflexivity; exact Hst.
  - destruct (pop _) as [[? d0]|]; [|done]. cbn [mbind option_bind] in H.
    destruct (pop d0) as [[f1 d1]|]; [|done]. cbn [mbind option_bind] in H.
    destruct (pop d1) as [[f2 d2]|]; [|done]. cbn [mbind option_bind] in H.
    destruct (pop d2) as [[f3 d3]|]; [|done]. cbn [mbind option_bind] in H.
    destruct (nextSeat _ _) as [t|]; [|done]. cbn [mbind option_bind] in H.
    injection H as <-; repeat split; try reflexivity; exact Hst.
  - destruct (pop _) as [[? d0]|]; [|done]. cbn [mbind option_bind] in H.
    destruct (pop d0) as [[f1 d1]|]; [|done]. cbn [mbind option_bind] in H.
    destruct (nextSeat _ _) as [t|]; [|done]. cbn [mbind option_bind] in H.
    injection H as <-; repeat split; try reflexivity; exact Hst.
  - destruct (pop _) as [[? d0]|]; [|done]. cbn [mbind option_bind] in H.
    destruct (pop d0) as [[f1 d1]|]; [|done]. cbn [mbind option_bind] in H.
    destruct (nextSeat _ _) as [t|]; [|done]. cbn [mbind option_bind] in H.
    injection H as <-; repeat split; try reflexivity; exact Hst.
  - injection H as <-; repeat split; try reflexivity; exact Hst.
Qed.

Lemma advanceStage_river e e' :
  advanceStage e = Some e' → stage (state e) = river →
  resolveShowdown (upd_state (set_stage showdown) (resetStreet e)) = Some e'.
Proof.
  unfold advanceStage. cbv zeta.
  change (stage (state (resetStreet e))) with (stage (state e)).
  intros H Hst. rewrite Hst in H. exact H.
Qed.



Lemma advanceStage_chips e e' :
  advanceStage e = Some e' → stage (state e) ≠ river → chips e' = chips e.
Proof.
  intros H Hr. apply advanceStage_street in H as (Hps & Hpot & _); [|done].
  unfold chips, stacks. rewrite Hps, Hpot, stack_fmap_same; done.
Qed.

(** ** What an action leaves untouched *)

Lemma commitChips_frame seat amt e pay e' :
  commitChips seat amt e = Some (pay, e') →
  stage (state e') = stage (state e)
  ∧ turnSeat (state e') = turnSeat (state e)
  ∧ currentBet (state e') = currentBet (state e)
  ∧ bigBlind (state e') = bigBlind (state e)
  ∧ PokerEngine.seat <$> players (state e') = PokerEngine.seat <$> players (state e)
  ∧ inHand <$> players (state e') = inHand <$> players (state e)
  ∧ hasActedThisRound <$> players (state e') = hasActedThisRound <$> players (state e)
  ∧ (∀ i, i ≠ Z.to_nat seat → players (state e') !! i = players (state e) !! i)
  ∧ num_at (streetBets e') seat = num_at (streetBets e) seat + pay.
Proof.
  unfold commitChips. destruct (at_ (players (state e)) seat) as [p|] eqn:Hp; [|done].
  cbn [mbind option_bind]. apply at_Some in Hp as [Hseat Hp].
  destruct (Z.leb_spec (Z.max 0 (Z.min amt (stack p))) 0); intros [= <- <-].
  - repeat split; try done. lia.
  - cbn.
    assert (∀ (B : Type) (g : Player → B) (f : Player → Player) (ps : list Player) i,
              (∀ q, g (f q) = g q) → g <$> alter f i ps = g <$> ps) as Halt.
    { intros B g f ps i Hg.
      apply list_eq. intros k. rewrite !list_lookup_fmap.
      destruct (decide (k = i)) as [->|].
      - rewrite list_lookup_alter_eq.
        destruct (ps !! i); simpl; [by rewrite Hg|done].
      - by rewrite list_lookup_alter_ne. }
    repeat split; try done.
    + apply Halt. intros q. by destruct (_ =? 0).
    + apply Halt. intros q. by destruct (_ =? 0).
    + apply Halt. intros q. by destruct (_ =? 0).
    + intros i Hi. by rewrite list_lookup_alter_ne.
    + unfold num_at at 1, arr_set, at_.
      destruct (Z.ltb_spec seat 0); [lia|].
      destruct (Nat.ltb_spec (Z.to_nat seat) (length (streetBets e))).
      * rewrite list_lookup_insert_eq by done. done.
      * rewrite lookup_app_r, lookup_app_r by (rewrite ?length_replicate; lia).
        rewrite length_replicate.
        replace (_ - _ - _)%nat with 0%nat by lia. done.
Qed.

Lemma fmap_eq_length {A B} (g : A → B) (l k : list A) :
  g <$> l = g <$> k → length l = length k.
Proof. intros H. by rewrite <- (length_fmap g l), H, length_fmap. Qed.



Lemma applyAction_frame id kind amt e m :
  applyAction id kind amt e = Some (Applied m) →
  isBetting (stage (state e)) = true
  ∧ (∃ actor, at_ (players (state e)) (turnSeat (state e)) = Some actor)
  ∧ stage (state m) = stage (state e)
  ∧ turnSeat (state m) = turnSeat (state e)
  ∧ length (players (state m)) = length (players (state e)).
Proof.
  unfold applyAction.
  destruct (isBetting _); [|done]. cbn [negb].
  destruct (at_ _ _) as [actor|]; [|done].
  destruct (_ || _); [done|].
  intros H. split; [done|]. split; [eauto|].
  destruct kind.
  - unfold foldAction in H. destruct (_ =? 1)%nat.
    + by destruct (awardUncontested _).
    + injection H as <-. cbn. by rewrite length_alter.
  - unfold checkAction in H. destruct (negb _); [done|].
    injection H as <-. cbn. by rewrite length_alter.
  - unfold callAction in H. destruct (_ <=? 0); [done|].
    destruct (commitChips _ _ _) as [[pay e1]|] eqn:Hc; [|done].
    cbn [mbind option_bind] in H. destruct (pay <=? 0); [done|].
    injection H as <-.
    apply commitChips_frame in Hc as (? & ? & _ & _ & Hs%fmap_eq_length & _).
    cbn. by rewrite length_alter.
  - unfold betAction in H. cbv zeta in H. destruct (negb _); [done|].
    destruct (_ <=? 0); [done|].
    destruct (commitChips _ _ _) as [[pay e1]|] eqn:Hc; [|done].
    cbn [mbind option_bind] in H. destruct (pay <=? 0); [done|].
    injection H as <-.
    apply commitChips_frame in Hc as (? & ? & _ & _ & Hs%fmap_eq_length & _).
    cbn. by rewrite length_alter, length_fmap.
  - unfold raiseAction in H. cbv zeta in H. destruct (_ <=? _); [done|].
    destruct (commitChips _ _ _) as [[pay e1]|] eqn:Hc; [|done].
    cbn [mbind option_bind] in H. destruct (pay <=? 0); [done|].
    injection H as <-.
    apply commitChips_frame in Hc as (? & ? & _ & _ & Hs%fmap_eq_length & _).
    destruct (_ <? _); cbn; by rewrite length_alter, ?length_fmap.
Qed.




(** ** Fold to one *)

Lemma filter_one_unique {A} (f : A → bool) (l : list A) :
  length (List.filter f l) = 1%nat →
  ∃ j x, l !! j = Some x ∧ f x = true
       ∧ ∀ i y, l !! i = Some y → f y = true → i = j.
Proof.
  induction l as [|a l IH]; [done|]. cbn [List.filter].
  destruct (f a) eqn:Hfa.
  - intros Hlen. exists 0%nat, a.
    split; [done|]. split; [done|].
    intros [|i] y Hy Hfy; [done|]. exfalso. simpl in Hy.
    assert (In y (List.filter f l)) as Hin.
    { apply List.filter_In. split; [|done]. apply list_elem_of_In.
      by eapply list_elem_of_lookup_2. }
    destruct (List.filter f l); [done|]. simpl in Hlen. lia.
  - intros Hlen. destruct (IH Hlen) as (j & x & Hj & Hfx & Huniq).
    exists (S j), x. split; [done|]. split; [done|].
    intros [|i] y Hy Hfy; simpl in Hy; [congruence|]. f_equal. by eapply Huniq.
Qed.

Lemma filter_one_find {A} (f : A → bool) (l : list A) :
  length (List.filter f l) = 1%nat →
  ∃ j x, list_find (λ p, f p = true) l = Some (j, x)
       ∧ l !! j = Some x ∧ f x = true
       ∧ ∀ i y, l !! i = Some y → f y = true → i = j.
Proof.
  intros (j & x & Hj & Hfx & Huniq)%filter_one_unique.
  exists j, x. split; [|done].
  apply list_find_Some. split; [done|]. split; [done|].
  intros i y Hy Hlt Hfy. specialize (Huniq i y Hy Hfy). lia.
Qed.

(** C8. Fold-to-one: when the fold of the player to act leaves exactly one
    player in the hand, [playerAction] succeeds and the hand is over at
    once: that player's stack receives the whole pot, the pot is empty, the
    stage is [showdown], no seat is to act ([turnSeat = -1]), the survivor
    is the only seat offered to show or muck and nothing is revealed, and
    [lastWinners] holds the single uncontested winner, without a category.
    No betting field, ledger or card moves. *)
Theorem fold_to_one id amount e actor :
  isBetting (stage (state e)) = true →
  at_ (players (state e)) (turnSeat (state e)) = Some actor →
  PokerEngine.id actor = id → inHand actor = true → isAllIn actor = false →
  let ps := afterFold (Z.to_nat (turnSeat (state e))) (players (state e)) in
  length (List.filter inHand ps) = 1%nat →
  ∃ j winner e',
    playerAction id KFold amount e = Some (true, e')
    ∧ ps !! j = Some winner ∧ inHand winner = true
    ∧ (∀ i q, ps !! i = Some q → inHand q = true → i = j)
    ∧ players (state e')
      = alter (λ p, set_stack (stack p + pot (state e)) p) j ps
    ∧ players (state e') !! j
      = Some (set_stack (stack winner + pot (state e)) winner)
    ∧ pot (state e') = 0
    ∧ stage (state e') = showdown
    ∧ turnSeat (state e') = -1
    ∧ at_ (players (state e')) (turnSeat (state e')) = None
    ∧ revealSeats e' = [seat winner]
    ∧ publicReveals e' = []
    ∧ lastWinners (state e')
      = [mkWinner (seat winner) (name winner) (pot (state e)) None "Uncontested"]
    ∧ currentBet (state e') = currentBet (state e)
    ∧ streetBets e' = streetBets e
    ∧ totalBets e' = totalBets e
    ∧ community (state e') = community (state e)
    ∧ deck (state e') = deck (state e).
Proof.
  intros Hbet Hactor Hid Hin Hall ps Hone.
  destruct (filter_one_find inHand ps Hone) as (j & winner & Hfind & Hj & Hw & Huniq).
  exists j, winner.
  unfold playerAction, applyAction. rewrite Hbet, Hactor, Hid, String.eqb_refl, Hin, Hall.
  cbn [negb orb]. unfold foldAction, activeCount. cbv zeta.
  change (players (state (log _ (upd_player _ _ e)))) with ps.
  rewrite Hone. cbn [Nat.eqb]. unfold awardUncontested.
  change (players (state (log _ (upd_player _ _ e)))) with ps.
  rewrite Hfind. cbn [mbind option_bind].
  eexists. split; [reflexivity|].
  do 3 (split; [done|]).
  match goal with |- ?L = ?R ∧ _ => assert (L = R) as Hps by reflexivity end.
  split; [exact Hps|].
  split; [by rewrite Hps, list_lookup_alter_eq, Hj|].
  repeat split.
Qed.

(** ** Raises *)

Lemma commitChips_defined seat amt e p :
  at_ (players (state e)) seat = Some p →
  ∃ e', commitChips seat amt e = Some (Z.max 0 (Z.min amt (stack p)), e').
Proof.
  intros Hp. unfold commitChips. rewrite Hp. cbn [mbind option_bind].
  destruct (Z.leb_spec (Z.max 0 (Z.min amt (stack p))) 0).
  - exists e. do 2 f_equal. lia.
  - eexists. reflexivity.
Qed.

Lemma playerAction_refused id kind amount e e' :
  playerAction id kind amount e = Some (false, e') → e' = e.
Proof.
  unfold playerAction.
  destruct (applyAction id kind amount e) as [[ok e1|m]|] eqn:Happ; [| |done].
  - apply applyAction_chips in Happ as [_ Hrej]. cbn [mbind option_bind].
    intros [= -> <-]. by apply Hrej.
  - cbn [mbind option_bind]. by destruct (closeRound m).
Qed.

(** C3, counterexample: heads-up after the blinds the bet to match is 2 and
    the minimum raise is 2; the small blind asks for a raise to 3 and is not
    refused *)
Lemma raise_below_minimum_accepted : ¬ raise_below_minimum_refused.
Proof.
  intros H. specialize (H "a" 3%Q headsUp). vm_compute in H.
  specialize (H eq_refl). discriminate H.
Qed.

(** C3, amended.  A raise is taken to the total
    [max(currentBet + bigBlind, floor(amount))]: a request below
    [currentBet + bigBlind] is not refused but raised to that minimum.  The
    raise of the player to act is refused only when this total does not
    exceed [currentBet] or the player can pay nothing towards it; otherwise
    it is applied and the payment, the shortfall capped by the stack, goes
    to the pot and to the player's street contribution.  Whenever
    [playerAction] returns failure the state is unchanged. *)
Theorem raise_request_clamped id amount e actor payer :
  isBetting (stage (state e)) = true →
  at_ (players (state e)) (turnSeat (state e)) = Some actor →
  PokerEngine.id actor = id → inHand actor = true → isAllIn actor = false →
  at_ (players (state e)) (seat actor) = Some payer →
  let raiseTo := raiseTarget amount e in
  let pay := raisePayment amount e actor payer in
  (Qfloor (default 0%Q amount) ≤ currentBet (state e) + bigBlind (state e) →
   raiseTo = currentBet (state e) + bigBlind (state e))
  ∧ (raiseTo ≤ currentBet (state e) ∨ pay ≤ 0 →
     playerAction id KRaise amount e = Some (false, e))
  ∧ (currentBet (state e) < raiseTo → 0 < pay →
     ∃ m, applyAction id KRaise amount e = Some (Applied m)
        ∧ playerAction id KRaise amount e
          = (e' ← closeRound m; Some (true, e'))
        ∧ pot (state m) = pot (state e) + pay
        ∧ num_at (streetBets m) (seat actor)
          = num_at (streetBets e) (seat actor) + pay)
  ∧ (∀ kind e', playerAction id kind amount e = Some (false, e') → e' = e).
Proof.
  intros Hbet Hactor Hid Hin Hall Hpayer raiseTo pay.
  split; [unfold raiseTo, raiseTarget; lia|].
  assert (applyAction id KRaise amount e
          = raiseAction (Z.to_nat (turnSeat (state e))) actor
              (num_at (streetBets e) (seat actor)) (bigBlind (state e)) amount e) as Happ.
  { unfold applyAction. rewrite Hbet, Hactor, Hid, String.eqb_refl, Hin, Hall. done. }
  destruct (commitChips_defined (seat actor)
              (Z.max 0 (raiseTo - num_at (streetBets e) (seat actor))) e payer Hpayer)
    as [e1 Hc].
  change (Z.max 0 (Z.min _ (stack payer))) with pay in Hc.
  assert (raiseAction (Z.to_nat (turnSeat (state e))) actor
            (num_at (streetBets e) (seat actor)) (bigBlind (state e)) amount e
          = if raiseTo <=? currentBet (state e) then Some (Returned false e)
            else if pay <=? 0 then Some (Returned false e1)
            else Some (Applied
              (log (LogRaise (name actor) (currentBet (state
                 (upd_player (Z.to_nat (turnSeat (state e))) (set_hasActedThisRound true)
                   (if currentBet (state e1) <? num_at (streetBets e1) (seat actor)
                    then reopenRound (seat actor) (upd_state (λ s,
                      set_lastAggressorSeat (Some (seat actor)) (set_minRaise (bigBlind s)
                        (set_currentBet (num_at (streetBets e1) (seat actor)) s))) e1)
                    else e1)))))
                 (upd_player (Z.to_nat (turnSeat (state e))) (set_hasActedThisRound true)
                   (if currentBet (state e1) <? num_at (streetBets e1) (seat actor)
                    then reopenRound (seat actor) (upd_state (λ s,
                      set_lastAggressorSeat (Some (seat actor)) (set_minRaise (bigBlind s)
                        (set_currentBet (num_at (streetBets e1) (seat actor)) s))) e1)
                    else e1))))) as Hraise.
  { unfold raiseAction. cbv zeta.
    change (Z.max (currentBet (state e) + bigBlind (state e)) _) with raiseTo.
    destruct (raiseTo <=? currentBet (state e)); [done|]. by rewrite Hc. }
  clearbody pay raiseTo.
  refine (conj _ (conj _ _)).
  - intros Hrej. unfold playerAction. rewrite Happ, Hraise.
    destruct (Z.leb_spec raiseTo (currentBet (state e))); [done|].
    destruct (Z.leb_spec pay 0); [|lia].
    assert (e1 = e) as -> by (eapply commitChips_zero; [exact Hc|lia]). done.
  - intros Hgt Hpay. rewrite Happ. unfold playerAction. rewrite Happ, Hraise.
    destruct (Z.leb_spec raiseTo (currentBet (state e))); [lia|].
    destruct (Z.leb_spec pay 0); [lia|].
    eexists. split; [reflexivity|]. split; [reflexivity|].
    pose proof (commitChips_spec _ _ _ _ _ Hc) as (_ & _ & _ & _ & _ & Hpot & _).
    pose proof (commitChips_frame _ _ _ _ _ Hc) as (_&_&_&_&_&_&_&_& Hsb).
    rewrite <- Hpot, <- Hsb. by destruct (_ <? _).
  - intros kind e'. apply playerAction_refused.
Qed.

(** ** Chip conservation *)

Lemma commitChips_ledger seat amt e pay e' :
  commitChips seat amt e = Some (pay, e') →
  length (totalBets e) = length (players (state e)) →
  Forall (λ v, 0 ≤ v) (totalBets e) →
  length (totalBets e') = length (players (state e'))
  ∧ Forall (λ v, 0 ≤ v) (totalBets e')
  ∧ pot (state e') - sumZ (totalBets e') = pot (state e) - sumZ (totalBets e).
Proof.
  intros Hc Hlen Hpos.
  pose proof (commitChips_spec _ _ _ _ _ Hc) as (p & Hp & Hpay & _ & _ & Hpot & Htb & _).
  pose proof (commitChips_frame _ _ _ _ _ Hc) as (_&_&_&_& Hs%fmap_eq_length &_).
  split; [|split; [|lia]].
  - rewrite Hs, <- Hlen. revert Hc. unfold commitChips. rewrite Hp.
    cbn [mbind option_bind]. destruct (_ <=? 0); intros [= _ <-]; [done|].
    cbn. unfold arr_set. apply at_Some in Hp as [? Hp%lookup_lt_Some].
    destruct (Nat.ltb_spec (Z.to_nat seat) (length (totalBets e))); [|lia].
    by rewrite length_insert.
  - revert Hc. unfold commitChips. rewrite Hp.
    cbn [mbind option_bind]. destruct (Z.leb_spec (Z.max 0 (Z.min amt (stack p))) 0);
      intros [= _ <-]; [done|].
    cbn. unfold arr_set. apply at_Some in Hp as [? Hp%lookup_lt_Some].
    destruct (Nat.ltb_spec (Z.to_nat seat) (length (totalBets e))); [|lia].
    apply Forall_insert; [done|].
    assert (0 ≤ num_at (totalBets e) seat); [|lia].
    unfold num_at. destruct (at_ (totalBets e) seat) as [v|] eqn:Hv; [|done].
    apply at_Some in Hv as [_ Hv]. rewrite Forall_forall in Hpos.
    apply Hpos. by eapply list_elem_of_lookup_2.
Qed.

Lemma ledgerOk_flags (f : Player → Player) i x e :
  ledgerOk e → ledgerOk (log x (upd_player i f e)).
Proof.
  intros (Hlen & Hpos & Hpot). split; [|split; [done|exact Hpot]].
  cbn. by rewrite length_alter.
Qed.

(** an action keeps the ledger in step with the pot *)
Lemma applyAction_ledger id kind amt e out :
  applyAction id kind amt e = Some out → ledgerOk e →
  match out with Returned _ e' => ledgerOk e' | Applied m => ledgerOk m end.
Proof.
  intros Happ Hok.
  destruct out as [ok e'|m].
  - destruct ok.
    + (* only the fold that ends the hand returns success *)
      revert Happ. unfold applyAction.
      destruct (negb _); [done|]. destruct (at_ _ _) as [actor|]; [|done].
      destruct (_ || _); [done|]. destruct kind.
      * unfold foldAction. destruct (_ =? 1)%nat; [|done].
        unfold awardUncontested. destruct (list_find _ _) as [[j w]|]; [|done].
        cbn [mbind option_bind]. intros [= <-].
        destruct Hok as (Hlen & Hpos & _). split; [|split; [done|done]].
        cbn. by rewrite !length_alter.
      * intros H%checkAction_chips. by destruct H.
      * intros H%callAction_chips. by destruct H.
      * intros H%betAction_chips. by destruct H.
      * intros H%raiseAction_chips. by destruct H.
    + apply applyAction_chips in Happ as [_ ->]; done.
  - pose proof (applyAction_frame _ _ _ _ _ Happ) as (Hbet & _ & Hst & _).
    revert Happ. unfold applyAction.
    destruct (negb _); [done|]. destruct (at_ _ _) as [actor|]; [|done].
    destruct (_ || _); [done|]. destruct kind.
    + unfold foldAction. destruct (_ =? 1)%nat; [by destruct (awardUncontested _)|].
      intros [= <-]. by apply ledgerOk_flags.
    + unfold checkAction. destruct (negb _); [done|].
      intros [= <-]. by apply ledgerOk_flags.
    + unfold callAction. destruct (_ <=? 0); [done|].
      destruct (commitChips _ _ _) as [[pay e1]|] eqn:Hc; [|done].
      cbn [mbind option_bind]. destruct (pay <=? 0); [done|]. intros [= <-].
      apply ledgerOk_flags. destruct Hok as (Hlen & Hpos & Hpot).
      destruct (commitChips_ledger _ _ _ _ _ Hc Hlen Hpos) as (? & ? & Hgap).
      apply commitChips_frame in Hc as (Hst1 & _).
      split; [done|]. split; [done|]. intros _. specialize (Hpot Hbet). lia.
    + unfold betAction. cbv zeta. destruct (negb _); [done|]. destruct (_ <=? 0); [done|].
      destruct (commitChips _ _ _) as [[pay e1]|] eqn:Hc; [|done].
      cbn [mbind option_bind]. destruct (pay <=? 0); [done|]. intros [= <-].
      apply ledgerOk_flags. destruct Hok as (Hlen & Hpos & Hpot).
      destruct (commitChips_ledger _ _ _ _ _ Hc Hlen Hpos) as (? & ? & Hgap).
      split; [cbn; by rewrite length_fmap|]. split; [done|].
      intros _. specialize (Hpot Hbet). cbn. lia.
    + unfold raiseAction. cbv zeta. destruct (_ <=? _); [done|].
      destruct (commitChips _ _ _) as [[pay e1]|] eqn:Hc; [|done].
      cbn [mbind option_bind]. destruct (pay <=? 0); [done|]. intros [= <-].
      apply ledgerOk_flags. destruct Hok as (Hlen & Hpos & Hpot).
      destruct (commitChips_ledger _ _ _ _ _ Hc Hlen Hpos) as (? & ? & Hgap).
      specialize (Hpot Hbet).
      destruct (_ <? _); (split; [cbn; by rewrite ?length_fmap|]; split; [done|]);
        intros _; cbn; lia.
Qed.

Lemma fmap_max0_nonneg (l : list Z) : Forall (λ v, 0 ≤ v) l → Z.max 0 <$> l = l.
Proof.
  induction 1 as [|v l Hv _ IH]; [done|]. rewrite fmap_cons, IH. f_equal. lia.
Qed.

Lemma filter_all_true {A} (f : A → bool) (l : list A) :
  Forall (λ x, f x = true) l → List.filter f l = l.
Proof. induction 1 as [|x l Hx _ IH]; [done|]. simpl. by rewrite Hx, IH. Qed.

(** a showdown in which every side pot is claimed pays out the whole pot *)
Lemma showdownPaid_all s :
  length (totalBets s) = length (players (state s)) →
  Forall (λ v, 0 ≤ v) (totalBets s) →
  pot (state s) = sumZ (totalBets s) →
  allClaimed s → showdownPaid s = pot (state s).
Proof.
  intros Hlen Hpos Hpot Hall. unfold showdownPaid.
  assert (sumZ (amount <$> buildSidePots s) = pot (state s)) as Hsum.
  { rewrite (Layering_sum _ _ _ (buildSidePots_Layering s Hlen)).
    rewrite !(fmap_max0_nonneg _ Hpos). lia. }
  destruct Hall as [Hone|Hall].
  - destruct (contendersOf s) as [|c [|c' cs]]; simplify_eq/=; done.
  - revert Hall. destruct (contendersOf s) as [|c [|c' cs]]; intros Hall; [|done|];
      by rewrite (filter_all_true _ _ Hall).
Qed.

Lemma closeRound_step m e' :
  closeRound m = Some e' → ledgerOk m →
  ledgerOk e'
  ∧ ((stage (state m) = river → everyoneActedOrAllIn m = true →
      allClaimed (upd_state (set_stage showdown) (resetStreet m))) →
     chips e' = chips m).
Proof.
  unfold closeRound. intros H (Hlen & Hpos & Hpot).
  destruct (isBetting (stage (state m))) eqn:Hbet;
    [|injection H as <-; split; [split; [done|split; [done|congruence]]|done]].
  specialize (Hpot eq_refl).
  destruct (everyoneActedOrAllIn m) eqn:Hev.
  - destruct (decide (stage (state m) = river)) as [Hr|Hr].
    + apply advanceStage_river in H; [|done].
      set (s := upd_state (set_stage showdown) (resetStreet m)) in *.
      apply resolveShowdown_spec in H as (Hp0 & _ & Hst & _ & Htb & Hz & Hsum).
      assert (length (players (state s)) = length (players (state m))) as Hls
        by (cbn; apply length_fmap).
      split.
      * split; [|split].
        -- rewrite Htb. apply fmap_eq_length in Hz. rewrite Hz, Hls. exact Hlen.
        -- by rewrite Htb.
        -- by rewrite Hst.
      * intros Hall. specialize (Hall Hr eq_refl).
        unfold chips. rewrite Hsum, Hp0, showdownPaid_all; try done.
        -- unfold stacks. cbn. rewrite stack_fmap_same by done. lia.
        -- by rewrite Hls.
    + pose proof (advanceStage_chips _ _ H Hr) as Hch.
      apply advanceStage_street in H as (Hps & Hp & Htb & Hst); [|done].
      split; [|done]. split; [|split].
      * by rewrite Hps, Htb, length_fmap.
      * by rewrite Htb.
      * intros _. by rewrite Hp, Htb.
  - destruct (nextSeat _ _) as [t|]; [|done]. injection H as <-.
    split; [|done]. split; [done|]. split; [done|]. intros _. exact Hpot.
Qed.

Lemma dealHoles_spec ps d ps' d' :
  dealHoles ps d = Some (ps', d') →
  stack <$> ps' = stack <$> ps ∧ length ps' = length ps.
Proof.
  revert d ps' d'. induction ps as [|p ps IH]; intros d ps' d'.
  - simpl. by intros [= <- <-].
  - cbn [dealHoles]. destruct (inHand p).
    + destruct (pop d) as [[c1 d1]|]; [|done]. cbn [mbind option_bind].
      destruct (pop d1) as [[c2 d2]|]; [|done]. cbn [mbind option_bind].
      destruct (dealHoles ps d2) as [[ps2 d3]|] eqn:Hd; [|done].
      cbn [mbind option_bind]. intros [= <- <-].
      apply IH in Hd as [Hs Hl]. cbn. by rewrite Hs, Hl.
    + destruct (dealHoles ps d) as [[ps2 d3]|] eqn:Hd; [|done].
      cbn [mbind option_bind]. intros [= <- <-].
      apply IH in Hd as [Hs Hl]. cbn. by rewrite Hs, Hl.
Qed.

Lemma postBlind_spec seat amt e e' :
  postBlind seat amt e = Some e' →
  ∃ pay e1 x, commitChips seat amt e = Some (pay, e1) ∧ e' = log x e1.
Proof.
  unfold postBlind. destruct (commitChips seat amt e) as [[pay e1]|]; [|done].
  cbn [mbind option_bind]. destruct (at_ _ _); [|done].
  cbn [mbind option_bind]. intros [= <-]. eauto.
Qed.

Lemma dealHand_spec e e1 :
  dealHand e = Some e1 →
  totalBets e1 = totalBets e
  ∧ pot (state e1) = pot (state e)
  ∧ stack <$> players (state e1) = stack <$> players (state e)
  ∧ length (players (state e1)) = length (players (state e)).
Proof.
  unfold dealHand. destruct (dealHoles _ _) as [[ps d]|] eqn:Hdh; [|done].
  cbn [mbind option_bind]. intros [= <-].
  apply dealHoles_spec in Hdh as [Hst Hl]. done.
Qed.

Lemma openHand_spec rnd e :
  pot (state (openHand rnd e)) = 0
  ∧ totalBets (openHand rnd e) = replicate (length (players (state e))) 0
  ∧ stack <$> players (state (openHand rnd e)) = stack <$> players (state e)
  ∧ length (players (state (openHand rnd e))) = length (players (state e)).
Proof.
  split; [reflexivity|]. split; [cbn; by rewrite length_fmap|].
  split; [cbn; by rewrite stack_fmap_same|]. cbn. apply length_fmap.
Qed.

Lemma postBlinds_spec e e' :
  postBlinds e = Some e' → length (totalBets e) = length (players (state e)) →
  Forall (λ v, 0 ≤ v) (totalBets e) →
  length (totalBets e') = length (players (state e'))
  ∧ Forall (λ v, 0 ≤ v) (totalBets e')
  ∧ pot (state e') - sumZ (totalBets e') = pot (state e) - sumZ (totalBets e)
  ∧ chips e' = chips e.
Proof.
  unfold postBlinds. cbv zeta. intros Hb Hlen1 Hpos1.
  destruct (postBlind _ _ e) as [e2|] eqn:Hsb; [|done]. cbn [mbind option_bind] in Hb.
  destruct (postBlind _ _ e2) as [e3|] eqn:Hbb; [|done]. cbn [mbind option_bind] in Hb.
  injection Hb as <-.
  apply postBlind_spec in Hsb as (pay1 & e2' & x1 & Hc1 & ->).
  apply postBlind_spec in Hbb as (pay2 & e3' & x2 & Hc2 & ->).
  destruct (commitChips_ledger _ _ _ _ _ Hc1 Hlen1 Hpos1) as (Hlen2 & Hpos2 & Hgap2).
  pose proof (commitChips_spec _ _ _ _ _ Hc1) as (_ & _ & _ & _ & Hch2 & _).
  destruct (commitChips_ledger _ _ _ _ _ Hc2 Hlen2 Hpos2) as (Hlen3 & Hpos3 & Hgap3).
  pose proof (commitChips_spec _ _ _ _ _ Hc2) as (_ & _ & _ & _ & Hch3 & _).
  split; [exact Hlen3|]. split; [exact Hpos3|]. split.
  - etrans; [exact Hgap3|]. exact Hgap2.
  - etrans; [exact Hch3|]. exact Hch2.
Qed.

Lemma startHand_step rnd e e' :
  startHand rnd e = Some e' → ledgerOk e →
  ledgerOk e' ∧ (pot (state e) = 0 → chips e' = chips e).
Proof.
  unfold startHand. destruct (_ <? 2)%nat; [by intros [= <-]|].
  destruct (dealHand (openHand rnd e)) as [e1|] eqn:Hd; [|done].
  cbn [mbind option_bind]. intros Hb _.
  apply dealHand_spec in Hd as (Htb1 & Hp1 & Hst1 & Hl1).
  destruct (openHand_spec rnd e) as (Hp0 & Htb & Hst0 & Hl0).
  apply postBlinds_spec in Hb as (Hlen & Hpos & Hgap & Hch).
  - rewrite Hp1, Htb1, Hp0, Htb, sumZ_replicate in Hgap.
    split; [split; [done|split; [done|intros _; lia]]|].
    intros Hpe. rewrite Hch. unfold chips, stacks.
    by rewrite Hst1, Hp1, Hst0, Hp0, Hpe.
  - by rewrite Htb1, Htb, length_replicate, Hl1, Hl0.
  - rewrite Htb1, Htb. apply Forall_replicate. lia.
Qed.

Lemma addPlayer_step id name stack owner e :
  ledgerOk e →
  ledgerOk (addPlayer id name stack owner e).2
  ∧ chips (addPlayer id name stack owner e).2
    = chips e + buyIn (OpAddPlayer id name stack owner) e.
Proof.
  intros (Hlen & Hpos & Hpot). unfold buyIn, addPlayer. cbv zeta.
  destruct (_ <=? _)%nat; [by rewrite Z.add_0_r|].
  destruct (existsb _ _); [by rewrite Z.add_0_r|].
  cbn [fst snd]. split.
  - split; [|split].
    + cbn. unfold splice_in. rewrite length_app, !length_app. cbn.
      rewrite length_take, length_drop. lia.
    + cbn. unfold splice_in. rewrite <- Hlen, firstn_all, drop_all.
      apply Forall_app. split; [done|]. by repeat constructor.
    + intros Hb. cbn. unfold splice_in. rewrite <- Hlen, firstn_all, drop_all.
      rewrite sumZ_app. cbn in Hb. rewrite (Hpot Hb).
      change (sumZ [0]) with 0. lia.
  - unfold chips, stacks. cbn. rewrite fmap_app, sumZ_app. cbn.
    change (sumZ [?x]) with (x + 0). lia.
Qed.

Lemma doShow_step id e : ledgerOk e → ledgerOk (doShow id e).2 ∧ chips (doShow id e).2 = chips e.
Proof.
  intros Hok. unfold doShow. destruct (findById id e) as [[i p]|]; [|done].
  destruct (negb _); [done|]. by destruct (hole p).
Qed.

Lemma doMuck_step id e : ledgerOk e → ledgerOk (doMuck id e).2 ∧ chips (doMuck id e).2 = chips e.
Proof.
  intros Hok. unfold doMuck. destruct (findById id e) as [[i p]|]; [|done].
  by destruct (negb _).
Qed.

Lemma playerAction_step id kind amount e ok e' :
  playerAction id kind amount e = Some (ok, e') →
  ledgerOk e → settled (OpAction id kind amount) e →
  ledgerOk e' ∧ chips e' = chips e.
Proof.
  unfold playerAction. intros H Hok Hset.
  destruct (applyAction id kind amount e) as [[ok1 e1|m]|] eqn:Happ; [| |done].
  - cbn [mbind option_bind] in H. injection H as <- <-.
    pose proof (applyAction_ledger _ _ _ _ _ Happ Hok).
    by apply applyAction_chips in Happ as [? _].
  - cbn [mbind option_bind] in H.
    destruct (closeRound m) as [e2|] eqn:Hcl; [|done].
    cbn [mbind option_bind] in H. injection H as <- <-.
    pose proof (applyAction_ledger _ _ _ _ _ Happ Hok) as Hokm.
    apply applyAction_chips in Happ as Hch. cbn in Hokm, Hch.
    destruct (closeRound_step _ _ Hcl Hokm) as [Hok2 Hch2].
    split; [done|]. rewrite Hch2; [done|]. apply Hset. exact Happ.
Qed.

(** a settled step leaves on the table the chips that were there, plus
    the chips it buys in *)
Lemma step_conserves op e e' :
  step op e = Some e' → ledgerOk e → settled op e →
  ledgerOk e' ∧ chips e' = chips e + buyIn op e.
Proof.
  destruct op as [id name stack owner|id|sb bb|rnd|id kind amount|id|id];
    cbn [step]; intros H Hok Hset.
  - injection H as <-. by apply addPlayer_step.
  - done.
  - injection H as <-. cbn [buyIn]. rewrite Z.add_0_r. split; [exact Hok|reflexivity].
  - cbn [buyIn]. rewrite Z.add_0_r.
    destruct (startHand_step _ _ _ H Hok) as [? Hch]. split; [done|]. by apply Hch.
  - cbn [buyIn]. rewrite Z.add_0_r.
    destruct (playerAction id kind amount e) as [[ok e1]|] eqn:Hp; [|done].
    injection H as <-. by eapply playerAction_step.
  - injection H as <-. cbn [buyIn]. rewrite Z.add_0_r. by apply doShow_step.
  - injection H as <-. cbn [buyIn]. rewrite Z.add_0_r. by apply doMuck_step.
Qed.

Lemma runBought_conserves ops e0 b0 e b :
  runBought ops e0 b0 = Some (e, b) → ledgerOk e0 → settledRun ops e0 →
  ledgerOk e ∧ chips e - b = chips e0 - b0.
Proof.
  revert e0 b0. induction ops as [|op ops IH]; intros e0 b0.
  - cbn. intros [= <- <-]. done.
  - cbn [runBought settledRun]. intros H Hok [Hset Hrest].
    destruct (step op e0) as [e1|] eqn:Hstep; [|done].
    cbn [mbind option_bind] in H.
    destruct (step_conserves _ _ _ Hstep Hok Hset) as [Hok1 Hch1].
    apply IH in H as [Hok' Hch']; [|done|by apply Hrest].
    split; [done|]. lia.
Qed.

Lemma ledgerOk_new code : ledgerOk (newEngine code).
Proof. split; [done|]. split; [constructor|]. done. Qed.

(** [resolveShowdown] keeps the side pots it paid in [state.pots]: after
    the showdown of a checked-down heads-up hand the stacks hold all 200
    chips bought in, the pot is empty, and the side pot of 4 is still
    listed, so that stacks, pot and side pots add up to 204 *)
Lemma side_pots_counted_twice :
  (∃ e, runBought checkedDownOps (newEngine "room") 0 = Some (e, 200)
        ∧ stage (state e) = showdown
        ∧ sumZ (stacks e) = 200
        ∧ pot (state e) = 0
        ∧ pots (state e) = [mkSidePot 4 [0; 1]])
  ∧ ¬ chips_conserved_with_side_pots.
Proof.
  destruct (runBought checkedDownOps (newEngine "room") 0) as [[e b]|] eqn:Hrun;
    [|vm_compute in Hrun; discriminate Hrun].
  split.
  - exists e. vm_compute in Hrun. injection Hrun as <- <-.
    repeat split; reflexivity.
  - intros H. specialize (H _ _ _ Hrun). vm_compute in Hrun. injection Hrun as <- <-.
    vm_compute in H. discriminate H.
Qed.

(** X25. Where chips are conserved.  For every sequence of [addPlayer],
    [setBlinds], [startHand], [playerAction], [doShow] and [doMuck] calls on
    a fresh table in which nobody leaves, a hand is only started over an
    empty pot and each showdown finds a claimant for every side pot, the
    stacks and the pot add up to the chips bought in.  In such a state the
    side pots add up to the ledger [totalBets], which during betting equals
    the pot; [commitChips] moves chips from a stack to the pot without
    changing the total; and [resolveShowdown] leaves the pot empty and
    records the side pots it paid. *)
Theorem chips_conserved code ops e b :
  runBought ops (newEngine code) 0 = Some (e, b) →
  settledRun ops (newEngine code) →
  sumZ (stacks e) + pot (state e) = b
  ∧ sumZ (amount <$> buildSidePots e) = sumZ (totalBets e)
  ∧ (isBetting (stage (state e)) = true → sumZ (totalBets e) = pot (state e))
  ∧ (∀ seat amt pay e',
       commitChips seat amt e = Some (pay, e') → chips e' = chips e)
  ∧ (∀ e', resolveShowdown e = Some e' →
       pot (state e') = 0 ∧ pots (state e') = buildSidePots e).
Proof.
  intros Hrun Hset.
  destruct (runBought_conserves _ _ _ _ _ Hrun (ledgerOk_new code) Hset)
    as [(Hlen & Hpos & Hpot) Hch].
  change (chips (newEngine code)) with 0 in Hch.
  split; [unfold chips in Hch; lia|]. split.
  { rewrite (Layering_sum _ _ _ (buildSidePots_Layering e Hlen)).
    by rewrite !(fmap_max0_nonneg _ Hpos). }
  split; [intros Hb; by rewrite Hpot|]. split.
  - intros seat amt pay e' Hc. by apply commitChips_spec in Hc as (_&_&_&_&?&_).
  - intros e' Hr. by apply resolveShowdown_spec in Hr as (? & ? & _).
Qed.

Ltac settle_step :=
  lazymatch goal with
  | |- settledRun [] _ => exact I
  | |- settledRun (_ :: _) _ =>
      split;
      [ first
          [ exact I
          | reflexivity
          | let m := fresh "m" in
            let Hm := fresh "Hm" in
            let Hr := fresh "Hr" in
            let Hev := fresh "Hev" in
            intros m Hm Hr Hev; vm_compute in Hm;
            first [discriminate Hm | injection Hm as <-];
            first [discriminate Hr | discriminate Hev
                  | right; vm_compute; repeat constructor ] ]
      | let e' := fresh "e" in
        let He := fresh "He" in
        intros e' He; vm_compute in He; injection He as <- ]
  end.

Lemma chips_conserved_witness :
  ∃ e, runBought checkedDownOps (newEngine "room") 0 = Some (e, 200)
       ∧ sumZ (stacks e) + pot (state e) = 200.
Proof.
  destruct (runBought checkedDownOps (newEngine "room") 0) as [[e b]|] eqn:Hrun;
    [|vm_compute in Hrun; discriminate Hrun].
  assert (settledRun checkedDownOps (newEngine "room")) as Hset.
  { unfold checkedDownOps, headsUpOps. cbn [app]. repeat settle_step. }
  destruct (chips_conserved "room" checkedDownOps e b Hrun Hset) as [Hch _].
  exists e. vm_compute in Hrun. injection Hrun as <- <-. split; [reflexivity|exact Hch].
Defined.

(** C1.  Chips are lost at a showdown.  Ann (100 chips) posts the big blind
    of 2 against Bob and Cid, who are all-in for their single chip; she
    checks to the river and folds.  The showdown between Bob and Cid builds
    a side pot of 3 for seats 1 and 2 and a side pot of 1, Ann's second
    chip, for which no seat is eligible; that pot is passed over and the
    pot is then set to zero.  Of the 102 chips bought in 101 are left:
    stacks 98, 3 and 0, pot 0; with the side pots still listed, the sum of
    the claim is 105. *)
Theorem chips_lost_to_unclaimed_pot :
  ∃ e, runBought strandedChipOps (newEngine "room") 0 = Some (e, 102)
     ∧ stage (state e) = showdown
     ∧ stacks e = [98; 3; 0]
     ∧ pot (state e) = 0
     ∧ pots (state e) = [mkSidePot 3 [1; 2]; mkSidePot 1 []]
     ∧ sumZ (stacks e) + pot (state e) = 101
     ∧ sumZ (stacks e) + pot (state e) + sumZ (amount <$> pots (state e)) = 105.
Proof.
  destruct (runBought strandedChipOps (newEngine "room") 0) as [[e b]|] eqn:Hrun;
    [|vm_compute in Hrun; discriminate Hrun].
  exists e. vm_compute in Hrun. injection Hrun as <- <-.
  repeat split; reflexivity.
Qed.

(** ** Views and seating *)

Lemma samePublicPlayer_view e1 e2 p q :
  publicReveals e1 = publicReveals e2 → samePublicPlayer p q →
  playerView e1 p = playerView e2 q.
Proof.
  intros Hpr [Hpub Hcount]. unfold playerView, publicHoleOf. rewrite Hpr.
  fold (holeCount p). fold (holeCount q). rewrite Hcount.
  destruct p, q. cbn in *. by simplify_eq.
Qed.

(** C9. Broadcast-view secrecy: the view is made of the public table
    fields, the side pots, the reveal-eligible seats, the winners, the log
    and, for each player, the public fields, the number of hole cards and
    the publicly revealed cards.  Two states that differ only in the deck and
    in the hole cards held (the same number of them, the same public
    reveals) have the same broadcast view. *)
Theorem broadcast_view_hides_cards e1 e2 :
  samePublic e1 e2 → getBroadcastView e1 = getBroadcastView e2.
Proof.
  intros (Hst & Hps & Hsb & Htb & Hpr & Hrs & Hlog).
  unfold getBroadcastView. cbv zeta.
  pose proof (f_equal code Hst) as H1. pose proof (f_equal stage Hst) as H2.
  pose proof (f_equal dealerSeat Hst) as H3. pose proof (f_equal smallBlind Hst) as H4.
  pose proof (f_equal bigBlind Hst) as H5. pose proof (f_equal currentBet Hst) as H6.
  pose proof (f_equal minRaise Hst) as H7. pose proof (f_equal pot Hst) as H8.
  pose proof (f_equal community Hst) as H9. pose proof (f_equal turnSeat Hst) as H10.
  pose proof (f_equal lastAggressorSeat Hst) as H11.
  pose proof (f_equal message Hst) as H12. pose proof (f_equal lastWinners Hst) as H13.
  cbn in H1, H2, H3, H4, H5, H6, H7, H8, H9, H10, H11, H12, H13.
  rewrite H1, H2, H3, H4, H5, H6, H7, H8, H9, H10, H11, H12, H13, Hrs, Hlog.
  assert (playerView e1 <$> players (state e1) = playerView e2 <$> players (state e2)) as ->.
  { induction Hps as [|p q ps qs Hpq _ IH]; [done|].
    rewrite !fmap_cons, IH. f_equal. by apply samePublicPlayer_view. }
  rewrite (buildSidePots_ext e1 e2); [done| |done].
  induction Hps as [|p q ps qs [Hpq _] _ IH]; [done|].
  rewrite !fmap_cons, IH. f_equal. by apply (f_equal inHand) in Hpq.
Qed.

(** C10. A successful [addPlayer] seats the new player last, with the stack
    [max(1, floor(requested))]: at least one chip, whatever was requested. *)
Theorem addPlayer_min_stack id name (requested : Q) owner e e' :
  addPlayer id name requested owner e = (true, e') →
  ∃ p, players (state e') = players (state e) ++ [p]
     ∧ stack p = Z.max 1 (Qfloor requested)
     ∧ 1 ≤ stack p
     ∧ PokerEngine.id p = id ∧ PokerEngine.name p = name
     ∧ seat p = Z.of_nat (length (players (state e)))
     ∧ (length (players (state e)) < MAX_PLAYERS)%nat.
Proof.
  unfold addPlayer. cbv zeta.
  destruct (Nat.leb_spec MAX_PLAYERS (length (players (state e)))); [done|].
  destruct (existsb _ _); [done|].
  intros [= <-]. eexists. split; [reflexivity|]. cbn. repeat split; try done. lia.
Qed.

Lemma addPlayer_min_stack_witness :
  ∃ p, players (state (addPlayer "z" "Zed" (-7 # 2) false (newEngine "room")).2) = [p]
     ∧ stack p = 1.
Proof.
  destruct (addPlayer_min_stack "z" "Zed" (-7 # 2) false (newEngine "room")
              (addPlayer "z" "Zed" (-7 # 2) false (newEngine "room")).2 eq_refl)
    as (p & Hp & Hs & _).
  exists p. split; [exact Hp|exact Hs].
Defined.

(** ** Facts about the evaluator *)

Lemma map_perm_of_get {K V} `{EqDecision K} (m m' : list (K * V)) :
  NoDup m.*1 → NoDup m'.*1 → (∀ k, map_get m k = map_get m' k) → m ≡ₚ m'.
Proof.
  intros Hnd Hnd' Hget. apply NoDup_Permutation.
  - by eapply NoDup_fmap_1.
  - by eapply NoDup_fmap_1.
  - intros [k v]. split; intros Hin.
    + apply map_get_Some_elem. rewrite <- Hget. by apply map_elem_get.
    + apply map_get_Some_elem. rewrite Hget. by apply map_elem_get.
Qed.

Lemma countsByRank_snoc cards c :
  countsByRank (cards ++ [c])
  = map_set (countsByRank cards) (rank c)
            (default 0 (map_get (countsByRank cards) (rank c)) + 1).
Proof. unfold countsByRank. by rewrite foldl_snoc. Qed.

Lemma countRank_snoc r cards c :
  countRank r (cards ++ [c]) = countRank r cards + (if decide (rank c = r) then 1 else 0).
Proof.
  unfold countRank. rewrite filter_app, length_app, filter_cons, filter_nil.
  case_decide; simpl; lia.
Qed.

Lemma countRank_nonneg r cards : 0 ≤ countRank r cards.
Proof. unfold countRank. lia. Qed.

Lemma countsByRank_spec cards :
  NoDup (countsByRank cards).*1
  ∧ ∀ r, map_get (countsByRank cards) r
         = if decide (countRank r cards = 0) then None else Some (countRank r cards).
Proof.
  induction cards as [|c cards [IHnd IHget]] using rev_ind.
  - split; [constructor|]. intros r. done.
  - rewrite countsByRank_snoc. split; [by apply map_set_NoDup|].
    intros r. rewrite map_get_set, countRank_snoc, !IHget.
    pose proof (countRank_nonneg r cards).
    pose proof (countRank_nonneg (rank c) cards).
    destruct (decide (rank c = r)) as [->|Hne].
    + rewrite (decide_False (P := countRank r cards + 1 = 0)) by lia.
      case_decide as Hz; simpl; f_equal; lia.
    + rewrite Z.add_0_r. done.
Qed.

Lemma countRank_perm r cards cards' :
  cards ≡ₚ cards' → countRank r cards = countRank r cards'.
Proof. intros H. unfold countRank. by rewrite H. Qed.

Lemma countsByRank_perm cards cards' :
  cards ≡ₚ cards' → countsByRank cards ≡ₚ countsByRank cards'.
Proof.
  intros H.
  destruct (countsByRank_spec cards) as [Hnd Hget].
  destruct (countsByRank_spec cards') as [Hnd' Hget'].
  apply map_perm_of_get; [done..|].
  intros r. by rewrite Hget, Hget', (countRank_perm r _ _ H).
Qed.

Lemma suitsOf_snoc cards c :
  suitsOf (cards ++ [c])
  = map_set (suitsOf cards) (suit c)
            (default [] (map_get (suitsOf cards) (suit c)) ++ [c]).
Proof. unfold suitsOf. by rewrite foldl_snoc. Qed.

Lemma suitsOf_spec cards :
  NoDup (suitsOf cards).*1
  ∧ ∀ s, map_get (suitsOf cards) s
         = match ofSuit s cards with [] => None | l => Some l end.
Proof.
  induction cards as [|c cards [IHnd IHget]] using rev_ind.
  - split; [constructor|]. intros s. done.
  - rewrite suitsOf_snoc. split; [by apply map_set_NoDup|].
    intros s. rewrite map_get_set, !IHget. unfold ofSuit.
    rewrite filter_app, filter_cons, filter_nil.
    destruct (decide (suit c = s)) as [->|Hne].
    + rewrite ?decide_True by done.
      destruct (filter _ cards); done.
    + rewrite ?decide_False by done. by rewrite app_nil_r.
Qed.

Lemma flushSuitOf_Some suits s :
  flushSuitOf suits = Some s → ∃ arr, (s, arr) ∈ suits ∧ (5 ≤ length arr)%nat.
Proof.
  unfold flushSuitOf. induction suits as [|[s' arr] suits IH] using rev_ind; [done|].
  rewrite foldl_snoc. cbn [fst snd].
  destruct (Nat.leb_spec 5 (length arr)).
  - intros [= <-]. exists arr. split; [|done]. apply elem_of_app. right. left.
  - intros Hf. destruct (IH Hf) as (a & Ha & Hl). exists a. split; [|done].
    apply elem_of_app. by left.
Qed.

Lemma flushSuitOf_None suits :
  flushSuitOf suits = None → ∀ s arr, (s, arr) ∈ suits → (length arr < 5)%nat.
Proof.
  unfold flushSuitOf. induction suits as [|[s' arr'] suits IH] using rev_ind.
  - intros _ s arr []%elem_of_nil.
  - rewrite foldl_snoc. cbn [fst snd].
    destruct (Nat.leb_spec 5 (length arr')); [done|].
    intros Hf s arr [Hin|Hin%list_elem_of_singleton]%elem_of_app.
    + by eapply IH.
    + by simplify_eq.
Qed.

Lemma ofSuit_two (s s' : Suit) cards :
  s ≠ s' → (length (ofSuit s cards) + length (ofSuit s' cards) ≤ length cards)%nat.
Proof.
  intros Hne. unfold ofSuit. induction cards as [|c cards IH]; [done|].
  rewrite !filter_cons. repeat case_decide; simpl; try lia. congruence.
Qed.

(** with fewer than ten cards at most one suit can make a flush *)
Lemma flushSuitOf_spec cards s :
  (length cards < 10)%nat →
  flushSuitOf (suitsOf cards) = Some s ↔ (5 ≤ length (ofSuit s cards))%nat.
Proof.
  intros Hlen. destruct (suitsOf_spec cards) as [Hnd Hget].
  assert (∀ s arr, (s, arr) ∈ suitsOf cards → arr = ofSuit s cards) as Hent.
  { intros s0 arr Hin. apply (map_elem_get _ _ _ Hnd) in Hin.
    rewrite Hget in Hin. destruct (ofSuit s0 cards); by simplify_eq. }
  split.
  - intros (arr & Hin & Hl)%flushSuitOf_Some. by rewrite <- (Hent _ _ Hin).
  - intros Hl. destruct (flushSuitOf (suitsOf cards)) as [s'|] eqn:Hf.
    + apply flushSuitOf_Some in Hf as (arr & Hin & Hl').
      rewrite (Hent _ _ Hin) in Hl'.
      destruct (decide (s' = s)) as [->|Hne]; [done|].
      pose proof (ofSuit_two s' s cards Hne). lia.
    + exfalso.
      assert ((s, ofSuit s cards) ∈ suitsOf cards) as Hin.
      { apply map_get_Some_elem. rewrite Hget.
        destruct (ofSuit s cards); [simpl in Hl; lia|done]. }
      pose proof (flushSuitOf_None _ Hf _ _ Hin). lia.
Qed.

Lemma flushRanksOf_spec cards :
  (length cards < 10)%nat →
  flushRanksOf (suitsOf cards)
  = match flushSuitOf (suitsOf cards) with
    | Some s => Some (js_sort desc (rank <$> ofSuit s cards))
    | None => None
    end.
Proof.
  intros Hlen. unfold flushRanksOf.
  destruct (flushSuitOf (suitsOf cards)) as [s|] eqn:Hf; [|done].
  cbn. f_equal. f_equal. f_equal.
  apply flushSuitOf_spec in Hf; [|done].
  destruct (suitsOf_spec cards) as [_ Hget]. rewrite Hget.
  destruct (ofSuit s cards); [simpl in Hf; lia|done].
Qed.

Lemma flushRanksOf_perm cards cards' :
  (length cards < 10)%nat → cards ≡ₚ cards' →
  flushRanksOf (suitsOf cards) = flushRanksOf (suitsOf cards').
Proof.
  intros Hlen Hperm.
  assert (length cards' < 10)%nat as Hlen' by (by rewrite <- Hperm).
  assert (∀ s, ofSuit s cards ≡ₚ ofSuit s cards') as Hsuit
    by (intros s; unfold ofSuit; by rewrite Hperm).
  rewrite !flushRanksOf_spec by done.
  destruct (flushSuitOf (suitsOf cards)) as [s|] eqn:Hf.
  - apply flushSuitOf_spec in Hf; [|done].
    rewrite (Hsuit s) in Hf. apply flushSuitOf_spec in Hf; [|done]. rewrite Hf.
    f_equal. apply js_sort_perm_eq;
      [apply desc_total | apply desc_antisym | apply desc_trans |].
    by rewrite (Hsuit s).
  - destruct (flushSuitOf (suitsOf cards')) as [s'|] eqn:Hf'; [|done].
    apply flushSuitOf_spec in Hf'; [|done].
    rewrite <- (Hsuit s') in Hf'. apply flushSuitOf_spec in Hf'; [|done]. congruence.
Qed.

Lemma groupCmp_total x y : groupCmp x y ≤ 0 ∨ groupCmp y x ≤ 0.
Proof.
  unfold groupCmp.
  destruct (Z.eqb_spec y.2 x.2), (Z.eqb_spec x.2 y.2); simpl; lia.
Qed.

Lemma groupCmp_antisym x y : groupCmp x y ≤ 0 → groupCmp y x ≤ 0 → x = y.
Proof.
  unfold groupCmp. destruct x as [r c], y as [r' c']. simpl.
  destruct (Z.eqb_spec c' c), (Z.eqb_spec c c'); simpl; intros; f_equal; lia.
Qed.

Lemma groupCmp_trans x y z : groupCmp x y ≤ 0 → groupCmp y z ≤ 0 → groupCmp x z ≤ 0.
Proof.
  unfold groupCmp. destruct x as [r c], y as [r' c'], z as [r'' c'']. simpl.
  destruct (Z.eqb_spec c' c), (Z.eqb_spec c'' c'), (Z.eqb_spec c'' c); simpl; lia.
Qed.

(** the evaluation does not depend on the order of the cards *)
Lemma rank7_perm cards cards' :
  (length cards < 10)%nat → cards ≡ₚ cards' → rank7 cards = rank7 cards'.
Proof.
  intros Hlen Hperm. unfold rank7. cbv zeta.
  pose proof (countsByRank_perm _ _ Hperm) as Hc.
  rewrite (flushRanksOf_perm _ _ Hlen Hperm).
  rewrite (js_sort_perm_eq groupCmp groupCmp_total groupCmp_antisym groupCmp_trans _ _ Hc).
  rewrite (js_sort_perm_eq desc desc_total desc_antisym desc_trans
             (countsByRank cards).*1 (countsByRank cards').*1); [done|].
  by rewrite Hc.
Qed.

(** C7. Evaluator order-invariance: [rank7] gives the same category and the
    same tie-break sequence for a 7-card list and for any permutation of
    it. *)
Theorem rank7_order_invariant cards cards' :
  length cards = 7%nat → cards ≡ₚ cards' →
  category (rank7 cards) = category (rank7 cards')
  ∧ tiebreak (rank7 cards) = tiebreak (rank7 cards')
  ∧ rank7 cards = rank7 cards'.
Proof.
  intros Hlen Hperm.
  assert (rank7 cards = rank7 cards') as H by (apply rank7_perm; [lia|done]).
  by rewrite H.
Qed.

(** *** Straight detection *)

Lemma set_of_list_snoc {A} `{EqDecision A} (l : list A) x :
  set_of_list (l ++ [x]) = set_add (set_of_list l) x.
Proof. unfold set_of_list. by rewrite foldl_snoc. Qed.

Lemma set_of_list_spec {A} `{EqDecision A} (l : list A) :
  NoDup (set_of_list l) ∧ ∀ x, x ∈ set_of_list l ↔ x ∈ l.
Proof.
  induction l as [|y l [IHnd IHin]] using rev_ind.
  - split; [constructor|done].
  - rewrite set_of_list_snoc. unfold set_add. case_decide as Hy.
    + split; [done|]. intros x. rewrite elem_of_app, list_elem_of_singleton, IHin.
      split; [tauto|]. intros [?| ->]; [done|]. by apply IHin.
    + split.
      * apply NoDup_app. split; [done|]. split; [|apply NoDup_singleton].
        intros x Hx ->%list_elem_of_singleton. done.
      * intros x. by rewrite !elem_of_app, IHin.
Qed.

Lemma js_sort_desc_sorted l :
  StronglySorted (λ a b, b ≤ a) l → js_sort desc l = l.
Proof.
  induction 1 as [|x l Hs IH Hall]; [done|].
  simpl. rewrite IH. destruct l as [|y l]; [done|]. simpl.
  apply Forall_cons in Hall as [Hy _]. unfold desc.
  destruct (Z.leb_spec (y - x) 0); [done|lia].
Qed.

Lemma StronglySorted_filter_list {A} (R : A → A → Prop) (P : A → Prop)
  `{∀ x, Decision (P x)} l :
  StronglySorted R l → StronglySorted R (filter P l).
Proof.
  induction 1 as [|x l Hs IH Hall]; [constructor|].
  rewrite filter_cons. case_decide; [|done].
  constructor; [done|]. apply Forall_forall. intros y [_ Hy]%list_elem_of_filter.
  by eapply Forall_forall in Hall.
Qed.

Lemma allRanks_sorted : StronglySorted (λ a b, b ≤ a) allRanks.
Proof. unfold allRanks. repeat (constructor; [|repeat constructor; lia]). constructor. Qed.

Lemma allRanks_NoDup : NoDup allRanks.
Proof. unfold allRanks. repeat (constructor; [set_solver|]). constructor. Qed.

Lemma elem_of_allRanks r : r ∈ allRanks ↔ validRank r.
Proof.
  unfold allRanks, validRank. rewrite !elem_of_cons, elem_of_nil. lia.
Qed.

(** the deduplicated, sorted ranks of [isStraight] *)
Lemma sorted_ranks_canonical ranks :
  Forall validRank ranks →
  js_sort desc (set_of_list ranks) = filter (λ r, r ∈ ranks) allRanks.
Proof.
  intros Hvalid. destruct (set_of_list_spec ranks) as [Hnd Hin].
  rewrite <- (js_sort_desc_sorted (filter _ allRanks)).
  - apply js_sort_perm_eq; [apply desc_total|apply desc_antisym|apply desc_trans|].
    apply NoDup_Permutation; [done|apply NoDup_filter, allRanks_NoDup|].
    intros r. rewrite Hin, list_elem_of_filter, elem_of_allRanks.
    split; [|tauto]. intros Hr. split; [done|].
    by eapply Forall_forall in Hvalid.
  - apply StronglySorted_filter_list, allRanks_sorted.
Qed.

Lemma filter_in_sublists {A} (P : A → Prop) `{∀ x, Decision (P x)} l :
  filter P l ∈ sublists l.
Proof.
  induction l as [|x l IH]; simpl; [set_solver|].
  rewrite filter_cons, elem_of_app. case_decide; [left|by right].
  by apply list_elem_of_fmap_2.
Qed.

Lemma straightHighOf_ext mem mem' :
  (∀ r, 1 ≤ r ≤ 14 → mem r = mem' r) → straightHighOf mem = straightHighOf mem'.
Proof.
  intros Hmem. unfold straightHighOf, runBelow, present. cbn.
  rewrite !Hmem by lia. done.
Qed.

(** On every set of ranks of a deck, the loop of [isStraight] finds what
    the specification describes. *)
Lemma isStraight_sublists :
  forallb (λ sub, bool_decide (isStraight sub = straightHigh sub))
          (sublists allRanks) = true.
Proof. vm_compute. reflexivity. Qed.

Lemma isStraight_spec ranks :
  Forall validRank ranks → isStraight ranks = straightHigh ranks.
Proof.
  intros Hvalid.
  set (sub := filter (λ r, r ∈ ranks) allRanks).
  assert (∀ r, r ∈ sub ↔ r ∈ ranks) as Hsub.
  { intros r. unfold sub. rewrite list_elem_of_filter, elem_of_allRanks.
    split; [tauto|]. intros Hr. split; [done|]. by eapply Forall_forall in Hvalid. }
  assert (Forall validRank sub) as Hvalid'.
  { apply Forall_forall. intros r [_ Hr]%list_elem_of_filter. by apply elem_of_allRanks. }
  assert (isStraight ranks = isStraight sub) as ->.
  { unfold isStraight.
    rewrite (sorted_ranks_canonical ranks Hvalid), (sorted_ranks_canonical sub Hvalid').
    fold sub. f_equal.
    assert (filter (λ r, r ∈ sub) allRanks = sub) as ->; [|done].
    unfold sub at 2. apply list_filter_iff. intros r. apply Hsub. }
  assert (straightHigh ranks = straightHigh sub) as ->.
  { apply straightHighOf_ext. intros r _. apply bool_decide_ext. by rewrite Hsub. }
  pose proof isStraight_sublists as Hall.
  rewrite forallb_forall in Hall.
  specialize (Hall sub). rewrite bool_decide_eq_true in Hall. apply Hall.
  apply list_elem_of_In. apply filter_in_sublists.
Qed.

(** *** The wheel *)

Lemma countsByRank_ranks cards cards' :
  rank <$> cards = rank <$> cards' → countsByRank cards = countsByRank cards'.
Proof.
  intros Hr. unfold countsByRank.
  rewrite <- !(foldl_fmap (λ m r, map_set m r (default 0 (map_get m r) + 1)) _ _ rank).
  by rewrite Hr.
Qed.

Lemma no_flush cards :
  (length cards < 10)%nat →
  (∀ s, (length (ofSuit s cards) < 5)%nat) →
  flushRanksOf (suitsOf cards) = None.
Proof.
  intros Hlen Hno. rewrite flushRanksOf_spec by done.
  destruct (flushSuitOf (suitsOf cards)) as [s|] eqn:Hf; [|done].
  apply flushSuitOf_spec in Hf; [|done]. specialize (Hno s). lia.
Qed.

(** without a flush the evaluation depends on the ranks only *)
Lemma rank7_ranks_only cards cards' :
  rank <$> cards = rank <$> cards' →
  flushRanksOf (suitsOf cards) = None → flushRanksOf (suitsOf cards') = None →
  rank7 cards = rank7 cards'.
Proof.
  intros Hr Hf Hf'. unfold rank7. cbv zeta.
  by rewrite Hf, Hf', (countsByRank_ranks _ _ Hr).
Qed.

Lemma take_card r (cards : list Card) :
  r ∈ rank <$> cards → ∃ c rest, rank c = r ∧ cards ≡ₚ c :: rest.
Proof.
  intros (c & -> & Hc)%list_elem_of_fmap.
  apply elem_of_Permutation in Hc as [rest Hrest]. by exists c, rest.
Qed.

Lemma wheelPlus_rank7 rx ry :
  validRank rx → validRank ry → rx ≠ 6 → ry ≠ 6 →
  rank7 (wheelPlus rx ry) = mkRank 4 [Some 5]
  ∧ flushRanksOf (suitsOf (wheelPlus rx ry)) = None.
Proof.
  unfold validRank. intros Hx Hy Hx6 Hy6.
  assert (rx ∈ allRanks) as Hrx by (by apply elem_of_allRanks).
  assert (ry ∈ allRanks) as Hry by (by apply elem_of_allRanks).
  unfold allRanks in Hrx, Hry.
  rewrite !elem_of_cons, elem_of_nil in Hrx, Hry.
  destruct Hrx as [->|[->|[->|[->|[->|[->|[->|[->|[->|[->|[->|[->|[->|[]]]]]]]]]]]]]];
    try done;
  destruct Hry as [->|[->|[->|[->|[->|[->|[->|[->|[->|[->|[->|[->|[->|[]]]]]]]]]]]]]];
    try done; split; vm_compute; reflexivity.
Qed.

Lemma wheel_rank7 cards :
  length cards = 7%nat →
  Forall (λ c, validRank (rank c)) cards →
  (∀ r, r ∈ [14; 2; 3; 4; 5] → r ∈ rank <$> cards) →
  6 ∉ rank <$> cards →
  (∀ s, (length (ofSuit s cards) < 5)%nat) →
  rank7 cards = mkRank 4 [Some 5].
Proof.
  intros Hlen Hvalid Hwheel Hsix Hsuits.
  destruct (take_card 14 cards) as (cA & r1 & HA & P1); [apply Hwheel; set_solver|].
  destruct (take_card 2 r1) as (c2 & r2 & H2 & P2).
  { assert (2 ∈ rank <$> cards) as Hin by (apply Hwheel; set_solver).
    rewrite P1, fmap_cons, elem_of_cons in Hin. destruct Hin as [?|?]; [lia|done]. }
  destruct (take_card 3 r2) as (c3 & r3 & H3 & P3).
  { assert (3 ∈ rank <$> cards) as Hin by (apply Hwheel; set_solver).
    rewrite P1, P2, !fmap_cons, !elem_of_cons in Hin.
    destruct Hin as [?|[?|?]]; [lia..|done]. }
  destruct (take_card 4 r3) as (c4 & r4 & H4 & P4).
  { assert (4 ∈ rank <$> cards) as Hin by (apply Hwheel; set_solver).
    rewrite P1, P2, P3, !fmap_cons, !elem_of_cons in Hin.
    destruct Hin as [?|[?|[?|?]]]; [lia..|done]. }
  destruct (take_card 5 r4) as (c5 & r5 & H5 & P5).
  { assert (5 ∈ rank <$> cards) as Hin by (apply Hwheel; set_solver).
    rewrite P1, P2, P3, P4, !fmap_cons, !elem_of_cons in Hin.
    destruct Hin as [?|[?|[?|[?|?]]]]; [lia..|done]. }
  assert (cards ≡ₚ cA :: c2 :: c3 :: c4 :: c5 :: r5) as Hperm
    by (by rewrite P1, P2, P3, P4, P5).
  assert (length r5 = 2%nat) as Hr5 by (rewrite Hperm in Hlen; simpl in Hlen; lia).
  destruct r5 as [|x [|y [|? ?]]]; try done.
  assert (length cards < 10)%nat as Hlt by lia.
  rewrite (rank7_perm _ _ Hlt Hperm).
  assert (validRank (rank x) ∧ validRank (rank y)) as [Hx Hy].
  { rewrite Hperm in Hvalid. rewrite !Forall_cons in Hvalid. tauto. }
  assert (rank x ≠ 6 ∧ rank y ≠ 6) as [Hx6 Hy6].
  { rewrite Hperm in Hsix. rewrite !fmap_cons, !not_elem_of_cons in Hsix.
    split; intros E; rewrite E in Hsix; tauto. }
  destruct (wheelPlus_rank7 (rank x) (rank y) Hx Hy Hx6 Hy6) as [<- Hnf].
  apply rank7_ranks_only; [|apply no_flush|done].
  - simpl. by rewrite HA, H2, H3, H4, H5.
  - simpl; lia.
  - intros s. unfold ofSuit. rewrite <- Hperm. apply Hsuits.
Qed.

(** C6, as stated, fails when one of the two other cards is a six: the
    ranks A-2-3-4-5-6 hold a six-high straight, which is no higher
    category than the wheel, and [rank7] reports its top rank 6. *)
Lemma wheel_with_six_is_six_high :
  rank7 [mkCard 14 Clubs; mkCard 2 Diamonds; mkCard 3 Hearts; mkCard 4 Spades;
         mkCard 5 Clubs; mkCard 6 Diamonds; mkCard 9 Hearts]
  = mkRank 4 [Some 6]
  ∧ ¬ wheel_always_five_high.
Proof.
  split; [vm_compute; reflexivity|].
  intros Hclaim.
  specialize (Hclaim (wheelPlus 6 9)).
  assert (rank7 (wheelPlus 6 9) = mkRank 4 [Some 6]) as Hsix
    by (vm_compute; reflexivity).
  rewrite Hsix in Hclaim.
  discriminate Hclaim.
  - reflexivity.
  - unfold wheelPlus, validRank. repeat constructor; simpl; lia.
  - intros r Hr. vm_compute. set_solver.
  - intros []; vm_compute; lia.
  - simpl. lia.
Qed.

(** C6 (amended). Wheel straight: for every 7-card input of deck ranks
    that contains the ranks A, 2, 3, 4, 5, holds no card of rank 6 and has
    no suit with five cards or more, [rank7] returns category 4 (Straight)
    with the single tie-break value 5, not 14; and on deck ranks the straight
    detection [isStraight] returns what the specification describes: with
    duplicates ignored and an Ace also counted as rank 1, the top rank of
    the highest run of five consecutive ranks, or nothing. *)
Theorem wheel_straight cards :
  length cards = 7%nat →
  Forall (λ c, validRank (rank c)) cards →
  (∀ r, r ∈ [14; 2; 3; 4; 5] → r ∈ rank <$> cards) →
  6 ∉ rank <$> cards →
  (∀ s, (length (ofSuit s cards) < 5)%nat) →
  rank7 cards = mkRank 4 [Some 5]
  ∧ (∀ ranks, Forall validRank ranks → isStraight ranks = straightHigh ranks).
Proof.
  intros Hlen Hvalid Hwheel Hsix Hsuits.
  split; [by apply wheel_rank7|apply isStraight_spec].
Qed.

Lemma wheel_straight_witness :
  rank7 (wheelPlus 9 13) = mkRank 4 [Some 5]
  ∧ isStraight [14; 5; 4; 3; 2] = straightHigh [14; 5; 4; 3; 2].
Proof.
  destruct (wheel_straight (wheelPlus 9 13)) as (H1 & H2).
  - reflexivity.
  - unfold wheelPlus, validRank. repeat constructor; simpl; lia.
  - intros r Hr. vm_compute. set_solver.
  - vm_compute. set_solver.
  - intros []; vm_compute; lia.
  - split; [exact H1|]. apply H2. unfold validRank. repeat constructor; lia.
Defined.

Lemma rank7_order_invariant_witness :
  rank7 (wheelPlus 9 13) = rank7 (reverse (wheelPlus 9 13)).
Proof.
  destruct (rank7_order_invariant (wheelPlus 9 13) (reverse (wheelPlus 9 13)))
    as (_ & _ & H).
  - reflexivity.
  - symmetry. apply reverse_Permutation.
  - exact H.
Defined.

Lemma raise_request_clamped_witness :
  raiseTarget (Some 3%Q) headsUp = 4
  ∧ ∃ m, applyAction "a" KRaise (Some 3%Q) headsUp = Some (Applied m)
       ∧ pot (state m) = 6.
Proof.
  edestruct (raise_request_clamped "a" (Some 3%Q) headsUp) as (H1 & _ & H3 & _).
  - vm_compute; reflexivity.
  - vm_compute; reflexivity.
  - reflexivity.
  - reflexivity.
  - reflexivity.
  - vm_compute; reflexivity.
  - split.
    + rewrite H1; [reflexivity|]. vm_compute. discriminate.
    + destruct H3 as (m & Hm & _ & Hpot & _); [vm_compute; reflexivity..|].
      exists m. split; [exact Hm|]. rewrite Hpot. vm_compute. reflexivity.
Defined.

Lemma fold_to_one_witness :
  ∃ e', playerAction "a" KFold None headsUp = Some (true, e')
      ∧ stage (state e') = showdown
      ∧ pot (state e') = 0
      ∧ revealSeats e' = [1].
Proof.
  edestruct (fold_to_one "a" None headsUp) as (j & winner & e' & Hplay & Hj & Hin & Huniq & H).
  - vm_compute; reflexivity.
  - vm_compute; reflexivity.
  - reflexivity.
  - reflexivity.
  - reflexivity.
  - vm_compute; reflexivity.
  - destruct H as (_ & _ & Hpot & Hstage & _ & _ & Hrev & _).
    exists e'. split; [exact Hplay|]. split; [exact Hstage|]. split; [exact Hpot|].
    rewrite Hrev.
    assert (j = 1%nat) as -> by (symmetry; eapply (Huniq 1%nat); vm_compute; reflexivity).
    vm_compute in Hj. injection Hj as <-. reflexivity.
Defined.

Lemma broadcast_view_hides_cards_witness :
  getBroadcastView headsUp = getBroadcastView headsUpReshuffled
  ∧ deck (state headsUp) ≠ deck (state headsUpReshuffled)
  ∧ (hole <$> players (state headsUp)) ≠ (hole <$> players (state headsUpReshuffled)).
Proof.
  split; [|split; intros H; vm_compute in H; discriminate H].
  apply broadcast_view_hides_cards.
  vm_compute. repeat split. repeat constructor.
Defined.

(** ** The evaluator beyond the claims *)

Lemma compareFrom_tieAt ta tb i steps :
  compareFrom ta tb (i :: steps)
  = if tieAt ta i =? tieAt tb i then compareFrom ta tb steps
    else tieAt ta i - tieAt tb i.
Proof. simpl. unfold tieAt. by destruct (_ =? _). Qed.

Lemma compareFrom_flip ta tb steps :
  compareFrom tb ta steps = - compareFrom ta tb steps.
Proof.
  induction steps as [|i steps IH]; [done|].
  rewrite !compareFrom_tieAt, IH.
  destruct (Z.eqb_spec (tieAt ta i) (tieAt tb i)), (Z.eqb_spec (tieAt tb i) (tieAt ta i)); lia.
Qed.

Lemma compareFrom_refl t steps : compareFrom t t steps = 0.
Proof.
  induction steps as [|i steps IH]; [done|].
  by rewrite compareFrom_tieAt, Z.eqb_refl.
Qed.

Lemma compareFrom_app ta tb l1 l2 :
  compareFrom ta tb (l1 ++ l2)
  = if compareFrom ta tb l1 =? 0 then compareFrom ta tb l2 else compareFrom ta tb l1.
Proof.
  induction l1 as [|i l1 IH]; [done|].
  rewrite <- app_comm_cons, !compareFrom_tieAt.
  destruct (Z.eqb_spec (tieAt ta i) (tieAt tb i)) as [|Hne]; [done|].
  destruct (Z.eqb_spec (tieAt ta i - tieAt tb i) 0); [lia|done].
Qed.

Lemma compareFrom_same ta tb steps :
  Forall (λ i, tieAt ta i = tieAt tb i) steps → compareFrom ta tb steps = 0.
Proof.
  induction 1 as [|i steps Hi _ IH]; [done|].
  rewrite compareFrom_tieAt, Hi, Z.eqb_refl. done.
Qed.

Lemma tieAt_beyond t i : (length t ≤ i)%nat → tieAt t i = 0.
Proof. intros H. unfold tieAt. by rewrite lookup_ge_None_2. Qed.

(** running the loop past the end of both lists changes nothing *)
Lemma compareFrom_longer ta tb n :
  (Nat.max (length ta) (length tb) ≤ n)%nat →
  compareFrom ta tb (seq 0 n)
  = compareFrom ta tb (seq 0 (Nat.max (length ta) (length tb))).
Proof.
  intros Hn. set (m := Nat.max (length ta) (length tb)) in *.
  replace n with (m + (n - m))%nat by lia.
  rewrite seq_app, compareFrom_app.
  rewrite (compareFrom_same ta tb (seq (0 + m) (n - m))).
  - by destruct (_ =? 0) eqn:E; [apply Z.eqb_eq in E|].
  - apply Forall_forall. intros i Hi%elem_of_seq.
    rewrite !tieAt_beyond by lia. done.
Qed.

Lemma compareFrom_trans ta tb tc steps :
  0 ≤ compareFrom ta tb steps → 0 ≤ compareFrom tb tc steps →
  0 ≤ compareFrom ta tc steps
  ∧ (0 < compareFrom ta tb steps ∨ 0 < compareFrom tb tc steps →
     0 < compareFrom ta tc steps).
Proof.
  induction steps as [|i steps IH]; [simpl; lia|].
  rewrite !compareFrom_tieAt.
  destruct (Z.eqb_spec (tieAt ta i) (tieAt tb i)),
           (Z.eqb_spec (tieAt tb i) (tieAt tc i)),
           (Z.eqb_spec (tieAt ta i) (tieAt tc i)); first [apply IH | lia].
Qed.

(** [compare] through the loop run to a common bound *)
Lemma compare_unfold a b n :
  (Nat.max (length (tiebreak (rank7 a))) (length (tiebreak (rank7 b))) ≤ n)%nat →
  compare a b
  = if category (rank7 a) =? category (rank7 b)
    then compareFrom (tiebreak (rank7 a)) (tiebreak (rank7 b)) (seq 0 n)
    else category (rank7 a) - category (rank7 b).
Proof.
  intros Hn. unfold compare. cbv zeta.
  rewrite (compareFrom_longer _ _ n Hn). by destruct (_ =? _).
Qed.

(** X1. [compare] orders hands consistently: a hand compares equal to
    itself, swapping the arguments negates the result, and "at least as
    good as" is transitive, strictly so when one of the two steps is
    strict. *)
Theorem compare_total_preorder a b c :
  compare a a = 0
  ∧ compare b a = - compare a b
  ∧ (0 ≤ compare a b → 0 ≤ compare b c →
     0 ≤ compare a c ∧ (0 < compare a b ∨ 0 < compare b c → 0 < compare a c)).
Proof.
  set (n := Nat.max (length (tiebreak (rank7 a)))
              (Nat.max (length (tiebreak (rank7 b))) (length (tiebreak (rank7 c))))).
  rewrite (compare_unfold a a n), (compare_unfold b a n), (compare_unfold a b n),
    (compare_unfold b c n), (compare_unfold a c n) by lia.
  rewrite Z.eqb_refl, compareFrom_refl.
  split; [done|]. split.
  - rewrite (compareFrom_flip (tiebreak (rank7 a)) (tiebreak (rank7 b))).
    destruct (Z.eqb_spec (category (rank7 a)) (category (rank7 b))),
             (Z.eqb_spec (category (rank7 b)) (category (rank7 a))); lia.
  - destruct (Z.eqb_spec (category (rank7 a)) (category (rank7 b))),
             (Z.eqb_spec (category (rank7 b)) (category (rank7 c))),
             (Z.eqb_spec (category (rank7 a)) (category (rank7 c))); try lia.
    apply compareFrom_trans.
Qed.

Lemma compare_total_preorder_witness :
  0 < compare handKings handHigh.
Proof.
  destruct (compare_total_preorder handKings handNines handHigh) as (_ & _ & H).
  destruct H as [_ H]; [vm_compute; discriminate..|].
  apply H. left. vm_compute. reflexivity.
Defined.

(** X2. [compare] sees a hand as a set of cards: for hands of fewer than ten
    cards, reordering either hand does not change the result. *)
Theorem compare_order_invariant a a' b b' :
  (length a < 10)%nat → (length b < 10)%nat → a ≡ₚ a' → b ≡ₚ b' →
  compare a b = compare a' b'.
Proof.
  intros Ha Hb Pa Pb. unfold compare.
  by rewrite (rank7_perm a a' Ha Pa), (rank7_perm b b' Hb Pb).
Qed.

Lemma compare_order_invariant_witness :
  compare handKings handNines = compare (reverse handKings) (reverse handNines).
Proof.
  apply compare_order_invariant.
  - vm_compute. lia.
  - vm_compute. lia.
  - symmetry. apply reverse_Permutation.
  - symmetry. apply reverse_Permutation.
Defined.

Lemma tiebreakCmp_compareFrom ta tb steps :
  tiebreakCmp ta tb steps = compareFrom ta tb steps.
Proof. induction steps as [|i steps IH]; [done|]. simpl. by rewrite IH. Qed.

(** X3. The showdown picks winners the way [compare] orders hands: in the
    loop that selects the best hand of a pot, a contender whose seven cards
    beat the best hand so far under [compare] replaces it, one that ties
    joins the winners, and one that loses changes nothing. *)
Theorem bestStep_agrees_with_compare rankBySeat bestSeats s hs hb :
  map_get rankBySeat s = Some (rank7 hs) →
  bestStep rankBySeat (bestSeats, Some (rank7 hb)) s
  = if 0 <? compare hs hb then ([s], Some (rank7 hs))
    else if compare hs hb =? 0 then (bestSeats ++ [s], Some (rank7 hb))
    else (bestSeats, Some (rank7 hb)).
Proof.
  intros Hs. unfold bestStep, compare. rewrite Hs. cbv zeta.
  rewrite tiebreakCmp_compareFrom.
  destruct (Z.ltb_spec (category (rank7 hb)) (category (rank7 hs))) as [Hlt|Hge].
  - rewrite (proj2 (Z.eqb_neq _ _)) by lia. cbn [negb].
    by rewrite (proj2 (Z.ltb_lt _ _)) by lia.
  - destruct (Z.eqb_spec (category (rank7 hs)) (category (rank7 hb))) as [Heq|Hne];
      cbn [negb].
    + destruct (0 <? _); [done|]. by destruct (_ =? 0).
    + rewrite (proj2 (Z.ltb_ge _ _)) by lia.
      by rewrite (proj2 (Z.eqb_neq _ _)) by lia.
Qed.

Lemma bestStep_agrees_with_compare_witness :
  bestStep [(0, rank7 handNines); (1, rank7 handKings)]
           ([0], Some (rank7 handNines)) 1
  = ([1], Some (rank7 handKings)).
Proof.
  rewrite (bestStep_agrees_with_compare _ _ 1 handKings handNines).
  - vm_compute. reflexivity.
  - vm_compute. reflexivity.
Defined.

Lemma countsByRank_total cards :
  sumZ (countsByRank cards).*2 = Z.of_nat (length cards).
Proof.
  induction cards as [|c cards IH] using rev_ind; [done|].
  rewrite countsByRank_snoc, sumZ_map_set, IH, length_app. simpl. lia.
Qed.

(** X4. [countsByRank] is the tally of the ranks: it has one entry for each
    rank that occurs, the entry of a rank is the number of cards of that
    rank, a rank that does not occur has no entry, and the counts add up to
    the number of cards. *)
Theorem countsByRank_tally cards :
  NoDup (countsByRank cards).*1
  ∧ (∀ r n, map_get (countsByRank cards) r = Some n
            ↔ n = countRank r cards ∧ 0 < n)
  ∧ (∀ r, map_get (countsByRank cards) r = None ↔ r ∉ rank <$> cards)
  ∧ sumZ (countsByRank cards).*2 = Z.of_nat (length cards).
Proof.
  destruct (countsByRank_spec cards) as [Hnd Hget].
  split; [done|]. split; [|split; [|apply countsByRank_total]].
  - intros r n. rewrite Hget. pose proof (countRank_nonneg r cards).
    case_decide; split.
    + done.
    + intros [-> ?]. lia.
    + intros [= <-]. split; [done|lia].
    + intros [-> _]. done.
  - intros r. rewrite Hget. unfold countRank.
    case_decide as Hz; split; try done.
    + intros _ (c & Hr & Hc)%list_elem_of_fmap.
      assert (c ∈ filter (λ c, rank c = r) cards) as Hin
        by (apply list_elem_of_filter; split; [done|done]).
      destruct (filter _ cards); [by apply elem_of_nil in Hin|simpl in Hz; lia].
    + intros Hnot. exfalso. apply Hz.
      destruct (filter _ cards) as [|c l] eqn:Hf; [done|].
      assert (c ∈ filter (λ c, rank c = r) cards) as Hin by (rewrite Hf; left).
      apply list_elem_of_filter in Hin as [Hr Hc].
      exfalso. apply Hnot. apply list_elem_of_fmap. by exists c.
Qed.

Lemma classify_no_flush ranksDesc groups :
  category (classify ranksDesc groups None) ≤ 4
  ∨ category (classify ranksDesc groups None) = 6
  ∨ category (classify ranksDesc groups None) = 7.
Proof.
  unfold classify. cbn [mbind option_bind].
  repeat case_match; simpl; lia.
Qed.

Lemma classify_flush ranksDesc groups fr :
  5 ≤ category (classify ranksDesc groups (Some fr)) ≤ 8
  ∧ (category (classify ranksDesc groups (Some fr)) = 5 →
     tiebreak (classify ranksDesc groups (Some fr)) = Some <$> take 5 fr).
Proof.
  unfold classify. cbn [mbind option_bind].
  repeat case_match; simpl; split; try lia; try done; intros; lia.
Qed.

(** X5. Flush detection on a hand of fewer than ten cards: [rank7] reports
    Flush (5) or Straight Flush (8) only when some suit holds five cards or
    more; when a suit does, the category is at least Flush; and a Flush
    carries as tie-break the five highest ranks of that suit, descending. *)
Theorem rank7_flush cards :
  (length cards < 10)%nat →
  (category (rank7 cards) = 5 ∨ category (rank7 cards) = 8 →
   ∃ s, (5 ≤ length (ofSuit s cards))%nat)
  ∧ (∀ s, (5 ≤ length (ofSuit s cards))%nat →
       5 ≤ category (rank7 cards) ≤ 8
       ∧ (category (rank7 cards) = 5 →
          tiebreak (rank7 cards)
          = Some <$> take 5 (js_sort desc (rank <$> ofSuit s cards)))).
Proof.
  intros Hlen. unfold rank7. cbv zeta.
  rewrite (flushRanksOf_spec cards Hlen).
  destruct (flushSuitOf (suitsOf cards)) as [s0|] eqn:Hf.
  - apply flushSuitOf_spec in Hf as Hs0; [|done]. split; [by exists s0|].
    intros s Hs. apply flushSuitOf_spec in Hs; [|done].
    assert (s = s0) as -> by congruence.
    apply classify_flush.
  - split.
    + intros Hcat. exfalso.
      pose proof (classify_no_flush (js_sort desc (countsByRank cards).*1)
                    (js_sort groupCmp (countsByRank cards))). lia.
    + intros s Hs. apply flushSuitOf_spec in Hs; [|done]. congruence.
Qed.

Lemma rank7_flush_witness :
  tiebreak (rank7 [mkCard 2 Hearts; mkCard 9 Hearts; mkCard 4 Clubs; mkCard 13 Hearts;
                   mkCard 6 Hearts; mkCard 11 Hearts; mkCard 3 Hearts])
  = Some <$> [13; 11; 9; 6; 3].
Proof.
  edestruct (rank7_flush [mkCard 2 Hearts; mkCard 9 Hearts; mkCard 4 Clubs;
                          mkCard 13 Hearts; mkCard 6 Hearts; mkCard 11 Hearts;
                          mkCard 3 Hearts]) as [_ H].
  - vm_compute. lia.
  - destruct (H Hearts) as [_ Ht]; [vm_compute; lia|].
    rewrite Ht; [|vm_compute; reflexivity]. vm_compute. reflexivity.
Defined.

(** ** The deck and the deal *)

Lemma swap_Permutation {A} (d : list A) i j : swap d i j ≡ₚ d.
Proof.
  unfold swap. destruct (d !! i) as [x|] eqn:Hi; [|done].
  destruct (d !! j) as [y|] eqn:Hj; [|done].
  by apply Permutation_insert_swap.
Qed.

Lemma shuffle_Permutation d i rnd : shuffle d i rnd ≡ₚ d.
Proof.
  revert d rnd. induction i as [|i IH]; intros d rnd; [done|].
  destruct rnd as [|j rnd]; [done|]. simpl.
  rewrite IH. apply swap_Permutation.
Qed.

Lemma freshDeck_NoDup : NoDup freshDeck.
Proof. apply (bool_decide_unpack _). vm_compute. exact I. Qed.

Lemma elem_of_freshDeck c : c ∈ freshDeck ↔ 2 ≤ rank c ≤ 14.
Proof.
  split.
  - intros Hc.
    assert (Forall (λ c, 2 ≤ rank c ≤ 14) freshDeck) as Hall
      by (apply (bool_decide_unpack _); vm_compute; exact I).
    by eapply Forall_forall in Hall.
  - intros Hr. destruct c as [r s]. simpl in Hr.
    assert (r ∈ RANKS) as Hin.
    { unfold RANKS. rewrite !elem_of_cons, elem_of_nil. lia. }
    unfold freshDeck. apply list_elem_of_bind. exists s. split.
    + apply list_elem_of_bind. exists r. split; [left|done].
    + unfold SUITS. destruct s; set_solver.
Qed.

Lemma makeDeck_permutation_NoDup rnd : NoDup (makeDeck rnd).
Proof.
  assert (makeDeck rnd ≡ₚ freshDeck) as -> by apply shuffle_Permutation.
  apply freshDeck_NoDup.
Qed.

(** X6. Whatever the random draws, [makeDeck] returns the 52 cards of a
    deck, each rank from 2 to 14 in each of the four suits exactly once. *)
Theorem makeDeck_is_a_deck rnd :
  makeDeck rnd ≡ₚ freshDeck
  ∧ NoDup (makeDeck rnd)
  ∧ length (makeDeck rnd) = 52%nat
  ∧ ∀ c, c ∈ makeDeck rnd ↔ 2 ≤ rank c ≤ 14.
Proof.
  assert (makeDeck rnd ≡ₚ freshDeck) as Hp by apply shuffle_Permutation.
  split; [done|]. split; [rewrite Hp; apply freshDeck_NoDup|].
  split; [by rewrite Hp|].
  intros c. rewrite Hp. apply elem_of_freshDeck.
Qed.

Lemma pop_Some {A} (d : list A) x d' : pop d = Some (x, d') ↔ d = d' ++ [x].
Proof.
  unfold pop. split.
  - destruct (reverse d) as [|y r] eqn:Hr; [done|]. intros [= Hy Hd]. subst x d'.
    apply (inj reverse). by rewrite Hr, reverse_snoc, reverse_involutive.
  - intros ->. by rewrite reverse_snoc, reverse_involutive.
Qed.

Lemma pop_is_Some {A} (d : list A) :
  (0 < length d)%nat → ∃ x d', pop d = Some (x, d') ∧ d = d' ++ [x].
Proof.
  intros Hlen. destruct (reverse d) as [|y r] eqn:Hr.
  - apply (f_equal length) in Hr. rewrite length_reverse in Hr. simpl in Hr. lia.
  - exists y, (reverse r). assert (pop d = Some (y, reverse r)) as Hp
      by (unfold pop; by rewrite Hr).
    split; [done|]. by apply pop_Some.
Qed.

Lemma pop_None {A} (d : list A) : pop d = None ↔ d = [].
Proof.
  unfold pop. split.
  - destruct (reverse d) eqn:Hr; [|done]. intros _.
    apply (inj reverse). by rewrite Hr.
  - by intros ->.
Qed.

Lemma holeCards_cons p ps : holeCards (p :: ps) = default [] (hole p) ++ holeCards ps.
Proof. done. Qed.

(** the dealing loop: two cards off the end of the deck for every player
    in the hand, none for the others *)
Lemma dealHoles_cards ps d ps' d' :
  dealHoles ps d = Some (ps', d') →
  Forall (λ p, hole p = None) ps →
  d ≡ₚ d' ++ holeCards ps'
  ∧ Forall2 (λ p p', withoutHole p' = withoutHole p
                     ∧ if inHand p then ∃ c1 c2, hole p' = Some [c1; c2]
                       else hole p' = None) ps ps'.
Proof.
  revert d ps' d'. induction ps as [|p ps IH]; intros d ps' d' Hd Hnone.
  - injection Hd as <- <-. split; [by rewrite app_nil_r|constructor].
  - apply Forall_cons in Hnone as [Hp Hnone]. simpl in Hd.
    destruct (inHand p) eqn:Hin.
    + destruct (pop d) as [[c1 d1]|] eqn:H1; [|done]. cbn [mbind option_bind] in Hd.
      destruct (pop d1) as [[c2 d2]|] eqn:H2; [|done]. cbn [mbind option_bind] in Hd.
      destruct (dealHoles ps d2) as [[ps2 d3]|] eqn:H3; [|done].
      cbn [mbind option_bind] in Hd. injection Hd as <- <-.
      apply pop_Some in H1 as ->. apply pop_Some in H2 as ->.
      destruct (IH _ _ _ H3 Hnone) as [Hperm Hall].
      split.
      * rewrite holeCards_cons. cbn [hole set_hole default].
        rewrite Hperm. rewrite <- !(assoc (++)).
        apply Permutation_app_head. simpl.
        rewrite (Permutation_app_comm (holeCards ps2) [c2; c1]). simpl.
        apply perm_swap.
      * constructor; [|done]. rewrite Hin. split; [by destruct p|]. by exists c1, c2.
    + destruct (dealHoles ps d) as [[ps2 d3]|] eqn:H3; [|done].
      cbn [mbind option_bind] in Hd. injection Hd as <- <-.
      destruct (IH _ _ _ H3 Hnone) as [Hperm Hall].
      split.
      * rewrite holeCards_cons, Hp. done.
      * constructor; [|done]. by rewrite Hin.
Qed.

Lemma dealHoles_total ps d :
  (2 * length ps ≤ length d)%nat → is_Some (dealHoles ps d).
Proof.
  revert d. induction ps as [|p ps IH]; intros d Hlen; [done|].
  simpl in *. destruct (inHand p).
  - destruct (pop_is_Some d) as (c1 & d1 & -> & ->); [lia|].
    cbn [mbind option_bind].
    rewrite length_app in Hlen. simpl in Hlen.
    destruct (pop_is_Some d1) as (c2 & d2 & -> & ->); [lia|].
    cbn [mbind option_bind].
    rewrite length_app in Hlen. simpl in Hlen.
    destruct (IH d2) as [[ps2 d3] ->]; [lia|]. done.
  - destruct (IH d) as [[ps2 d3] ->]; [lia|]. done.
Qed.

(** ** Frames of the engine's operations *)

Lemma calm_refl e : calm e e.
Proof. constructor; auto. Qed.

Lemma calm_trans e1 e2 e3 : calm e1 e2 → calm e2 e3 → calm e1 e3.
Proof.
  intros H1 H2. destruct H1 as [I1 C1 S1 B1 D1 K1 M1 G1 R1 L1 N1 V1].
  destruct H2 as [I2 C2 S2 B2 D2 K2 M2 G2 R2 L2 N2 V2].
  constructor; try congruence; auto.
  destruct G2 as [->| ->]; auto.
Qed.

Lemma fmap_alter_same {A B} (π : A → B) (f : A → A) i (l : list A) :
  (∀ x, l !! i = Some x → π (f x) = π x) → π <$> alter f i l = π <$> l.
Proof.
  intros Hf. apply list_eq. intros j. rewrite !list_lookup_fmap.
  destruct (decide (i = j)) as [->|Hne].
  - rewrite list_lookup_alter_eq. destruct (l !! j) eqn:Hj; [|done].
    simpl. f_equal. by apply Hf.
  - by rewrite list_lookup_alter_ne.
Qed.

Lemma fmap_fmap_same {A B} (π : A → B) (f : A → A) (l : list A) :
  (∀ x, π (f x) = π x) → π <$> (f <$> l) = π <$> l.
Proof.
  intros Hf. rewrite <- list_fmap_compose. apply list_fmap_ext. intros _ x _. apply Hf.
Qed.

Lemma logBounded_log x e : logBounded e → logBounded (log x e).
Proof.
  unfold logBounded, log. cbn. rewrite length_drop, length_app. simpl.
  unfold LOG_LIMIT. lia.
Qed.

Lemma log_calm x e : calm e (log x e).
Proof. constructor; try done; auto. apply logBounded_log. Qed.

Lemma upd_player_calm i f e :
  (∀ p, players (state e) !! i = Some p →
        ident (f p) = ident p ∧ (solvent e → 0 ≤ stack (f p))) →
  calm e (upd_player i f e).
Proof.
  intros Hf. constructor; try done; auto.
  - cbn. apply fmap_alter_same. intros p Hp. by apply Hf.
  - unfold ledgerLen. cbn. by rewrite length_alter.
  - intros Hsolv. pose proof Hsolv as [Hst Hpot]. split; [|done].
    cbn. apply Forall_alter; [done|]. intros p Hp _. by apply Hf.
Qed.

(** a change of flags only *)
Lemma flags_calm i f e :
  (∀ p, ident (f p) = ident p ∧ stack (f p) = stack p) → calm e (upd_player i f e).
Proof.
  intros Hf. apply upd_player_calm. intros p Hp. split; [apply Hf|].
  intros [Hst _]. rewrite (proj2 (Hf p)).
  rewrite Forall_forall in Hst. apply Hst. by eapply list_elem_of_lookup_2.
Qed.

Lemma players_map_calm f e :
  (∀ p, ident (f p) = ident p ∧ (0 ≤ stack p → 0 ≤ stack (f p))) →
  calm e (upd_state (λ s, set_players (f <$> players s) s) e).
Proof.
  intros Hf. constructor; try done; auto.
  - cbn. apply fmap_fmap_same. intros p. apply Hf.
  - unfold ledgerLen. cbn. by rewrite length_fmap.
  - unfold solvent. cbn. intros [Hst Hpot]. split; [|done].
    apply Forall_fmap. eapply Forall_impl; [done|]. intros p. apply Hf.
Qed.

Lemma state_calm f e : tame f → calm e (upd_state f e).
Proof.
  intros Ht. destruct Ht as [Tp Tc Ts Tb Td Tk Tm Tg Tr Tv].
  constructor; cbn; try done.
  - by rewrite Tp.
  - unfold raiseIsBlind. cbn. auto.
  - unfold ledgerLen. cbn. by rewrite Tp.
  - unfold solvent. cbn. rewrite Tp. intros [? ?]. auto.
Qed.

Lemma streetBets_calm v e :
  (ledgerLen e → length v = length (streetBets e)) → calm e (set_streetBets v e).
Proof.
  intros Hv. constructor; try done; auto.
  unfold ledgerLen. cbn. intros [H1 H2]. split; [|done]. rewrite Hv; done.
Qed.

Lemma totalBets_calm v e :
  (ledgerLen e → length v = length (totalBets e)) → calm e (set_totalBets v e).
Proof.
  intros Hv. constructor; try done; auto.
  unfold ledgerLen. cbn. intros [H1 H2]. split; [done|]. rewrite Hv; done.
Qed.

Lemma revealSeats_calm v e : calm e (set_revealSeats v e).
Proof. constructor; try done; auto. Qed.

Lemma publicReveals_calm v e : calm e (set_publicReveals v e).
Proof. constructor; try done; auto. Qed.

Lemma resetReveals_calm e : calm e (resetReveals e).
Proof. constructor; try done; auto. Qed.

Lemma arr_set_length (arr : list Z) (i v : Z) :
  (Z.to_nat i < length arr)%nat → length (arr_set arr i v) = length arr.
Proof.
  intros Hi. unfold arr_set. destruct (Nat.ltb_spec (Z.to_nat i) (length arr)); [|lia].
  apply length_insert.
Qed.

Lemma commitChips_calm seat amt e pay e' :
  commitChips seat amt e = Some (pay, e') → calm e e'.
Proof.
  unfold commitChips. destruct (at_ _ _) as [p|] eqn:Hp; [|done].
  cbn [mbind option_bind]. cbv zeta.
  set (pay0 := Z.max 0 (Z.min amt (stack p))).
  destruct (Z.leb_spec pay0 0) as [|Hpos]; intros [= <- <-]; [apply calm_refl|].
  apply at_Some in Hp as [Hseat Hp].
  eapply calm_trans; [|apply totalBets_calm].
  eapply calm_trans; [|apply streetBets_calm].
  eapply calm_trans; [apply (upd_player_calm (Z.to_nat seat))|apply state_calm].
  - intros q Hq. assert (q = p) as -> by congruence.
    split; [by destruct (_ =? 0)|].
    intros _. destruct (_ =? 0); cbn; lia.
  - constructor; intros s; cbn; auto. lia.
  - intros [Hl _]. cbn in Hl |- *. apply arr_set_length.
    rewrite length_alter in Hl. rewrite Hl. by eapply lookup_lt_Some.
  - intros [_ Hl]. cbn in Hl |- *. apply arr_set_length.
    rewrite length_alter in Hl. rewrite Hl. by eapply lookup_lt_Some.
Qed.

Lemma reopenRound_calm s e : calm e (reopenRound s e).
Proof.
  apply players_map_calm. intros p. by destruct (_ && _).
Qed.

Ltac tame_solve := constructor; intros ?; cbn; auto; try lia.

Lemma awardUncontested_calm e e' :
  awardUncontested e = Some e' → calm e e' ∧ stage (state e') = showdown.
Proof.
  unfold awardUncontested. intros H.
  destruct (list_find _ _) as [[j winner]|] eqn:Hfind; [|discriminate H].
  apply list_find_Some in Hfind as (Hj & _ & _).
  cbn [mbind option_bind] in H. injection H as <-.
  split; [|done].
  eapply calm_trans; [|apply state_calm; tame_solve].
  eapply calm_trans; [|apply log_calm].
  eapply calm_trans; [|apply state_calm; tame_solve].
  eapply calm_trans; [|apply revealSeats_calm].
  eapply calm_trans; [|apply resetReveals_calm].
  eapply calm_trans; [|apply state_calm; tame_solve].
  apply upd_player_calm. intros p Hp. split; [done|].
  intros [Hst Hpot]. cbn. rewrite Forall_forall in Hst.
  assert (0 ≤ stack p) by (apply Hst; by eapply list_elem_of_lookup_2). lia.
Qed.

(** the state an action branch ends in *)
Lemma foldAction_calm self actor e out :
  foldAction self actor e = Some out →
  match out with
  | Returned ok e' => calm e e' ∧ stage (state e') = showdown
  | Applied m => calm e m ∧ stage (state m) = stage (state e)
  end.
Proof.
  unfold foldAction.
  assert (calm e (log (LogFold (name actor))
            (upd_player self (λ p, set_hasActedThisRound true (set_inHand false p)) e)))
    as Hc by (eapply calm_trans; [apply flags_calm|apply log_calm]; done).
  destruct (_ =? 1)%nat.
  - destruct (awardUncontested _) as [e1|] eqn:Ha; [|discriminate].
    intros [= <-]. apply awardUncontested_calm in Ha as [Ha Hs].
    split; [by eapply calm_trans|done].
  - by intros [= <-].
Qed.

Lemma checkAction_calm self actor toCall e out :
  checkAction self actor toCall e = Some out →
  match out with
  | Returned ok e' => e' = e
  | Applied m => calm e m ∧ stage (state m) = stage (state e)
  end.
Proof.
  unfold checkAction. destruct (negb _); intros [= <-]; [done|].
  split; [|done]. eapply calm_trans; [apply flags_calm|apply log_calm]; done.
Qed.

Lemma commitChips_stage seat amt e pay e' :
  commitChips seat amt e = Some (pay, e') → stage (state e') = stage (state e).
Proof. intros H. by apply commitChips_frame in H as (? & _). Qed.

Lemma callAction_calm self actor toCall e out :
  callAction self actor toCall e = Some out →
  match out with
  | Returned ok e' => e' = e
  | Applied m => calm e m ∧ stage (state m) = stage (state e)
  end.
Proof.
  unfold callAction. destruct (_ <=? 0); [by intros [= <-]|].
  destruct (commitChips _ _ _) as [[pay e1]|] eqn:Hc; [|discriminate].
  cbn [mbind option_bind]. destruct (Z.leb_spec pay 0); intros [= <-].
  - by eapply commitChips_zero.
  - split; [|by apply commitChips_stage in Hc].
    apply commitChips_calm in Hc.
    eapply calm_trans; [exact Hc|].
    eapply calm_trans; [apply flags_calm|apply log_calm]; done.
Qed.

Lemma betAction_calm self actor contributed amt e out :
  betAction self actor contributed amt e = Some out →
  match out with
  | Returned ok e' => e' = e
  | Applied m => calm e m ∧ stage (state m) = stage (state e)
  end.
Proof.
  unfold betAction. destruct (negb _); [by intros [= <-]|].
  destruct (_ <=? 0); [by intros [= <-]|].
  destruct (commitChips _ _ _) as [[pay e1]|] eqn:Hc; [|discriminate].
  cbn [mbind option_bind]. destruct (Z.leb_spec pay 0); intros [= <-].
  - by eapply commitChips_zero.
  - split; [|by apply commitChips_stage in Hc].
    apply commitChips_calm in Hc.
    eapply calm_trans; [exact Hc|].
    eapply calm_trans; [|apply log_calm].
    eapply calm_trans; [|apply flags_calm; done].
    eapply calm_trans; [|apply reopenRound_calm].
    apply state_calm. tame_solve.
Qed.

Lemma raiseAction_calm self actor contributed minRaise amt e out :
  raiseAction self actor contributed minRaise amt e = Some out →
  match out with
  | Returned ok e' => e' = e
  | Applied m => calm e m ∧ stage (state m) = stage (state e)
  end.
Proof.
  unfold raiseAction. destruct (_ <=? _); [by intros [= <-]|].
  destruct (commitChips _ _ _) as [[pay e1]|] eqn:Hc; [|discriminate].
  cbn [mbind option_bind]. destruct (Z.leb_spec pay 0); intros [= <-].
  - by eapply commitChips_zero.
  - apply commitChips_stage in Hc as Hs. apply commitChips_calm in Hc.
    destruct (_ <? _).
    + split; [|done].
      eapply calm_trans; [exact Hc|].
      eapply calm_trans; [|apply log_calm].
      eapply calm_trans; [|apply flags_calm; done].
      eapply calm_trans; [|apply reopenRound_calm].
      apply state_calm. tame_solve.
    + split; [|done].
      eapply calm_trans; [exact Hc|].
      eapply calm_trans; [apply flags_calm|apply log_calm]; done.
Qed.

(** what [applyAction] can change *)
Lemma applyAction_calm id kind amt e out :
  applyAction id kind amt e = Some out →
  match out with
  | Returned ok e' => (ok = false ∧ e' = e)
                      ∨ (ok = true ∧ calm e e' ∧ stage (state e') = showdown)
  | Applied m => calm e m ∧ stage (state m) = stage (state e)
                 ∧ isBetting (stage (state e)) = true
  end.
Proof.
  unfold applyAction.
  destruct (isBetting _) eqn:Hb; cbn [negb]; [|intros [= <-]; by left].
  destruct (at_ _ _) as [actor|]; [|intros [= <-]; by left].
  destruct (_ || _); [intros [= <-]; by left|].
  destruct kind; intros H.
  - pose proof H as H'. apply foldAction_calm in H. destruct out; [|by destruct H].
    right. unfold foldAction in H'. destruct (_ =? 1)%nat; [|done].
    destruct (awardUncontested _); [|done]. by injection H' as <- <-.
  - pose proof H as H'. apply checkAction_calm in H. destruct out; [|by destruct H].
    left. unfold checkAction in H'. destruct (negb _); [|done]. by injection H' as <- <-.
  - pose proof H as H'. apply callAction_calm in H. destruct out; [|by destruct H].
    left. split; [|done]. unfold callAction in H'.
    destruct (_ <=? 0); [by injection H' as <- <-|].
    destruct (commitChips _ _ _) as [[pay e1]|]; [|done]. cbn [mbind option_bind] in H'.
    destruct (_ <=? 0); [by injection H' as <- <-|done].
  - pose proof H as H'. apply betAction_calm in H. destruct out; [|by destruct H].
    left. split; [|done]. unfold betAction in H'.
    destruct (negb _); [by injection H' as <- <-|].
    destruct (_ <=? 0); [by injection H' as <- <-|].
    destruct (commitChips _ _ _) as [[pay e1]|]; [|done]. cbn [mbind option_bind] in H'.
    destruct (_ <=? 0); [by injection H' as <- <-|done].
  - pose proof H as H'. apply raiseAction_calm in H. destruct out; [|by destruct H].
    left. split; [|done]. unfold raiseAction in H'.
    destruct (_ <=? _); [by injection H' as <- <-|].
    destruct (commitChips _ _ _) as [[pay e1]|]; [|done]. cbn [mbind option_bind] in H'.
    destruct (_ <=? 0); [by injection H' as <- <-|done].
Qed.

(** *** The showdown *)

Lemma map_set_nonneg (m : list (Z * Z)) k v :
  Forall (λ kv, 0 ≤ kv.2) m → 0 ≤ v → Forall (λ kv, 0 ≤ kv.2) (map_set m k v).
Proof.
  intros Hm Hv. induction m as [|[k0 v0] m IH]; simpl.
  - by constructor.
  - apply Forall_cons in Hm as [H0 Hm]. case_decide; constructor; auto.
Qed.

Lemma map_get_nonneg (m : list (Z * Z)) k :
  Forall (λ kv, 0 ≤ kv.2) m → 0 ≤ default 0 (map_get m k).
Proof.
  intros Hm. induction m as [|[k0 v0] m IH]; simpl; [done|].
  apply Forall_cons in Hm as [H0 Hm]. case_decide; auto.
Qed.

Lemma credit_nonneg won s x :
  Forall (λ kv, 0 ≤ kv.2) won → 0 ≤ x → Forall (λ kv, 0 ≤ kv.2) (credit won s x).
Proof.
  intros Hw Hx. apply map_set_nonneg; [done|].
  pose proof (map_get_nonneg won s Hw). lia.
Qed.

Lemma shares_nonneg share (l : list Z) won :
  0 ≤ share → Forall (λ kv, 0 ≤ kv.2) won →
  Forall (λ kv, 0 ≤ kv.2) (foldl (λ w s, credit w s share) won l).
Proof.
  intros Hs. revert won. induction l as [|s l IH]; intros won Hw; [done|].
  simpl. apply IH. by apply credit_nonneg.
Qed.

Lemma oddChips_nonneg sorted steps w :
  Forall (λ kv, 0 ≤ kv.2) w →
  Forall (λ kv, 0 ≤ kv.2) (foldl (oddChip sorted) w steps).
Proof.
  revert w. induction steps as [|i steps IH]; intros w Hw; [done|].
  simpl. apply IH. unfold oddChip. destruct (_ !! _); [|done].
  by apply credit_nonneg.
Qed.

Lemma splitPot_nonneg amount bestSeats won :
  0 ≤ amount → Forall (λ kv, 0 ≤ kv.2) won →
  Forall (λ kv, 0 ≤ kv.2) (splitPot amount bestSeats won).
Proof.
  intros Ha Hw. rewrite splitPot_unfold. cbv zeta.
  apply oddChips_nonneg, shares_nonneg; [|done].
  destruct bestSeats as [|s l]; [by rewrite Zdiv_0_r|].
  apply Z.div_pos; [done|]. simpl. lia.
Qed.

Lemma payPot_nonneg rbs won p :
  0 ≤ amount p → Forall (λ kv, 0 ≤ kv.2) won →
  Forall (λ kv, 0 ≤ kv.2) (payPot rbs won p).
Proof.
  intros Ha Hw. unfold payPot. destruct (List.filter _ _); [done|].
  destruct (foldl _ _ _) as [bestSeats ?]. by apply splitPot_nonneg.
Qed.

Lemma payPots_nonneg rbs won pots :
  Forall (λ p, 0 < amount p) pots → Forall (λ kv, 0 ≤ kv.2) won →
  Forall (λ kv, 0 ≤ kv.2) (foldl (payPot rbs) won pots).
Proof.
  intros Hp. revert won. induction Hp as [|p pots Ha _ IH]; intros won Hw; [done|].
  simpl. apply IH. apply payPot_nonneg; [lia|done].
Qed.

Lemma creditWinnings_calm won e e' :
  creditWinnings won e = Some e' → Forall (λ kv, 0 ≤ kv.2) won → calm e e'.
Proof.
  unfold creditWinnings. revert e.
  induction won as [|[s a] won IH]; intros e H Hw.
  - injection H as <-. apply calm_refl.
  - apply Forall_cons in Hw as [Ha Hw]. simpl in H.
    destruct (at_ (players (state e)) s) as [p|] eqn:Hp.
    + cbn [mbind option_bind] in H.
      eapply calm_trans; [|eapply IH; [exact H|done]].
      apply upd_player_calm. intros q Hq. split; [done|].
      intros [Hst _]. cbn. rewrite Forall_forall in Hst.
      assert (0 ≤ stack q) by (apply Hst; by eapply list_elem_of_lookup_2).
      simpl in Ha. lia.
    + cbn [mbind option_bind] in H. exfalso.
      clear -H. induction won as [|sa won IH]; [done|]. simpl in H. auto.
Qed.

Lemma showdownFull_calm contenders e e' :
  showdownFull contenders e = Some e' → calm e e'.
Proof.
  unfold showdownFull. cbv zeta. intros H.
  destruct (creditWinnings _ e) as [e1|] eqn:Hc; [|done].
  cbn [mbind option_bind] in H.
  destruct (winnersOf _ _ e1) as [ws|]; [|done]. cbn [mbind option_bind] in H.
  destruct (revealWinners _ e1) as [e2|] eqn:Hr; [|done].
  cbn [mbind option_bind] in H. injection H as <-.
  apply creditWinnings_calm in Hc;
    [|apply payPots_nonneg; [apply buildSidePots_positive|constructor]].
  apply revealWinners_spec in Hr as [pr ->].
  destruct (offerReveal_spec (set_of_list (w_seat <$> js_sort winnerCmp ws)) contenders
              (set_publicReveals pr e1)) as [rs ->].
  eapply calm_trans; [exact Hc|].
  eapply calm_trans; [apply publicReveals_calm|].
  eapply calm_trans; [apply revealSeats_calm|].
  eapply calm_trans; [apply log_calm|].
  apply state_calm. tame_solve.
Qed.

Lemma showdownUncontested_calm j winner e :
  players (state e) !! j = Some winner → calm e (showdownUncontested j winner e).
Proof.
  intros Hj. unfold showdownUncontested. cbv zeta.
  eapply calm_trans; [|apply state_calm; tame_solve].
  eapply calm_trans; [|apply state_calm; tame_solve].
  eapply calm_trans; [|apply log_calm].
  eapply calm_trans; [|apply revealSeats_calm].
  eapply calm_trans; [|apply state_calm; tame_solve].
  apply upd_player_calm. intros p Hp. split; [done|].
  intros [Hst Hpot]. cbn. rewrite Forall_forall in Hst.
  assert (0 ≤ stack p) by (apply Hst; by eapply list_elem_of_lookup_2). lia.
Qed.

Lemma resolveShowdown_calm e e' :
  resolveShowdown e = Some e' → calm e e' .
Proof.
  unfold resolveShowdown. cbv zeta. intros H.
  eapply calm_trans; [apply resetReveals_calm|].
  destruct (contendersOf e) as [|[j winner] [|c cs]] eqn:Hcs.
  - by apply showdownFull_calm in H.
  - injection H as <-. apply showdownUncontested_calm.
    apply (contendersOf_lookup e). rewrite Hcs. left.
  - by apply showdownFull_calm in H.
Qed.

Lemma resetStreet_calm e : calm e (resetStreet e).
Proof.
  unfold resetStreet. cbv zeta.
  eapply calm_trans; [|apply streetBets_calm; intros [Hl _]; by rewrite length_replicate].
  eapply calm_trans; [|apply state_calm; tame_solve].
  by apply players_map_calm.
Qed.

Lemma doShow_calm id e : calm e (doShow id e).2.
Proof.
  unfold doShow. destruct (findById id e) as [[j p]|]; [|apply calm_refl].
  destruct (negb _); [apply calm_refl|]. cbn [snd].
  eapply calm_trans; [|apply log_calm].
  eapply calm_trans; [|apply revealSeats_calm].
  destruct (hole p); [apply publicReveals_calm|apply calm_refl].
Qed.

Lemma doMuck_calm id e : calm e (doMuck id e).2.
Proof.
  unfold doMuck. destruct (findById id e) as [[j p]|]; [|apply calm_refl].
  destruct (negb _); [apply calm_refl|]. cbn [snd].
  eapply calm_trans; [|apply log_calm].
  eapply calm_trans; [|apply revealSeats_calm].
  apply publicReveals_calm.
Qed.

Lemma advanceStage_deal e e' :
  advanceStage e = Some e' → isBetting (stage (state e)) = true →
  stage (state e) ≠ river →
  ∃ d burn cs,
    deck (state e) = d ++ reverse cs ++ [burn]
    ∧ length cs = streetCards (stage (state e))
    ∧ calm (dealBoard d cs e) e'.
Proof.
  unfold advanceStage, dealBoard. cbv zeta.
  assert (stage (state (resetStreet e)) = stage (state e)) as Hs0 by reflexivity.
  assert (deck (state (resetStreet e)) = deck (state e)) as Hd0 by reflexivity.
  revert Hs0 Hd0. generalize (resetStreet e). intros e0 Hs0 Hd0 H Hb Hr.
  rewrite <- Hs0 in Hb, Hr |- *. rewrite <- Hd0. clear Hs0 Hd0.
  destruct (stage (state e0)) eqn:Hst; try done.
  - destruct (pop (deck (state e0))) as [[burn d0]|] eqn:P0; [|done].
    cbn [mbind option_bind] in H.
    destruct (pop d0) as [[f1 d1]|] eqn:P1; [|done]. cbn [mbind option_bind] in H.
    destruct (pop d1) as [[f2 d2]|] eqn:P2; [|done]. cbn [mbind option_bind] in H.
    destruct (pop d2) as [[f3 d3]|] eqn:P3; [|done]. cbn [mbind option_bind] in H.
    destruct (nextSeat _ _) as [t|]; [|done]. cbn [mbind option_bind] in H.
    injection H as <-.
    apply pop_Some in P0, P1, P2, P3. subst d0 d1 d2.
    exists d3, burn, [f1; f2; f3]. split; [by rewrite P0, <- !(assoc (++))|].
    split; [done|].
    eapply calm_trans; [|apply state_calm; tame_solve].
    eapply calm_trans; [|apply log_calm].
    eapply calm_trans; [|apply state_calm; tame_solve].
    unfold upd_state at 1. rewrite Hst. apply calm_refl.
  - destruct (pop (deck (state e0))) as [[burn d0]|] eqn:P0; [|done].
    cbn [mbind option_bind] in H.
    destruct (pop d0) as [[f1 d1]|] eqn:P1; [|done]. cbn [mbind option_bind] in H.
    destruct (nextSeat _ _) as [t|]; [|done]. cbn [mbind option_bind] in H.
    injection H as <-.
    apply pop_Some in P0, P1. subst d0.
    exists d1, burn, [f1]. split; [by rewrite P0, <- !(assoc (++))|].
    split; [done|].
    eapply calm_trans; [|apply state_calm; tame_solve].
    eapply calm_trans; [|apply log_calm].
    eapply calm_trans; [|apply state_calm; tame_solve].
    unfold upd_state at 1. rewrite Hst. apply calm_refl.
  - destruct (pop (deck (state e0))) as [[burn d0]|] eqn:P0; [|done].
    cbn [mbind option_bind] in H.
    destruct (pop d0) as [[f1 d1]|] eqn:P1; [|done]. cbn [mbind option_bind] in H.
    destruct (nextSeat _ _) as [t|]; [|done]. cbn [mbind option_bind] in H.
    injection H as <-.
    apply pop_Some in P0, P1. subst d0.
    exists d1, burn, [f1]. split; [by rewrite P0, <- !(assoc (++))|].
    split; [done|].
    eapply calm_trans; [|apply state_calm; tame_solve].
    eapply calm_trans; [|apply log_calm].
    eapply calm_trans; [|apply state_calm; tame_solve].
    unfold upd_state at 1. rewrite Hst. apply calm_refl.
Qed.

(** *** The invariant *)

Lemma ident_fmap {B} (π : string * string * Z * bool * option (list Card) → B)
  (l k : list Player) :
  ident <$> l = ident <$> k → (λ p, π (ident p)) <$> l = (λ p, π (ident p)) <$> k.
Proof.
  intros H. by rewrite !(list_fmap_compose ident π), H.
Qed.

Lemma holeCards_ident (l k : list Player) : ident <$> l = ident <$> k → holeCards l = holeCards k.
Proof.
  revert k. induction l as [|p l IH]; intros [|q k] H; try done.
  rewrite !fmap_cons in H. apply (inj2 cons) in H as [Hp Hl].
  rewrite !holeCards_cons, (IH k Hl).
  unfold ident in Hp. injection Hp as _ _ _ _ Hh. by rewrite Hh.
Qed.

Lemma ident_seat (l k : list Player) : ident <$> l = ident <$> k → seat <$> l = seat <$> k.
Proof. intros H. exact (ident_fmap (λ i, i.1.1.2) l k H). Qed.

Lemma ident_name (l k : list Player) : ident <$> l = ident <$> k → name <$> l = name <$> k.
Proof. intros H. exact (ident_fmap (λ i, i.1.1.1.2) l k H). Qed.

Lemma calm_tableOk e e' : calm e e' → tableOk e → tableOk e'.
Proof.
  intros Hc Hok.
  destruct Hc as [Hid Hcode Hsb Hbb Hdl Hdk Hcm Hst Hr Hl Hn Hv].
  destruct Hok as [Oseats Onames Osize Oblinds Oraise Odealer Olog Oledger Osolv Ocards Oboard].
  pose proof (fmap_eq_length _ _ _ Hid) as Hlen.
  constructor; auto.
  - rewrite Hlen, <- Oseats. by apply ident_seat.
  - by rewrite (ident_name _ _ Hid).
  - by rewrite Hlen.
  - by rewrite Hsb, Hbb.
  - by rewrite Hdl.
  - by rewrite Hdk, Hcm, (holeCards_ident _ _ Hid).
  - unfold boardOk in *. rewrite Hcm. destruct Hst as [->| ->]; done.
Qed.

Lemma NoDup_part {A} (l k : list A) : l ⊆+ k → NoDup k → NoDup l.
Proof.
  intros (k' & ->)%submseteq_Permutation Hnd. by apply NoDup_app in Hnd as (? & _).
Qed.

Lemma dealBoard_tableOk d burn cs e :
  tableOk e → isBetting (stage (state e)) = true → stage (state e) ≠ river →
  deck (state e) = d ++ reverse cs ++ [burn] →
  length cs = streetCards (stage (state e)) →
  tableOk (dealBoard d cs e).
Proof.
  intros Hok Hb Hr Hdeck Hlen.
  pose proof (calm_tableOk _ _ (resetStreet_calm e) Hok) as Hok1.
  destruct Hok1 as [Oseats Onames Osize Oblinds Oraise Odealer Olog Oledger Osolv Ocards Oboard].
  constructor; try done.
  - change (NoDup (d ++ (community (state e) ++ cs)
                   ++ holeCards (players (state (resetStreet e))))).
    change (NoDup (deck (state e) ++ community (state e)
                   ++ holeCards (players (state (resetStreet e))))) in Ocards.
    revert Ocards. rewrite Hdeck. apply NoDup_part.
    rewrite <- !(assoc (++)).
    apply submseteq_skips_l.
    rewrite (assoc (++) (reverse cs)), (assoc (++) (reverse cs ++ [burn])).
    rewrite (assoc (++) (community (state e))).
    apply submseteq_skips_r.
    rewrite (Permutation_app_comm (community (state e)) cs).
    apply submseteq_skips_r.
    rewrite reverse_Permutation. by apply submseteq_inserts_r.
  - unfold boardOk in *. change (stage (state (resetStreet e))) with (stage (state e)) in Oboard.
    change (community (state (resetStreet e))) with (community (state e)) in Oboard.
    change (stage (state (dealBoard d cs e))) with (nextStage (stage (state e))).
    change (community (state (dealBoard d cs e))) with (community (state e) ++ cs).
    rewrite length_app, Hlen.
    destruct (stage (state e)); try done; simpl; [by rewrite Oboard|lia..].
Qed.

Lemma closeRound_tableOk m e' :
  closeRound m = Some e' → tableOk m → tableOk e'.
Proof.
  unfold closeRound. destruct (isBetting _) eqn:Hb; [|by intros [= <-]].
  destruct (everyoneActedOrAllIn m).
  - intros H Hok. destruct (decide (stage (state m) = river)) as [Hr|Hr].
    + apply advanceStage_river in H; [|done].
      apply resolveShowdown_calm in H.
      eapply calm_tableOk; [|exact Hok].
      eapply calm_trans; [|exact H].
      eapply calm_trans; [apply resetStreet_calm|].
      apply state_calm. tame_solve.
    + destruct (advanceStage_deal _ _ H Hb Hr) as (d & burn & cs & Hd & Hl & Hc).
      eapply calm_tableOk; [exact Hc|]. by eapply dealBoard_tableOk.
  - destruct (nextSeat _ _) as [t|]; [|done]. intros [= <-] Hok.
    eapply calm_tableOk; [|exact Hok]. apply state_calm. tame_solve.
Qed.

Lemma playerAction_tableOk id kind amount e ok e' :
  playerAction id kind amount e = Some (ok, e') → tableOk e → tableOk e'.
Proof.
  unfold playerAction. intros H Hok.
  destruct (applyAction id kind amount e) as [out|] eqn:Happ; [|done].
  cbn [mbind option_bind] in H. apply applyAction_calm in Happ.
  destruct out as [ok1 e1|m].
  - injection H as <- <-. destruct Happ as [[_ ->]|(_ & Hc & _)]; [done|].
    by eapply calm_tableOk.
  - destruct (closeRound m) as [e2|] eqn:Hcl; [|done].
    cbn [mbind option_bind] in H. injection H as <- <-.
    destruct Happ as (Hc & _). eapply closeRound_tableOk; [exact Hcl|].
    by eapply calm_tableOk.
Qed.

Lemma postBlind_calm seat amt e e' : postBlind seat amt e = Some e' → calm e e'.
Proof.
  intros H. apply postBlind_spec in H as (pay & e1 & x & Hc & ->).
  eapply calm_trans; [by eapply commitChips_calm|apply log_calm].
Qed.

Lemma postBlinds_calm e e' : postBlinds e = Some e' → calm e e'.
Proof.
  unfold postBlinds. cbv zeta. intros H.
  destruct (postBlind _ _ e) as [e1|] eqn:H1; [|done]. cbn [mbind option_bind] in H.
  destruct (postBlind _ _ e1) as [e2|] eqn:H2; [|done]. cbn [mbind option_bind] in H.
  injection H as <-. apply postBlind_calm in H1, H2.
  eapply calm_trans; [exact H1|]. eapply calm_trans; [exact H2|].
  unfold openBetting. cbv zeta.
  eapply calm_trans; [|apply log_calm].
  eapply calm_trans; [|apply state_calm; tame_solve].
  apply state_calm. tame_solve.
Qed.

(** *** Starting a hand *)

Lemma openHand_shape rnd e e1 :
  e1 = openHand rnd e →
  players (state e1)
  = (λ p, set_hole None (set_hasActedThisRound false (set_isAllIn false
            (set_inHand (0 <? stack p) p)))) <$> players (state e)
  ∧ deck (state e1) = makeDeck rnd
  ∧ community (state e1) = []
  ∧ stage (state e1) = preflop
  ∧ pot (state e1) = 0
  ∧ code (state e1) = code (state e)
  ∧ smallBlind (state e1) = smallBlind (state e)
  ∧ bigBlind (state e1) = bigBlind (state e)
  ∧ minRaise (state e1) = bigBlind (state e)
  ∧ dealerSeat (state e1)
    = Z.rem (dealerSeat (state e) + 1) (Z.of_nat (length (players (state e))))
  ∧ actionLog e1 = actionLog e
  ∧ streetBets e1 = replicate (length (players (state e))) 0
  ∧ totalBets e1 = replicate (length (players (state e))) 0.
Proof.
  intros ->.
  split; [reflexivity|]. split; [reflexivity|]. split; [reflexivity|].
  split; [reflexivity|]. split; [reflexivity|]. split; [reflexivity|].
  split; [reflexivity|]. split; [reflexivity|]. split; [reflexivity|].
  split; [cbn; by rewrite length_fmap|]. split; [reflexivity|].
  split; cbn; by rewrite length_fmap.
Qed.

Lemma Forall2_fmap_eq {A B} (π : A → B) (l k : list A) :
  Forall2 (λ x y, π y = π x) l k → π <$> k = π <$> l.
Proof.
  induction 1 as [|x y l k Hxy _ IH]; [done|]. rewrite !fmap_cons. by rewrite Hxy, IH.
Qed.

Lemma dealt_tableOk e e1 ps d :
  tableOk e → (0 < length (players (state e)))%nat →
  core <$> ps = core <$> players (state e) →
  NoDup (d ++ holeCards ps) →
  community (state e1) = [] → stage (state e1) = preflop → pot (state e1) = 0 →
  smallBlind (state e1) = smallBlind (state e) →
  bigBlind (state e1) = bigBlind (state e) →
  minRaise (state e1) = bigBlind (state e) →
  dealerSeat (state e1)
  = Z.rem (dealerSeat (state e) + 1) (Z.of_nat (length (players (state e)))) →
  actionLog e1 = actionLog e →
  streetBets e1 = replicate (length (players (state e))) 0 →
  totalBets e1 = replicate (length (players (state e))) 0 →
  tableOk (upd_state (λ s, set_deck d (set_players ps s)) e1).
Proof.
  intros Hok Hn Hwh Hnd Hcm Hst Hpot Hsb Hbb Hmr Hdl Hlog Hsbt Htb.
  destruct Hok as [Oseats Onames Osize Oblinds Oraise Odealer Olog Oledger Osolv Ocards Oboard].
  pose proof (fmap_eq_length _ _ _ Hwh) as Hlen.
  assert (∀ {B} (π : string * string * Z * bool * Z → B),
            (λ p, π (core p)) <$> ps = (λ p, π (core p)) <$> players (state e)) as Hproj.
  { intros B π. by rewrite !(list_fmap_compose core π), Hwh. }
  constructor.
  - change (seat <$> ps = Z.of_nat <$> seq 0 (length ps)).
    rewrite Hlen, <- Oseats. exact (Hproj _ (λ c, c.1.1.2)).
  - change (NoDup (name <$> ps)).
    assert (name <$> ps = name <$> players (state e)) as ->; [|done].
    exact (Hproj _ (λ c, c.1.1.1.2)).
  - change (length ps ≤ MAX_PLAYERS)%nat. by rewrite Hlen.
  - change (1 ≤ smallBlind (state e1) ≤ bigBlind (state e1)). by rewrite Hsb, Hbb.
  - change (minRaise (state e1) = bigBlind (state e1)). by rewrite Hmr, Hbb.
  - change (0 ≤ dealerSeat (state e1)). rewrite Hdl. apply Z.rem_nonneg; lia.
  - change (length (actionLog e1) ≤ LOG_LIMIT)%nat. by rewrite Hlog.
  - change (length (streetBets e1) = length ps ∧ length (totalBets e1) = length ps).
    by rewrite Hsbt, Htb, length_replicate, Hlen.
  - change (Forall (λ p, 0 ≤ stack p) ps ∧ 0 ≤ pot (state e1)).
    rewrite Hpot. split; [|done]. destruct Osolv as [Hst0 _].
    apply (Forall_fmap stack (λ v, 0 ≤ v)).
    assert (stack <$> ps = stack <$> players (state e)) as ->
      by exact (Hproj _ (λ c, c.2)).
    by apply (Forall_fmap stack (λ v, 0 ≤ v)).
  - change (NoDup (d ++ community (state e1) ++ holeCards ps)). by rewrite Hcm.
  - unfold boardOk. change (stage (state (upd_state _ e1))) with (stage (state e1)).
    change (community (state (upd_state _ e1))) with (community (state e1)).
    by rewrite Hst, Hcm.
Qed.

Lemma dealHand_tableOk_from e e1 e2 :
  tableOk e → (0 < length (players (state e)))%nat →
  players (state e1)
  = (λ p, set_hole None (set_hasActedThisRound false (set_isAllIn false
            (set_inHand (0 <? stack p) p)))) <$> players (state e) →
  NoDup (deck (state e1)) →
  community (state e1) = [] → stage (state e1) = preflop → pot (state e1) = 0 →
  smallBlind (state e1) = smallBlind (state e) →
  bigBlind (state e1) = bigBlind (state e) →
  minRaise (state e1) = bigBlind (state e) →
  dealerSeat (state e1)
  = Z.rem (dealerSeat (state e) + 1) (Z.of_nat (length (players (state e)))) →
  actionLog e1 = actionLog e →
  streetBets e1 = replicate (length (players (state e))) 0 →
  totalBets e1 = replicate (length (players (state e))) 0 →
  dealHand e1 = Some e2 → tableOk e2.
Proof.
  intros Hok Hn Hps Hdk Hcm Hst Hpot Hsb Hbb Hmr Hdl Hlog Hsbt Htb Hd.
  unfold dealHand in Hd.
  destruct (dealHoles _ _) as [[ps d]|] eqn:Hdeal; [|done].
  cbn [mbind option_bind] in Hd. injection Hd as <-.
  apply dealHoles_cards in Hdeal as [Hperm Hall].
  2:{ rewrite Hps. apply Forall_fmap, Forall_true. done. }
  apply (dealt_tableOk e); try done.
  - rewrite (Forall2_fmap_eq core (players (state e1)) ps).
    + rewrite Hps, <- list_fmap_compose. apply list_fmap_ext. by intros _ [] _.
    + eapply Forall2_impl; [exact Hall|]. intros p p' [Hw _].
      unfold withoutHole in Hw. destruct p, p'. cbn in Hw. by simplify_eq.
  - by rewrite <- Hperm.
Qed.

Lemma dealHand_tableOk rnd e e2 :
  tableOk e → (0 < length (players (state e)))%nat →
  dealHand (openHand rnd e) = Some e2 → tableOk e2.
Proof.
  intros Hok Hn Hd.
  destruct (openHand_shape rnd e _ eq_refl)
    as (Hps & Hdk & Hcm & Hst & Hpot & Hcode & Hsb & Hbb & Hmr & Hdl & Hlog & Hsbt & Htb).
  eapply (dealHand_tableOk_from e); [exact Hok|exact Hn|exact Hps| |exact Hcm|exact Hst
    |exact Hpot|exact Hsb|exact Hbb|exact Hmr|exact Hdl|exact Hlog|exact Hsbt|exact Htb
    |exact Hd].
  rewrite Hdk. apply makeDeck_permutation_NoDup.
Qed.

Lemma holeCards_mjoin (l : list Player) :
  holeCards l = mjoin ((λ p, default [] (hole p)) <$> l).
Proof. induction l as [|q l IH]; [done|]. rewrite holeCards_cons, IH. done. Qed.

Lemma mjoin_delete_sublist {A} (l : list (list A)) i :
  mjoin (delete i l) `sublist_of` mjoin l.
Proof.
  revert i. induction l as [|x l IH]; intros [|i]; simpl; try done.
  - by apply sublist_inserts_l.
  - apply sublist_app; [done|apply IH].
Qed.

Lemma startHand_tableOk rnd e e' :
  startHand rnd e = Some e' → tableOk e → tableOk e'.
Proof.
  unfold startHand. destruct (Nat.ltb_spec (length (players (state e))) 2).
  - intros [= <-] Hok. eapply calm_tableOk; [|exact Hok]. apply state_calm. tame_solve.
  - destruct (dealHand (openHand rnd e)) as [e1|] eqn:Hd; [|done].
    cbn [mbind option_bind]. intros Hb Hok.
    apply postBlinds_calm in Hb. eapply calm_tableOk; [exact Hb|].
    eapply dealHand_tableOk; [exact Hok|lia|exact Hd].
Qed.

(** *** Joining and leaving *)

Lemma existsb_name_false (ps : list Player) nm :
  existsb (λ p, String.eqb (name p) nm) ps = false → nm ∉ name <$> ps.
Proof.
  intros Hex (p & -> & Hp)%list_elem_of_fmap.
  assert (existsb (λ q, String.eqb (name q) (name p)) ps = true) as Ht.
  { apply existsb_exists. exists p. split; [by apply list_elem_of_In|apply String.eqb_refl]. }
  congruence.
Qed.

Lemma splice_in_end {A} (arr : list A) (v : A) : splice_in arr (length arr) v = arr ++ [v].
Proof. unfold splice_in. by rewrite firstn_all, drop_all. Qed.

Lemma addPlayer_tableOk id nm stk owner e :
  tableOk e → tableOk (addPlayer id nm stk owner e).2.
Proof.
  intros Hok. unfold addPlayer. cbv zeta.
  destruct (Nat.leb_spec MAX_PLAYERS (length (players (state e)))); [done|].
  destruct (existsb _ _) eqn:Hex; [done|]. cbn [snd].
  eapply calm_tableOk; [apply log_calm|].
  destruct Hok as [Oseats Onames Osize Oblinds Oraise Odealer Olog Oledger Osolv Ocards Oboard].
  destruct Oledger as [Hl1 Hl2]. destruct Osolv as [Hst Hpot].
  constructor; try done.
  - cbn. rewrite length_app, fmap_app, Nat.add_1_r, seq_S, fmap_app, Oseats. done.
  - cbn. rewrite fmap_app. apply NoDup_app. split; [done|]. split; [|apply NoDup_singleton].
    intros x Hx ->%list_elem_of_singleton. by apply existsb_name_false in Hex.
  - cbn. rewrite length_app. simpl. lia.
  - split; cbn; rewrite length_app; unfold splice_in;
      rewrite length_app, length_take; simpl; rewrite length_drop; lia.
  - split; [|done]. cbn. apply Forall_app. split; [done|]. repeat constructor. cbn. lia.
  - cbn. unfold holeCards. rewrite bind_app. cbn. by rewrite app_nil_r.
Qed.

Lemma setBlinds_tableOk sb bb e : tableOk e → tableOk (setBlinds sb bb e).
Proof.
  intros Hok.
  destruct Hok as [Oseats Onames Osize Oblinds Oraise Odealer Olog Oledger Osolv Ocards Oboard].
  constructor; try done. cbn. lia.
Qed.

Lemma removePlayer_tableOk id e : tableOk e → tableOk (removePlayer id e).
Proof.
  intros Hok. unfold removePlayer.
  destruct (list_find _ _) as [[idx p]|] eqn:Hfind; [|done].
  apply list_find_Some in Hfind as (Hidx & _ & _). cbv zeta.
  set (ps := imap (λ i pp, set_seat (Z.of_nat i) pp) (delete idx (players (state e)))).
  assert (tableOk (log (LogLeft (name p))
            (set_totalBets (delete idx (totalBets e))
               (set_streetBets (delete idx (streetBets e))
                  (upd_state (set_players ps) e))))) as Hok'.
  { eapply calm_tableOk; [apply log_calm|].
    destruct Hok as [Oseats Onames Osize Oblinds Oraise Odealer Olog Oledger Osolv Ocards Oboard].
    destruct Oledger as [Hl1 Hl2]. destruct Osolv as [Hst Hpot].
    pose proof (lookup_lt_Some _ _ _ Hidx) as Hlt.
    assert (∀ {B} (g : Player → B), (∀ i q, g (set_seat i q) = g q) →
              g <$> ps = delete idx (g <$> players (state e))) as Hproj.
    { intros B g Hg. unfold ps. rewrite fmap_imap, <- list_fmap_delete.
      apply list_eq. intros i. rewrite list_lookup_imap, list_lookup_fmap.
      destruct (delete idx (players (state e)) !! i); [|done]. simpl. f_equal. apply Hg. }
    assert (length ps = length (delete idx (players (state e)))) as Hlen
      by apply length_imap.
    constructor; try done.
    - change (seat <$> ps = Z.of_nat <$> seq 0 (length ps)).
      unfold ps. rewrite length_imap, fmap_imap. apply list_eq. intros i.
      rewrite list_lookup_imap, list_lookup_fmap.
      destruct (delete idx (players (state e)) !! i) as [q|] eqn:Hq.
      + rewrite lookup_seq_lt by (by eapply lookup_lt_Some). done.
      + rewrite lookup_seq_ge; [done|]. by apply lookup_ge_None.
    - change (NoDup (name <$> ps)). rewrite (Hproj _ name) by done.
      eapply sublist_NoDup; [exact Onames|apply sublist_delete].
    - change (length ps ≤ MAX_PLAYERS)%nat. rewrite Hlen, length_delete by done. lia.
    - assert (∀ l : list Z, length l = length (players (state e)) →
                length (delete idx l) = length ps) as Hdel.
      { intros l Hl. rewrite Hlen, !length_delete; [lia|done|].
        apply lookup_lt_is_Some. lia. }
      split; [exact (Hdel _ Hl1)|exact (Hdel _ Hl2)].
    - split; [|done]. change (Forall (λ p, 0 ≤ stack p) ps).
      apply (Forall_fmap stack (λ v, 0 ≤ v)). rewrite (Hproj _ stack) by done.
      apply Forall_delete. by apply (Forall_fmap stack (λ v, 0 ≤ v)).
    - change (NoDup (deck (state e) ++ community (state e) ++ holeCards ps)).
      revert Ocards. apply NoDup_part. do 2 apply submseteq_skips_l.
      rewrite !holeCards_mjoin, (Hproj _ (λ p, default [] (hole p))) by done.
      apply sublist_submseteq, mjoin_delete_sublist. }
  destruct (length ps =? 0)%nat; [|done].
  destruct Hok' as [Oseats Onames Osize Oblinds Oraise Odealer Olog Oledger Osolv Ocards Oboard].
  constructor; done.
Qed.

Lemma step_tableOk op e e' : step op e = Some e' → tableOk e → tableOk e'.
Proof.
  destruct op as [id nm stk owner|id|sb bb|rnd|id kind amount|id|id]; simpl.
  - intros [= <-]. apply addPlayer_tableOk.
  - intros [= <-]. apply removePlayer_tableOk.
  - intros [= <-]. apply setBlinds_tableOk.
  - apply startHand_tableOk.
  - destruct (playerAction id kind amount e) as [[ok e1]|] eqn:Hp; [|done].
    intros [= <-]. by eapply playerAction_tableOk.
  - intros [= <-]. eapply calm_tableOk. apply doShow_calm.
  - intros [= <-]. eapply calm_tableOk. apply doMuck_calm.
Qed.

Lemma run_None ops : foldl (λ oe op, oe ≫= step op) None ops = None.
Proof. induction ops as [|op ops IH]; [done|]. simpl. apply IH. Qed.

Lemma run_cons op ops e : run (op :: ops) e = step op e ≫= run ops.
Proof.
  unfold run. simpl. destruct (step op e); [done|]. apply run_None.
Qed.

Lemma run_tableOk ops e e' : run ops e = Some e' → tableOk e → tableOk e'.
Proof.
  revert e. induction ops as [|op ops IH]; intros e.
  - by intros [= <-].
  - rewrite run_cons. destruct (step op e) as [e1|] eqn:Hs; [|done].
    cbn [mbind option_bind]. intros Hr Hok. eapply IH; [exact Hr|].
    by eapply step_tableOk.
Qed.

Lemma newEngine_tableOk code : tableOk (newEngine code).
Proof.
  constructor; try done; try (by constructor);
    try (unfold logBounded, MAX_PLAYERS, LOG_LIMIT; simpl; lia).
Qed.

(** X7. Seating.  However a fresh table is played (players joining and
    leaving, blinds set, hands started, actions, shows and mucks), each
    player's [seat] is the player's index in [players], names are pairwise
    distinct, there are at most nine players, and both ledgers have exactly
    one entry for each player. *)
Theorem reachable_seating code ops e :
  run ops (newEngine code) = Some e →
  (∀ i p, players (state e) !! i = Some p → seat p = Z.of_nat i)
  ∧ NoDup (name <$> players (state e))
  ∧ (length (players (state e)) ≤ 9)%nat
  ∧ length (streetBets e) = length (players (state e))
  ∧ length (totalBets e) = length (players (state e)).
Proof.
  intros Hrun.
  destruct (run_tableOk _ _ _ Hrun (newEngine_tableOk code))
    as [Oseats Onames Osize Oblinds Oraise Odealer Olog [Hl1 Hl2] Osolv Ocards Oboard].
  split; [|done].
  intros i p Hp.
  pose proof (f_equal (λ l, l !! i) Oseats) as Hi. simpl in Hi.
  rewrite !list_lookup_fmap, Hp, lookup_seq_lt in Hi by (by eapply lookup_lt_Some).
  by injection Hi.
Qed.

Lemma reachable_seating_witness :
  NoDup (name <$> players (state headsUp))
  ∧ length (totalBets headsUp) = length (players (state headsUp)).
Proof.
  destruct (reachable_seating "room" headsUpOps headsUp) as (_ & H1 & _ & _ & H2).
  - vm_compute. reflexivity.
  - by split.
Defined.

(** X8. Blinds and log.  However a fresh table is played, the small blind
    is at least 1 and at most the big blind, the minimum raise is the big
    blind, the dealer seat is not negative, and the action log holds at
    most 200 entries. *)
Theorem reachable_blinds code ops e :
  run ops (newEngine code) = Some e →
  1 ≤ smallBlind (state e) ≤ bigBlind (state e)
  ∧ minRaise (state e) = bigBlind (state e)
  ∧ 0 ≤ dealerSeat (state e)
  ∧ (length (actionLog e) ≤ 200)%nat.
Proof.
  intros Hrun.
  by destruct (run_tableOk _ _ _ Hrun (newEngine_tableOk code))
    as [Oseats Onames Osize Oblinds Oraise Odealer Olog Oledger Osolv Ocards Oboard].
Qed.

Lemma reachable_blinds_witness :
  minRaise (state headsUp) = bigBlind (state headsUp).
Proof.
  destruct (reachable_blinds "room" headsUpOps headsUp) as (_ & H & _).
  - vm_compute. reflexivity.
  - exact H.
Defined.

(** X9. Solvency.  However a fresh table is played, no player's stack and
    no pot is ever negative. *)
Theorem reachable_solvent code ops e :
  run ops (newEngine code) = Some e →
  (∀ p, p ∈ players (state e) → 0 ≤ stack p) ∧ 0 ≤ pot (state e).
Proof.
  intros Hrun.
  destruct (run_tableOk _ _ _ Hrun (newEngine_tableOk code))
    as [Oseats Onames Osize Oblinds Oraise Odealer Olog Oledger [Hst Hpot] Ocards Oboard].
  split; [|done]. by apply Forall_forall.
Qed.

Lemma reachable_solvent_witness : 0 ≤ pot (state headsUp).
Proof.
  destruct (reachable_solvent "room" headsUpOps headsUp) as [_ H].
  - vm_compute. reflexivity.
  - exact H.
Defined.

(** X10. Cards in play.  However a fresh table is played, no card appears
    twice among the deck, the board and the players' hole cards, and the
    board holds no card before the flop, three on the flop, four on the
    turn and five on the river. *)
Theorem reachable_cards code ops e :
  run ops (newEngine code) = Some e →
  NoDup (deck (state e) ++ community (state e) ++ holeCards (players (state e)))
  ∧ (stage (state e) = preflop → community (state e) = [])
  ∧ (stage (state e) = flop → length (community (state e)) = 3%nat)
  ∧ (stage (state e) = turn → length (community (state e)) = 4%nat)
  ∧ (stage (state e) = river → length (community (state e)) = 5%nat).
Proof.
  intros Hrun.
  destruct (run_tableOk _ _ _ Hrun (newEngine_tableOk code))
    as [Oseats Onames Osize Oblinds Oraise Odealer Olog Oledger Osolv Ocards Oboard].
  split; [done|]. unfold boardOk in Oboard.
  repeat split; intros Hs; by rewrite Hs in Oboard.
Qed.

Lemma reachable_cards_witness :
  NoDup (deck (state headsUp) ++ community (state headsUp)
         ++ holeCards (players (state headsUp))).
Proof.
  destruct (reachable_cards "room" headsUpOps headsUp) as [H _].
  - vm_compute. reflexivity.
  - exact H.
Defined.

(** ** Starting a hand and dealing the streets *)

Lemma rem_seat (a : Z) (n : nat) :
  0 ≤ a → (0 < n)%nat → 0 ≤ Z.rem a (Z.of_nat n) < Z.of_nat n.
Proof. intros Ha Hn. apply Z.rem_bound_pos; lia. Qed.

Lemma at_in_range {A} (l : list A) (i : Z) :
  0 ≤ i < Z.of_nat (length l) → is_Some (at_ l i).
Proof.
  intros Hi. unfold at_. destruct (Z.ltb_spec i 0); [lia|].
  apply lookup_lt_is_Some. lia.
Qed.

Lemma postBlind_total seat amt e :
  is_Some (at_ (players (state e)) seat) → is_Some (postBlind seat amt e).
Proof.
  intros [p Hp]. unfold postBlind.
  destruct (commitChips_defined seat amt e p Hp) as [e1 Hc]. rewrite Hc.
  cbn [mbind option_bind].
  apply commitChips_calm in Hc as Hcalm.
  pose proof (fmap_eq_length _ _ _ (calm_ident _ _ Hcalm)) as Hlen.
  apply at_Some in Hp as [H0 Hp]. apply lookup_lt_Some in Hp.
  destruct (at_in_range (players (state e1)) seat) as [q ->]; [lia|]. done.
Qed.

(** what [postBlinds] sets apart from paying the blinds *)
Lemma postBlinds_fields e e' :
  postBlinds e = Some e' →
  stage (state e') = stage (state e)
  ∧ currentBet (state e') = bigBlind (state e)
  ∧ turnSeat (state e')
    = Z.rem (dealerSeat (state e) + 3) (Z.of_nat (length (players (state e))))
  ∧ lastAggressorSeat (state e')
    = Some (Z.rem (dealerSeat (state e) + 2) (Z.of_nat (length (players (state e))))).
Proof.
  unfold postBlinds. cbv zeta. intros H.
  destruct (postBlind _ _ e) as [e1|] eqn:H1; [|done]. cbn [mbind option_bind] in H.
  destruct (postBlind _ _ e1) as [e2|] eqn:H2; [|done]. cbn [mbind option_bind] in H.
  injection H as <-.
  pose proof (postBlind_calm _ _ _ _ H1) as C1.
  pose proof (postBlind_calm _ _ _ _ H2) as C2.
  apply postBlind_spec in H1 as (pay1 & m1 & x1 & Hc1 & ->).
  apply postBlind_spec in H2 as (pay2 & m2 & x2 & Hc2 & ->).
  apply commitChips_stage in Hc1, Hc2.
  pose proof (calm_trans _ _ _ C1 C2) as C.
  pose proof (fmap_eq_length _ _ _ (calm_ident _ _ C)) as Hlen.
  unfold openBetting. cbv zeta.
  change (length (players (state (log x2 m2)))) with (length (players (state (log x2 m2)))).
  repeat split.
  - change (stage (state m2) = stage (state e)). by rewrite Hc2, <- Hc1.
  - change (bigBlind (state (log x2 m2)) = bigBlind (state e)). apply (calm_bigBlind _ _ C).
  - change (Z.rem (dealerSeat (state (log x2 m2)) + 3)
              (Z.of_nat (length (players (state (log x2 m2)))))
            = Z.rem (dealerSeat (state e) + 3) (Z.of_nat (length (players (state e))))).
    by rewrite (calm_dealerSeat _ _ C), Hlen.
Qed.

Lemma dealHoles_dealt ps d ps' d' :
  dealHoles (seatedForHand <$> ps) d = Some (ps', d') →
  d ≡ₚ d' ++ holeCards ps'
  ∧ dealtTo ps ps'
  ∧ core <$> ps' = core <$> ps.
Proof.
  intros Hd. apply dealHoles_cards in Hd as [Hperm Hall].
  2:{ apply Forall_fmap, Forall_true. done. }
  split; [done|]. apply Forall2_fmap_l in Hall. split.
  - eapply Forall2_impl; [exact Hall|]. intros p p' [_ Hh]. exact Hh.
  - apply Forall2_fmap_eq. eapply Forall2_impl; [exact Hall|]. intros p p' [Hw _].
    unfold withoutHole in Hw. destruct p, p'. cbn in Hw. by simplify_eq.
Qed.

Lemma startHand_from e e1 :
  (2 ≤ length (players (state e)) ≤ MAX_PLAYERS)%nat → 0 ≤ dealerSeat (state e) →
  players (state e1) = seatedForHand <$> players (state e) →
  deck (state e1) ≡ₚ freshDeck →
  community (state e1) = [] → stage (state e1) = preflop →
  bigBlind (state e1) = bigBlind (state e) →
  dealerSeat (state e1)
  = Z.rem (dealerSeat (state e) + 1) (Z.of_nat (length (players (state e)))) →
  ∃ e', (e2 ← dealHand e1; postBlinds e2) = Some e'
    ∧ stage (state e') = preflop
    ∧ community (state e') = []
    ∧ deck (state e') ++ holeCards (players (state e')) ≡ₚ freshDeck
    ∧ dealtTo (players (state e)) (players (state e'))
    ∧ dealerSeat (state e')
      = Z.rem (dealerSeat (state e) + 1) (Z.of_nat (length (players (state e))))
    ∧ currentBet (state e') = bigBlind (state e)
    ∧ turnSeat (state e')
      = Z.rem (dealerSeat (state e') + 3) (Z.of_nat (length (players (state e)))).
Proof.
  intros Hn Hd0 Hps Hdk Hcm Hst Hbb Hdl.
  unfold dealHand.
  destruct (dealHoles_total (players (state e1)) (deck (state e1))) as [[ps d] Hdeal].
  { rewrite Hdk, Hps, length_fmap. unfold MAX_PLAYERS in Hn.
    change (length freshDeck) with 52%nat. lia. }
  rewrite Hdeal. cbn [mbind option_bind].
  rewrite Hps in Hdeal. apply dealHoles_dealt in Hdeal as (Hperm & Hdealt & Hcore).
  pose proof (fmap_eq_length _ _ _ Hcore) as Hlen.
  set (e2 := upd_state (λ s, set_deck d (set_players ps s)) e1).
  assert (players (state e2) = ps) as Hps2 by reflexivity.
  assert (deck (state e2) = d) as Hdk2 by reflexivity.
  assert (community (state e2) = community (state e1)) as Hcm2 by reflexivity.
  assert (stage (state e2) = stage (state e1)) as Hst2 by reflexivity.
  assert (bigBlind (state e2) = bigBlind (state e1)) as Hbb2 by reflexivity.
  assert (dealerSeat (state e2) = dealerSeat (state e1)) as Hdl2 by reflexivity.
  clearbody e2.
  assert (0 ≤ dealerSeat (state e2)) as Hd2.
  { rewrite Hdl2, Hdl. apply rem_seat; lia. }
  assert (is_Some (postBlinds e2)) as [e' He'].
  { unfold postBlinds. cbv zeta.
    destruct (postBlind_total (Z.rem (dealerSeat (state e2) + 1)
                (Z.of_nat (length (players (state e2))))) (smallBlind (state e2)) e2)
      as [m1 Hm1].
    { apply at_in_range, rem_seat; [lia|]. rewrite Hps2, Hlen. lia. }
    rewrite Hm1. cbn [mbind option_bind].
    pose proof (fmap_eq_length _ _ _ (calm_ident _ _ (postBlind_calm _ _ _ _ Hm1))) as Hl1.
    destruct (postBlind_total (Z.rem (dealerSeat (state e2) + 2)
                (Z.of_nat (length (players (state e2))))) (bigBlind (state m1)) m1)
      as [m2 Hm2].
    { apply at_in_range. rewrite Hl1. apply rem_seat; [lia|]. rewrite Hps2, Hlen. lia. }
    rewrite Hm2. done. }
  exists e'. split; [done|].
  pose proof (postBlinds_calm _ _ He') as C.
  apply postBlinds_fields in He' as (Hs & Hcb & Hts & _).
  pose proof (calm_ident _ _ C) as Hid.
  split; [by rewrite Hs, Hst2|].
  split; [by rewrite (calm_community _ _ C), Hcm2|].
  split.
  { rewrite (calm_deck _ _ C), (holeCards_ident _ _ Hid), Hdk2, Hps2, <- Hperm. done. }
  split.
  { unfold dealtTo in *. rewrite <- Hps2 in Hdealt.
    assert (hole <$> players (state e') = hole <$> players (state e2)) as Hh
      by exact (ident_fmap (λ i, i.2) _ _ Hid).
    clear -Hdealt Hh. revert Hh Hdealt. generalize (players (state e')), (players (state e2)).
    intros l' l Hh Hd. revert l' Hh.
    induction Hd as [|p q ps0 l Hpq _ IH]; intros [|q' l'] Hh; try done.
    rewrite !fmap_cons in Hh. apply (inj2 cons) in Hh as [Hq Hl].
    constructor; [by rewrite Hq|by apply IH]. }
  split; [by rewrite (calm_dealerSeat _ _ C), Hdl2|].
  split; [by rewrite Hcb, Hbb2|].
  by rewrite Hts, (calm_dealerSeat _ _ C), Hps2, Hlen.
Qed.

(** X11. Starting a hand at a table of two to nine players whose dealer
    seat is not negative always succeeds.  Afterwards the stage is
    [preflop], the board is empty, every player who had chips holds two
    cards and every other player none, the deck together with the hole
    cards is the full deck of 52 cards, the button has moved one seat on,
    the bet to match is the big blind, and the first to act sits three
    seats after the button. *)
Theorem startHand_deals rnd e :
  (2 ≤ length (players (state e)) ≤ MAX_PLAYERS)%nat → 0 ≤ dealerSeat (state e) →
  ∃ e', startHand rnd e = Some e'
    ∧ stage (state e') = preflop
    ∧ community (state e') = []
    ∧ deck (state e') ++ holeCards (players (state e')) ≡ₚ freshDeck
    ∧ dealtTo (players (state e)) (players (state e'))
    ∧ dealerSeat (state e')
      = Z.rem (dealerSeat (state e) + 1) (Z.of_nat (length (players (state e))))
    ∧ currentBet (state e') = bigBlind (state e)
    ∧ turnSeat (state e')
      = Z.rem (dealerSeat (state e') + 3) (Z.of_nat (length (players (state e)))).
Proof.
  intros Hn Hd. unfold startHand.
  destruct (Nat.ltb_spec (length (players (state e))) 2); [lia|].
  destruct (openHand_shape rnd e _ eq_refl)
    as (Hps & Hdk & Hcm & Hst & Hpot & Hcode & Hsb & Hbb & Hmr & Hdl & Hlog & Hsbt & Htb).
  apply (startHand_from e (openHand rnd e) Hn Hd Hps); try done.
  rewrite Hdk. apply shuffle_Permutation.
Qed.

Lemma startHand_deals_witness :
  ∃ e', startHand noShuffle (addPlayer "b" "Bob" 100 false
                               (addPlayer "a" "Alice" 100 true (newEngine "room")).2).2
        = Some e'
      ∧ stage (state e') = preflop
      ∧ deck (state e') ++ holeCards (players (state e')) ≡ₚ freshDeck.
Proof.
  destruct (startHand_deals noShuffle
              (addPlayer "b" "Bob" 100 false
                 (addPlayer "a" "Alice" 100 true (newEngine "room")).2).2)
    as (e' & H1 & H2 & _ & H3 & _).
  - vm_compute. lia.
  - vm_compute. discriminate.
  - exists e'. by repeat split.
Defined.

Lemma advanceStage_reset e e' :
  advanceStage e = Some e' → isBetting (stage (state e)) = true →
  stage (state e) ≠ river →
  currentBet (state e') = 0
  ∧ minRaise (state e') = bigBlind (state e)
  ∧ streetBets e' = replicate (length (players (state e))) 0.
Proof.
  unfold advanceStage. cbv zeta.
  assert (stage (state (resetStreet e)) = stage (state e)) as Hs0 by reflexivity.
  assert (currentBet (state (resetStreet e)) = 0) as Hc0 by reflexivity.
  assert (minRaise (state (resetStreet e)) = bigBlind (state e)) as Hm0 by reflexivity.
  assert (streetBets (resetStreet e) = replicate (length (players (state e))) 0) as Hb0.
  { cbn. by rewrite length_fmap. }
  revert Hs0 Hc0 Hm0 Hb0. generalize (resetStreet e). intros e0 Hs0 Hc0 Hm0 Hb0 H Hb Hr.
  rewrite <- Hs0 in Hb, Hr. clear Hs0.
  destruct (stage (state e0)) eqn:Hst; try done.
  - destruct (pop _) as [[? d0]|]; [|done]. cbn [mbind option_bind] in H.
    destruct (pop d0) as [[f1 d1]|]; [|done]. cbn [mbind option_bind] in H.
    destruct (pop d1) as [[f2 d2]|]; [|done]. cbn [mbind option_bind] in H.
    destruct (pop d2) as [[f3 d3]|]; [|done]. cbn [mbind option_bind] in H.
    destruct (nextSeat _ _) as [t|]; [|done]. cbn [mbind option_bind] in H.
    injection H as <-. split; [exact Hc0|]. split; [exact Hm0|exact Hb0].
  - destruct (pop _) as [[? d0]|]; [|done]. cbn [mbind option_bind] in H.
    destruct (pop d0) as [[f1 d1]|]; [|done]. cbn [mbind option_bind] in H.
    destruct (nextSeat _ _) as [t|]; [|done]. cbn [mbind option_bind] in H.
    injection H as <-. split; [exact Hc0|]. split; [exact Hm0|exact Hb0].
  - destruct (pop _) as [[? d0]|]; [|done]. cbn [mbind option_bind] in H.
    destruct (pop d0) as [[f1 d1]|]; [|done]. cbn [mbind option_bind] in H.
    destruct (nextSeat _ _) as [t|]; [|done]. cbn [mbind option_bind] in H.
    injection H as <-. split; [exact Hc0|]. split; [exact Hm0|exact Hb0].
Qed.

(** X12. Dealing a street.  When [advanceStage] leaves preflop, flop or
    turn it burns the last card of the deck and moves the next three (after
    preflop) or the next one (after flop or turn) from the end of the deck
    onto the board, in the order they come off; the stage moves on by one,
    every player's acted flag is cleared, the bet to match and the street
    ledger are reset to zero, the minimum raise is the big blind, and the
    stacks, the hole cards, the pot and the hand ledger are as before. *)
Theorem advanceStage_deals e e' :
  advanceStage e = Some e' → isBetting (stage (state e)) = true →
  stage (state e) ≠ river →
  ∃ d burn cs,
    deck (state e) = d ++ reverse cs ++ [burn]
    ∧ length cs = streetCards (stage (state e))
    ∧ deck (state e') = d
    ∧ community (state e') = community (state e) ++ cs
    ∧ stage (state e') = nextStage (stage (state e))
    ∧ players (state e') = set_hasActedThisRound false <$> players (state e)
    ∧ pot (state e') = pot (state e)
    ∧ totalBets e' = totalBets e
    ∧ currentBet (state e') = 0
    ∧ minRaise (state e') = bigBlind (state e)
    ∧ streetBets e' = replicate (length (players (state e))) 0.
Proof.
  intros H Hb Hr.
  destruct (advanceStage_deal _ _ H Hb Hr) as (d & burn & cs & Hd & Hl & Hc).
  destruct (advanceStage_street _ _ H Hr) as (Hps & Hpot & Htb & Hst).
  destruct (advanceStage_reset _ _ H Hb Hr) as (Hcb & Hmr & Hsb).
  exists d, burn, cs.
  split; [done|]. split; [done|].
  split; [exact (calm_deck _ _ Hc)|].
  split; [exact (calm_community _ _ Hc)|]. done.
Qed.

Lemma advanceStage_deals_witness :
  ∃ e', advanceStage headsUp = Some e'
      ∧ length (community (state e')) = 3%nat
      ∧ length (deck (state e')) = 44%nat.
Proof.
  destruct (advanceStage headsUp) as [e'|] eqn:H; [|vm_compute in H; discriminate H].
  exists e'. split; [done|].
  destruct (advanceStage_deals headsUp e' H) as (d & burn & cs & Hd & Hl & Hd' & Hc & _).
  - vm_compute. reflexivity.
  - vm_compute. discriminate.
  - assert (length (deck (state headsUp)) = 48%nat) as E1 by (vm_compute; reflexivity).
    assert (streetCards (stage (state headsUp)) = 3%nat) as E2 by (vm_compute; reflexivity).
    assert (length (community (state headsUp)) = 0%nat) as E3 by (vm_compute; reflexivity).
    rewrite Hc, Hd', length_app, Hl, E2, E3.
    apply (f_equal length) in Hd.
    rewrite !length_app, length_reverse, Hl, E1, E2 in Hd. simpl in Hd.
    split; [reflexivity|]. lia.
Defined.

(** ** Whose turn it is *)

Lemma nextSeat_from_total ps from steps :
  0 ≤ from → (0 < length ps)%nat → is_Some (nextSeat_from ps from steps).
Proof.
  intros Hf Hn. induction steps as [|i steps IH]; [done|]. simpl.
  destruct (at_in_range ps (Z.rem (from + Z.of_nat i) (Z.of_nat (length ps)))) as [p ->].
  { apply rem_seat; lia. }
  cbn [mbind option_bind]. by destruct (_ && _).
Qed.

(** X13. [nextSeat] from a seat that is not negative always returns a seat:
    the first seat after [from], going round the table, whose player is in
    the hand and not all-in; and when no player at the table is in the hand
    and not all-in, it returns [from] itself. *)
Theorem nextSeat_finds_next_active s from :
  0 ≤ from →
  ∃ t, nextSeat s from = Some t
     ∧ (nextActive (players s) from t
        ∨ (t = from ∧ Forall (λ p, active p = false) (players s))).
Proof.
  intros Hf. unfold nextSeat.
  destruct (players s) as [|p0 ps0] eqn:Hps.
  { exists from. split; [done|]. right. split; [done|constructor]. }
  rewrite <- Hps.
  destruct (nextSeat_from_total (players s) from (seq 1 (length (players s)))) as [t Ht];
    [done|rewrite Hps; simpl; lia|].
  exists t. split; [done|].
  apply nextSeat_from_seq in Ht as [[-> Hall]|(i & Hi & -> & Hact & Hskip)].
  - right. split; [done|]. apply Forall_forall. intros p Hp.
    apply list_elem_of_lookup in Hp as [k Hk].
    destruct (seatAfter_reaches (players s) from k Hf) as (j & Hj & Hjk);
      [by eapply lookup_lt_Some|].
    destruct (Hall j) as (q & Hq & Hqa); [lia|].
    rewrite Hjk, at_nat, Hk in Hq. by injection Hq as ->.
  - left. exists i. split; [lia|]. split; [done|]. split; [done|].
    intros j Hj. apply Hskip. lia.
Qed.

Lemma nextSeat_finds_next_active_witness :
  nextSeat (state headsUp) 0 = Some 1.
Proof.
  destruct (nextSeat_finds_next_active (state headsUp) 0) as (t & Ht & _); [lia|].
  rewrite Ht. vm_compute in Ht. symmetry. exact Ht.
Defined.

(** ** Showing and mucking *)

Lemma set_has_delete (s : list Z) x : set_has (set_delete s x) x = false.
Proof.
  unfold set_has, set_delete. apply bool_decide_eq_false.
  intros [H _]%list_elem_of_filter. done.
Qed.

Lemma publicHoleOf_log_set x rs pr s v e :
  publicHoleOf (log x (set_revealSeats rs (set_publicReveals (map_set pr s v) e))) s = v.
Proof.
  unfold publicHoleOf.
  change (publicReveals (log x _)) with (map_set pr s v).
  by rewrite map_get_set, decide_True.
Qed.

Lemma canReveal_spec id e :
  canReveal id e = true ↔
  ∃ j p, findById id e = Some (j, p) ∧ stage (state e) = showdown
         ∧ seat p ∈ revealSeats e.
Proof.
  unfold canReveal. destruct (findById id e) as [[j p]|]; [|naive_solver].
  unfold set_has. destruct (decide (stage (state e) = showdown)) as [Hs|Hs].
  - rewrite (bool_decide_eq_true_2 _ Hs). cbn [negb].
    rewrite bool_decide_eq_true. naive_solver.
  - rewrite (bool_decide_eq_false_2 _ Hs). cbn [negb]. naive_solver.
Qed.

(** X14. Show or muck, once.  [doShow] and [doMuck] succeed exactly when
    [canReveal] holds: the id is at the table, the stage is [showdown] and
    the player's seat is among the seats offered the choice; otherwise they
    change nothing.  After a show the player's hole cards are public, after
    a muck nothing is public for that seat; either way the table state is
    untouched and the seat is no longer offered the choice, so that a
    second show or muck is refused. *)
Theorem reveal_once id e :
  (doShow id e).1 = canReveal id e
  ∧ (doMuck id e).1 = canReveal id e
  ∧ (canReveal id e = false → (doShow id e).2 = e ∧ (doMuck id e).2 = e)
  ∧ (canReveal id e = true →
     ∃ j p, findById id e = Some (j, p)
       ∧ stage (state e) = showdown
       ∧ seat p ∈ revealSeats e
       ∧ (∀ h, hole p = Some h → publicHoleOf (doShow id e).2 (seat p) = Some h)
       ∧ publicHoleOf (doMuck id e).2 (seat p) = None
       ∧ state (doShow id e).2 = state e
       ∧ state (doMuck id e).2 = state e
       ∧ canReveal id (doShow id e).2 = false
       ∧ canReveal id (doMuck id e).2 = false
       ∧ (doShow id (doMuck id e).2).1 = false
       ∧ (doMuck id (doShow id e).2).1 = false).
Proof.
  assert ((doShow id e).1 = canReveal id e) as Hshow.
  { unfold doShow. destruct (findById id e) as [[j p]|] eqn:Hf.
    - by destruct (canReveal id e).
    - unfold canReveal. by rewrite Hf. }
  assert ((doMuck id e).1 = canReveal id e) as Hmuck.
  { unfold doMuck. destruct (findById id e) as [[j p]|] eqn:Hf.
    - by destruct (canReveal id e).
    - unfold canReveal. by rewrite Hf. }
  split; [done|]. split; [done|]. split.
  { intros Hc. unfold doShow, doMuck. rewrite Hc.
    by destruct (findById id e) as [[j p]|]. }
  intros Hc. pose proof Hc as (j & p & Hf & Hs & Hin)%canReveal_spec.
  exists j, p. split; [done|]. split; [done|]. split; [done|].
  assert (∀ e', state e' = state e → revealSeats e' = set_delete (revealSeats e) (seat p) →
                canReveal id e' = false) as Hno.
  { intros e' Hst Hrs. unfold canReveal, findById. rewrite Hst.
    unfold findById in Hf. rewrite Hf, Hrs, set_has_delete. by destruct (negb _). }
  assert (state (doShow id e).2 = state e
          ∧ revealSeats (doShow id e).2 = set_delete (revealSeats e) (seat p)
          ∧ ∀ h, hole p = Some h → publicHoleOf (doShow id e).2 (seat p) = Some h)
    as (Hs1 & Hr1 & Hp1).
  { unfold doShow. rewrite Hf, Hc. cbn [negb snd].
    destruct (hole p) as [h|].
    - split; [done|]. split; [done|]. intros h' Hh. injection Hh as <-.
      apply publicHoleOf_log_set.
    - split; [done|]. split; [done|]. intros h' [=]. }
  assert (state (doMuck id e).2 = state e
          ∧ revealSeats (doMuck id e).2 = set_delete (revealSeats e) (seat p)
          ∧ publicHoleOf (doMuck id e).2 (seat p) = None)
    as (Hs2 & Hr2 & Hp2).
  { unfold doMuck. rewrite Hf, Hc. cbn [negb snd].
    split; [done|]. split; [done|]. apply publicHoleOf_log_set. }
  pose proof (Hno _ Hs1 Hr1) as Hn1. pose proof (Hno _ Hs2 Hr2) as Hn2.
  repeat split; try done.
  - unfold doShow at 1. rewrite Hn2.
    by destruct (findById id (doMuck id e).2) as [[? ?]|].
  - unfold doMuck at 1. rewrite Hn1.
    by destruct (findById id (doShow id e).2) as [[? ?]|].
Qed.

Lemma reveal_once_witness :
  canReveal "b" foldedToBob = true
  ∧ (doMuck "b" (doShow "b" foldedToBob).2).1 = false.
Proof.
  destruct (reveal_once "b" foldedToBob) as (_ & _ & _ & H).
  assert (canReveal "b" foldedToBob = true) as Hc by (vm_compute; reflexivity).
  split; [exact Hc|].
  destruct (H Hc) as (j & p & _ & _ & _ & _ & _ & _ & _ & _ & _ & _ & Hm).
  exact Hm.
Defined.

(** ** The private view *)

Lemma publicView_eq e1 e2 :
  samePublic e1 e2 → getBroadcastView e1 = getBroadcastView e2.
Proof.
  intros (Hst & Hps & Hsb & Htb & Hpr & Hrs & Hlog).
  assert (playerView e1 <$> players (state e1) = playerView e2 <$> players (state e2))
    as Hviews.
  { clear -Hps Hpr. induction Hps as [|p q ps qs Hpq _ IH]; [done|].
    rewrite !fmap_cons, IH. f_equal. by apply samePublicPlayer_view. }
  assert (buildSidePots e1 = buildSidePots e2) as Hpots.
  { apply buildSidePots_ext; [|done].
    clear -Hps. induction Hps as [|p q ps qs [Hpq _] _ IH]; [done|].
    rewrite !fmap_cons, IH. f_equal. by apply (f_equal inHand) in Hpq. }
  unfold getBroadcastView. cbv zeta. rewrite Hviews, Hpots, Hrs, Hlog.
  destruct (state e1), (state e2). cbn in Hst |- *. by simplify_eq.
Qed.

(** X15. The private view.  [getClientView] returns the broadcast view and
    attaches hole cards only to player entries that carry the requestor's
    id, and only the requestor's own cards.  So for two states that differ
    at most in the deck and in hole cards (with equal counts and equal
    public reveals) and in which the requestor holds the same cards, the
    requestor's view is the same: it shows nothing of the other players'
    cards. *)
Theorem client_view_shows_own_cards_only r e1 e2 :
  (getClientView r e1).1 = getBroadcastView e1
  ∧ (getClientView r e1).2
    = (λ p, if String.eqb (id p) r then ownHole r e1 else None) <$> players (state e1)
  ∧ (samePublic e1 e2 → ownHole r e1 = ownHole r e2 →
     getClientView r e1 = getClientView r e2).
Proof.
  assert (∀ e, (getClientView r e).1 = getBroadcastView e
               ∧ (getClientView r e).2
                 = (λ p, if String.eqb (id p) r then ownHole r e else None)
                     <$> players (state e)) as Hshape.
  { intros e. unfold getClientView, ownHole. cbv zeta.
    destruct (findById r e ≫= _) as [h|]; cbn [fst snd].
    - split; [done|]. unfold getBroadcastView. cbn [v_players].
      rewrite <- list_fmap_compose. done.
    - split; [done|]. unfold getBroadcastView. cbn [v_players].
      rewrite <- list_fmap_compose. apply list_fmap_ext. intros _ p _. cbn.
      by destruct (String.eqb _ _). }
  destruct (Hshape e1) as [H1 H2]. split; [done|]. split; [done|].
  intros Hsame Hown.
  destruct (Hshape e2) as [H1' H2'].
  apply injective_projections.
  - by rewrite H1, H1', (publicView_eq e1 e2 Hsame).
  - rewrite H2, H2', Hown. destruct Hsame as (_ & Hps & _). clear -Hps.
    induction Hps as [|p q ps qs [Hpq _] _ IH]; [done|].
    rewrite !fmap_cons, IH. f_equal. apply (f_equal id) in Hpq. cbn in Hpq.
    by rewrite Hpq.
Qed.

Lemma client_view_shows_own_cards_only_witness :
  getClientView "a" headsUp
  = getClientView "a"
      (upd_player 1 (set_hole (Some [mkCard 2 Clubs; mkCard 3 Clubs])) headsUp).
Proof.
  destruct (client_view_shows_own_cards_only "a" headsUp
              (upd_player 1 (set_hole (Some [mkCard 2 Clubs; mkCard 3 Clubs])) headsUp))
    as (_ & _ & H).
  apply H.
  - vm_compute. repeat split. repeat constructor.
  - vm_compute. reflexivity.
Defined.

(** ** The shape of the side pots *)

Lemma positiveSeats_takeLayer layer remain i :
  i ∈ positiveSeats (takeLayer layer remain) → i ∈ positiveSeats remain.
Proof.
  rewrite !elem_of_positiveSeats. intros (v' & Hv' & Hpos).
  unfold takeLayer in Hv'. rewrite list_lookup_fmap in Hv'.
  destruct (remain !! i) as [v|] eqn:Hv; [|done]. injection Hv' as <-.
  exists v. split; [done|]. destruct (Z.ltb_spec 0 v); lia.
Qed.

Lemma Layering_shape ps remain pots :
  Layering ps remain pots →
  (length pots ≤ posCount remain)%nat
  ∧ Forall (λ p, ∀ s, s ∈ eligibleSeats p →
              ∃ i, s = Z.of_nat i ∧ i ∈ positiveSeats remain ∧ stillIn ps i = true) pots
  ∧ StronglySorted (λ p q, eligibleSeats q ⊆ eligibleSeats p) pots.
Proof.
  induction 1 as [remain Hnone|remain layer pots [Hpos [Hin Hmin]] _ (IHlen & IHel & IHs)].
  - split; [simpl; lia|]. split; constructor.
  - pose proof (posCount_takeLayer_lt layer remain Hpos Hin) as Hlt.
    split; [simpl; lia|].
    assert (Forall (λ p, ∀ s, s ∈ eligibleSeats p →
              ∃ i, s = Z.of_nat i ∧ i ∈ positiveSeats remain ∧ stillIn ps i = true) pots)
      as Hel.
    { eapply Forall_impl; [exact IHel|]. intros p Hp s Hs.
      destruct (Hp s Hs) as (i & -> & Hi & Hst). exists i.
      split; [done|]. split; [by eapply positiveSeats_takeLayer|done]. }
    split.
    + constructor; [|done]. cbn [eligibleSeats]. intros s Hs.
      apply list_elem_of_fmap in Hs as (i & -> & Hi).
      apply list_elem_of_In, filter_In in Hi as [Hi Hst].
      exists i. split; [done|]. split; [by apply list_elem_of_In|done].
    + constructor; [done|]. eapply Forall_impl; [exact Hel|].
      intros q Hq s Hs. cbn [eligibleSeats].
      destruct (Hq s Hs) as (i & -> & Hi & Hst).
      apply list_elem_of_fmap. exists i. split; [done|].
      apply list_elem_of_In, filter_In. split; [by apply list_elem_of_In|done].
Qed.

Lemma StronglySorted_at {A} (R : A → A → Prop) (l : list A) i j x y :
  StronglySorted R l → (i < j)%nat → l !! i = Some x → l !! j = Some y → R x y.
Proof.
  intros Hs. revert i j. induction Hs as [|a l Hs IH Hall]; intros i j Hij Hx Hy; [done|].
  destruct j as [|j]; [lia|]. destruct i as [|i]; simpl in Hx, Hy.
  - injection Hx as ->. rewrite Forall_forall in Hall. apply Hall.
    by eapply list_elem_of_lookup_2.
  - eapply IH; [|done..]. lia.
Qed.

(** X16. The shape of the side pots.  With one ledger entry for each
    player, [buildSidePots] returns at most one pot for each player; every
    pot has a positive amount; every seat eligible for a pot belongs to a
    player who is in the hand and has put chips in; the eligible seats of a
    later pot are all eligible for every earlier pot; and the amounts add
    up to the chips entered in the ledger. *)
Theorem buildSidePots_shape e :
  length (totalBets e) = length (players (state e)) →
  (length (buildSidePots e) ≤ length (players (state e)))%nat
  ∧ Forall (λ p, 0 < amount p) (buildSidePots e)
  ∧ (∀ p s, p ∈ buildSidePots e → s ∈ eligibleSeats p →
       ∃ pl, at_ (players (state e)) s = Some pl
             ∧ inHand pl = true ∧ 0 < num_at (totalBets e) s)
  ∧ (∀ i j p q, (i < j)%nat → buildSidePots e !! i = Some p →
       buildSidePots e !! j = Some q → eligibleSeats q ⊆ eligibleSeats p)
  ∧ sumZ (amount <$> buildSidePots e) = sumZ (Z.max 0 <$> totalBets e).
Proof.
  intros Hlen. pose proof (buildSidePots_Layering e Hlen) as HL.
  destruct (Layering_shape _ _ _ HL) as (Hn & Hel & Hs).
  split.
  { etrans; [exact Hn|]. etrans; [apply posCount_le_length|].
    by rewrite length_fmap, Hlen. }
  split; [apply buildSidePots_positive|]. split; [|split].
  - intros p s Hp Hsin. rewrite Forall_forall in Hel.
    destruct (Hel p Hp s Hsin) as (i & -> & Hi & Hst).
    apply elem_of_positiveSeats in Hi as (v & Hv & Hpos).
    rewrite list_lookup_fmap in Hv.
    destruct (totalBets e !! i) as [w|] eqn:Hw; [|done]. injection Hv as <-.
    unfold stillIn in Hst. destruct (players (state e) !! i) as [pl|] eqn:Hpl; [|done].
    exists pl. rewrite at_nat, num_at_nat, Hw. split; [done|]. split; [done|]. simpl.
    destruct (Z.max_spec 0 w) as [[? Hm]|[? Hm]]; rewrite Hm in Hpos; lia.
  - intros i j p q Hij Hp Hq.
    exact (StronglySorted_at _ _ i j p q Hs Hij Hp Hq).
  - rewrite (Layering_sum _ _ _ HL), <- list_fmap_compose.
    f_equal. apply list_fmap_ext. intros _ v _. simpl. lia.
Qed.

Lemma buildSidePots_shape_witness :
  sumZ (amount <$> buildSidePots threeWayFolded) = 90
  ∧ (length (buildSidePots threeWayFolded) ≤ 3)%nat.
Proof.
  destruct (buildSidePots_shape threeWayFolded) as (H1 & _ & _ & _ & H2).
  - reflexivity.
  - split; [rewrite H2; reflexivity|exact H1].
Defined.

(** ** Joining and being kicked *)

Lemma hasPlayer_false id e :
  hasPlayer id e = false ↔ Forall (λ p, PokerEngine.id p ≠ id) (players (state e)).
Proof.
  unfold hasPlayer, findById.
  destruct (list_find _ _) as [[j p]|] eqn:Hf.
  - split; [done|]. intros Hall. apply list_find_Some in Hf as (Hj & Hp & _).
    rewrite Forall_forall in Hall. exfalso. eapply Hall; [|exact Hp].
    by eapply list_elem_of_lookup_2.
  - split; [|done]. intros _. by apply list_find_None in Hf.
Qed.

Lemma list_find_snoc {A} (P : A → Prop) `{∀ x, Decision (P x)} (l : list A) x :
  Forall (λ y, ¬ P y) l → P x → list_find P (l ++ [x]) = Some (length l, x).
Proof.
  intros Hl Hx. apply list_find_Some. split; [by apply list_lookup_middle|].
  split; [done|]. intros j y Hy Hj. rewrite lookup_app_l in Hy by done.
  rewrite Forall_forall in Hl. apply Hl. by eapply list_elem_of_lookup_2.
Qed.

Lemma delete_snoc {A} (l : list A) x : delete (length l) (l ++ [x]) = l.
Proof. induction l as [|y l IH]; [done|]. simpl. by rewrite IH. Qed.

Lemma imap_set_seat_id (ps : list Player) :
  seat <$> ps = Z.of_nat <$> seq 0 (length ps) →
  imap (λ i pp, set_seat (Z.of_nat i) pp) ps = ps.
Proof.
  intros Hs. apply list_eq. intros i. rewrite list_lookup_imap.
  destruct (ps !! i) as [q|] eqn:Hq; [|done]. simpl. f_equal.
  pose proof (f_equal (λ l, l !! i) Hs) as Hi. simpl in Hi.
  rewrite !list_lookup_fmap, Hq, lookup_seq_lt in Hi by (by eapply lookup_lt_Some).
  injection Hi as Hi. destruct q. cbn in *. by subst.
Qed.

(** X17. Joining and being kicked.  When [addPlayer] succeeds for an id
    that was not at the table, the id is at the table afterwards, with the
    owner flag it was given; and on a table where every seat number is the
    player's index and the ledgers have one entry for each player, kicking
    that id again restores the players and both ledgers, and the id is no
    longer at the table. *)
Theorem join_then_kick id nm stk owner e e' :
  addPlayer id nm stk owner e = (true, e') →
  hasPlayer id e = false →
  seat <$> players (state e) = Z.of_nat <$> seq 0 (length (players (state e))) →
  length (streetBets e) = length (players (state e)) →
  length (totalBets e) = length (players (state e)) →
  hasPlayer id e' = true
  ∧ engineIsOwner id e' = owner
  ∧ players (state (kick id e')) = players (state e)
  ∧ streetBets (kick id e') = streetBets e
  ∧ totalBets (kick id e') = totalBets e
  ∧ hasPlayer id (kick id e') = false.
Proof.
  intros Hadd Hnew Hseats Hl1 Hl2.
  apply hasPlayer_false in Hnew as Hall.
  assert (delete (length (players (state e)))
            (splice_in (streetBets e) (length (players (state e))) 0) = streetBets e) as Hd1.
  { rewrite <- Hl1. by rewrite splice_in_end, delete_snoc. }
  assert (delete (length (players (state e)))
            (splice_in (totalBets e) (length (players (state e))) 0) = totalBets e) as Hd2.
  { rewrite <- Hl2. by rewrite splice_in_end, delete_snoc. }
  unfold addPlayer in Hadd. cbv zeta in Hadd.
  destruct (_ <=? _)%nat; [done|]. destruct (existsb _ _); [done|].
  injection Hadd as <-.
  set (p := mkPlayer id nm (Z.max 1 (Qfloor stk)) (Z.of_nat (length (players (state e))))
              None true false false owner).
  assert (findById id (log (LogJoined nm (Z.of_nat (length (players (state e))) + 1) stk)
            (set_totalBets (splice_in (totalBets e) (length (players (state e))) 0)
               (set_streetBets (splice_in (streetBets e) (length (players (state e))) 0)
                  (upd_state (set_players (players (state e) ++ [p])) e))))
          = Some (length (players (state e)), p)) as Hfind.
  { unfold findById. cbn [state log set_actionLog set_totalBets set_streetBets upd_state
                          players set_players].
    by apply list_find_snoc. }
  split; [unfold hasPlayer; by rewrite Hfind|].
  split; [unfold engineIsOwner; by rewrite Hfind|].
  unfold kick, removePlayer. unfold findById in Hfind. rewrite Hfind. cbv zeta.
  cbn [state log set_actionLog set_totalBets set_streetBets upd_state players set_players
       streetBets totalBets].
  rewrite delete_snoc, (imap_set_seat_id _ Hseats), Hd1, Hd2.
  destruct (length (players (state e)) =? 0)%nat; repeat split; try done.
Qed.

Lemma join_then_kick_witness :
  players (state (kick "c" (addPlayer "c" "Carol" 40 false headsUp).2))
  = players (state headsUp).
Proof.
  destruct (join_then_kick "c" "Carol" 40 false headsUp
              (addPlayer "c" "Carol" 40 false headsUp).2) as (_ & _ & H & _).
  - vm_compute. reflexivity.
  - vm_compute. reflexivity.
  - vm_compute. reflexivity.
  - vm_compute. reflexivity.
  - vm_compute. reflexivity.
  - exact H.
Defined.

(** ** Acting out of turn, checking, calling and betting *)

(** X18. The guards of [playerAction].  The action is refused, and nothing
    changes, outside the four betting stages, when no player sits at the
    turn seat, when the id is not that of the player at the turn seat, and
    when that player has folded or is all-in; for the player to act, a check
    is refused while there is something to call, a call is refused when
    there is nothing to call, and a bet is refused once there is a bet to
    match. *)
Theorem playerAction_guards id kind amount e :
  (isBetting (stage (state e)) = false →
   playerAction id kind amount e = Some (false, e))
  ∧ (at_ (players (state e)) (turnSeat (state e)) = None →
     playerAction id kind amount e = Some (false, e))
  ∧ (∀ actor, at_ (players (state e)) (turnSeat (state e)) = Some actor →
       PokerEngine.id actor ≠ id ∨ inHand actor = false ∨ isAllIn actor = true →
       playerAction id kind amount e = Some (false, e))
  ∧ (∀ actor, at_ (players (state e)) (turnSeat (state e)) = Some actor →
       let toCall := Z.max 0 (currentBet (state e) - num_at (streetBets e) (seat actor)) in
       (kind = KCheck ∧ toCall ≠ 0) ∨ (kind = KCall ∧ toCall = 0)
       ∨ (kind = KBet ∧ currentBet (state e) ≠ 0) →
       playerAction id kind amount e = Some (false, e)).
Proof.
  unfold playerAction, applyAction.
  split; [by intros ->|].
  destruct (isBetting _); cbn [negb]; [|done].
  split; [by intros ->|]. split.
  - intros actor -> Hor.
    destruct (String.eqb_spec (PokerEngine.id actor) id) as [Heq|Hne]; cbn [negb orb]; [|done].
    destruct Hor as [?|[-> | ->]]; [done|done|]. by destruct (inHand actor).
  - intros actor Hact. cbv zeta. intros Hor. rewrite Hact.
    destruct (_ || _); [done|].
    destruct Hor as [[-> Hc]|[[-> Hc]|[-> Hc]]].
    + unfold checkAction.
      by destruct (Z.eqb_spec (Z.max 0 (currentBet (state e)
                                        - num_at (streetBets e) (seat actor))) 0).
    + unfold callAction. rewrite Hc. done.
    + unfold betAction. by destruct (Z.eqb_spec (currentBet (state e)) 0).
Qed.

Lemma playerAction_guards_witness :
  playerAction "b" KCall None headsUp = Some (false, headsUp).
Proof.
  destruct (playerAction_guards "b" KCall None headsUp) as (_ & _ & H & _).
  eapply H; [vm_compute; reflexivity|]. left. vm_compute. discriminate.
Defined.

(** X19. Calling.  For the player to act, a call pays the amount to call,
    capped by the stack of the player's seat; it is refused, and nothing
    changes, when that is nothing.  When it is applied the payment goes from
    the stacks to the pot and onto the player's street contribution, which
    never exceeds the bet to match and falls short of it exactly when the
    stack could not cover the call; the bet to match and the stage are as
    before. *)
Theorem call_pays id amount e actor payer :
  isBetting (stage (state e)) = true →
  at_ (players (state e)) (turnSeat (state e)) = Some actor →
  PokerEngine.id actor = id → inHand actor = true → isAllIn actor = false →
  at_ (players (state e)) (seat actor) = Some payer →
  let toCall := Z.max 0 (currentBet (state e) - num_at (streetBets e) (seat actor)) in
  let pay := Z.max 0 (Z.min toCall (stack payer)) in
  (pay ≤ 0 → playerAction id KCall amount e = Some (false, e))
  ∧ (0 < pay →
     ∃ m, applyAction id KCall amount e = Some (Applied m)
        ∧ pot (state m) = pot (state e) + pay
        ∧ sumZ (stacks m) = sumZ (stacks e) - pay
        ∧ num_at (streetBets m) (seat actor)
          = num_at (streetBets e) (seat actor) + pay
        ∧ num_at (streetBets m) (seat actor) ≤ currentBet (state e)
        ∧ (num_at (streetBets m) (seat actor) < currentBet (state e)
           ↔ stack payer < toCall)
        ∧ currentBet (state m) = currentBet (state e)
        ∧ stage (state m) = stage (state e)).
Proof.
  intros Hbet Hactor Hid Hin Hall Hpayer toCall pay.
  assert (applyAction id KCall amount e
          = callAction (Z.to_nat (turnSeat (state e))) actor toCall e) as Happ.
  { unfold applyAction. rewrite Hbet, Hactor, Hid, String.eqb_refl, Hin, Hall. done. }
  destruct (commitChips_defined (seat actor) toCall e payer Hpayer) as [e1 Hc].
  fold pay in Hc.
  assert (callAction (Z.to_nat (turnSeat (state e))) actor toCall e
          = if toCall <=? 0 then Some (Returned false e)
            else if pay <=? 0 then Some (Returned false e1)
            else Some (Applied (log (LogCall (name actor) pay)
                   (upd_player (Z.to_nat (turnSeat (state e)))
                      (set_hasActedThisRound true) e1)))) as Hcall.
  { unfold callAction. destruct (toCall <=? 0); [done|]. by rewrite Hc. }
  assert (toCall = Z.max 0 (currentBet (state e) - num_at (streetBets e) (seat actor)))
    as HtoCall by reflexivity.
  assert (pay = Z.max 0 (Z.min toCall (stack payer))) as Hpay by reflexivity.
  clearbody pay toCall.
  split.
  - intros Hle. unfold playerAction. rewrite Happ, Hcall.
    destruct (Z.leb_spec toCall 0); [done|].
    destruct (Z.leb_spec pay 0); [|lia].
    assert (e1 = e) as -> by (eapply commitChips_zero; [exact Hc|lia]). done.
  - intros Hpos. rewrite Happ, Hcall.
    destruct (Z.leb_spec toCall 0); [lia|].
    destruct (Z.leb_spec pay 0); [lia|].
    eexists. split; [reflexivity|].
    pose proof (commitChips_spec _ _ _ _ _ Hc) as (_ & _ & _ & _ & Hch & Hpot & _).
    pose proof (commitChips_frame _ _ _ _ _ Hc) as (Hst &_& Hcb &_&_&_&_&_& Hsb).
    assert (sumZ (stacks e1) = sumZ (stacks e) - pay) as Hstk
      by (unfold chips in Hch; lia).
    split; [exact Hpot|].
    split; [by rewrite <- Hstk; unfold stacks; cbn; rewrite stack_alter_same|].
    split; [exact Hsb|].
    change (num_at (streetBets (log _ (upd_player _ _ e1))) (seat actor))
      with (num_at (streetBets e1) (seat actor)).
    rewrite Hsb.
    split; [lia|]. split; [split; intros; lia|]. split; [exact Hcb|exact Hst].
Qed.

Lemma call_pays_witness :
  ∃ m, applyAction "a" KCall None headsUp = Some (Applied m) ∧ pot (state m) = 4.
Proof.
  edestruct (call_pays "a" None headsUp) as [_ H].
  - vm_compute; reflexivity.
  - vm_compute; reflexivity.
  - reflexivity.
  - reflexivity.
  - reflexivity.
  - vm_compute; reflexivity.
  - destruct H as (m & Hm & Hpot & _); [vm_compute; reflexivity|].
    exists m. split; [exact Hm|]. rewrite Hpot. vm_compute. reflexivity.
Defined.

(** ** The socket handlers *)

Lemma positiveOr_pos x d : (0 < d)%Q → (0 < Server.positiveOr x d)%Q.
Proof.
  intros Hd. unfold Server.positiveOr. destruct x as [v|]; [|done].
  destruct (Qle_bool v 0) eqn:Hv; [done|].
  apply Qnot_le_lt. intros Hle. apply Qle_bool_iff in Hle. congruence.
Qed.

Lemma qmax_l a b : (a <= Server.qmax a b)%Q.
Proof.
  unfold Server.qmax. destruct (Qle_bool a b) eqn:H.
  - by apply Qle_bool_iff.
  - apply Qle_refl.
Qed.

Lemma qmax_r a b : (b <= Server.qmax a b)%Q.
Proof.
  unfold Server.qmax. destruct (Qle_bool a b) eqn:H.
  - apply Qle_refl.
  - apply Qlt_le_weak, Qnot_le_lt. intros Hle. apply Qle_bool_iff in Hle. congruence.
Qed.

Lemma orDefault_pos x d : (0 < x)%Q → orDefault x d = x.
Proof.
  intros Hx. unfold orDefault. destruct (Qeq_bool x 0) eqn:H; [|done].
  apply Qeq_bool_iff in H. rewrite H in Hx. by apply Qlt_irrefl in Hx.
Qed.

Lemma addPlayer_blinds id nm stk owner e :
  smallBlind (state (addPlayer id nm stk owner e).2) = smallBlind (state e)
  ∧ bigBlind (state (addPlayer id nm stk owner e).2) = bigBlind (state e)
  ∧ minRaise (state (addPlayer id nm stk owner e).2) = minRaise (state e).
Proof.
  unfold addPlayer. cbv zeta.
  destruct (_ <=? _)%nat; [done|]. destruct (existsb _ _); done.
Qed.

Lemma map_set_same {K V} `{EqDecision K} (m : list (K * V)) k v :
  map_get m k = Some v → map_set m k v = m.
Proof.
  induction m as [|[k0 v0] m IH]; simpl; [done|].
  case_decide; subst.
  - by intros [= ->].
  - intros Hm. by rewrite IH.
Qed.

Lemma floor_above_less_one (m d : Q) :
  (m <= d)%Q → (m - 1 < inject_Z (Z.max 1 (Qfloor d)))%Q.
Proof.
  intros Hmd.
  apply Qlt_le_trans with (inject_Z (Qfloor d)); [|rewrite <- Zle_Qle; lia].
  apply Qle_lt_trans with (d - 1)%Q.
  - unfold Qminus. by apply Qplus_le_l.
  - pose proof (Qlt_floor d) as Hf. rewrite inject_Z_plus in Hf.
    generalize dependent (Qfloor d). intros f Hf.
    destruct d as [n dd]. unfold Qlt in *. cbn in *. lia.
Qed.

Lemma createSettings_sane trim payload :
  let s := Server.createSettings trim payload in
  (0 < Server.cfg_smallBlind s)%Q
  ∧ (Server.cfg_smallBlind s <= Server.cfg_bigBlind s)%Q
  ∧ (0 < Server.buyInMin s)%Q
  ∧ (Server.buyInMin s <= Server.buyInDefault s)%Q
  ∧ Server.currency s ≠ EmptyString.
Proof.
  cbn. repeat split.
  - by apply positiveOr_pos.
  - apply qmax_r.
  - by apply positiveOr_pos.
  - apply qmax_r.
  - destruct (String.eqb_spec (trim (default "₪" (Server.cp_currency payload)))
                EmptyString); done.
Qed.

(** X20. Creating a room.  Whatever the payload holds, the room stored
    under the new code has a positive small blind that is at most the big
    blind, a positive minimum buy-in that is at most the default buy-in and
    a currency that is not empty; and the engine plays with the whole-number
    blinds [max 1 (floor smallBlind)] and [max small (floor bigBlind)], the
    minimum raise being the big blind.  Rooms under other codes are as
    before. *)
Theorem createRoom_settings (trim : string → string) code socketId payload rooms :
  ∃ room,
    Server.getRoom code (Server.createRoom trim code socketId payload rooms) = Some room
    ∧ Server.settings room = Server.createSettings trim payload
    ∧ (0 < Server.cfg_smallBlind (Server.settings room))%Q
    ∧ (Server.cfg_smallBlind (Server.settings room)
         <= Server.cfg_bigBlind (Server.settings room))%Q
    ∧ (0 < Server.buyInMin (Server.settings room))%Q
    ∧ (Server.buyInMin (Server.settings room)
         <= Server.buyInDefault (Server.settings room))%Q
    ∧ Server.currency (Server.settings room) ≠ EmptyString
    ∧ smallBlind (state (Server.engine room))
        = Z.max 1 (Qfloor (Server.cfg_smallBlind (Server.settings room)))
    ∧ bigBlind (state (Server.engine room))
        = Z.max (smallBlind (state (Server.engine room)))
                (Qfloor (Server.cfg_bigBlind (Server.settings room)))
    ∧ minRaise (state (Server.engine room)) = bigBlind (state (Server.engine room))
    ∧ 1 ≤ smallBlind (state (Server.engine room)) ≤ bigBlind (state (Server.engine room))
    ∧ ∀ other, other ≠ code →
        Server.getRoom other (Server.createRoom trim code socketId payload rooms)
        = Server.getRoom other rooms.
Proof.
  destruct (createSettings_sane trim payload) as (Hsb & Hbb & Hmin & Hdef & Hcur).
  unfold Server.createRoom, Server.getRoom.
  destruct (Server.ensureRoom code rooms) as [rooms1 room1] eqn:He.
  eexists. split; [rewrite map_get_set, decide_True by done; reflexivity|].
  cbn [Server.settings Server.engine].
  set (s := Server.createSettings trim payload) in *.
  destruct (addPlayer_blinds socketId (Server.nameOr (Server.cp_name payload))
              (Server.buyInDefault s) true
              (setBlinds (Server.cfg_smallBlind s) (Server.cfg_bigBlind s)
                 (Server.engine room1))) as (-> & -> & ->).
  assert (Hbb0 : (0 < Server.cfg_bigBlind s)%Q) by exact (Qlt_le_trans _ _ _ Hsb Hbb).
  unfold setBlinds. rewrite !orDefault_pos by done. cbn.
  repeat split; try done; try lia.
  intros other Hne. rewrite map_get_set, decide_False by done.
  unfold Server.ensureRoom in He.
  destruct (map_get rooms code); injection He as <- <-; [done|].
  by rewrite map_get_set, decide_False.
Qed.

(** X21. Creating a room under a code that is not in use seats the creator
    alone, as the owner, with a stack of [max 1 (floor buyInDefault)]
    chips. *)
Theorem createRoom_fresh (trim : string → string) code socketId payload rooms :
  Server.getRoom code rooms = None →
  ∃ room p,
    Server.getRoom code (Server.createRoom trim code socketId payload rooms) = Some room
    ∧ players (state (Server.engine room)) = [p]
    ∧ PokerEngine.id p = socketId
    ∧ PokerEngine.name p = Server.nameOr (Server.cp_name payload)
    ∧ isOwner p = true
    ∧ seat p = 0
    ∧ stack p = Z.max 1 (Qfloor (Server.buyInDefault (Server.settings room)))
    ∧ engineIsOwner socketId (Server.engine room) = true
    ∧ stage (state (Server.engine room)) = waiting.
Proof.
  unfold Server.getRoom. intros Hnone.
  unfold Server.createRoom, Server.ensureRoom. rewrite Hnone.
  eexists _, _. split; [rewrite map_get_set, decide_True by done; reflexivity|].
  cbn. repeat split; try done.
  unfold engineIsOwner, findById. cbn. by rewrite decide_True.
Qed.

Lemma createRoom_fresh_witness :
  ∃ room p,
    Server.getRoom "AAAAA"
      (Server.createRoom (λ s, s) "AAAAA" "s1"
         (Server.mkCreatePayload "" (Some (7 # 2)) None None (Some 2%Q) None None) [])
    = Some room
    ∧ players (state (Server.engine room)) = [p]
    ∧ PokerEngine.name p = "Player"
    ∧ stack p = 3.
Proof.
  destruct (createRoom_fresh (λ s, s) "AAAAA" "s1"
              (Server.mkCreatePayload "" (Some (7 # 2)) None None (Some 2%Q) None None)
              [] eq_refl)
    as (room & p & Hr & Hp & _ & Hn & _ & _ & Hs & _).
  exists room, p. split; [exact Hr|]. split; [exact Hp|]. split; [exact Hn|].
  rewrite Hs. vm_compute in Hr. injection Hr as <-. reflexivity.
Defined.

(** X22. Joining a room.  [joinRoom] either reports an error and leaves
    every room as it was, or seats the caller last in the room, not as an
    owner, with [max 1 (floor desired)] chips, where [desired] is the stack
    asked for when that is a positive number and the room's default buy-in
    otherwise.  It seats nobody whose desired stack is below the room's
    minimum buy-in, so the stack is more than the minimum less one chip. *)
Theorem joinRoom_minimum code socketId name stk rooms outcome rooms' :
  Server.joinRoom code socketId name stk rooms = (outcome, rooms') →
  (outcome ≠ Server.Done → rooms' = rooms)
  ∧ (outcome = Server.Done →
     ∃ room room' p,
       Server.getRoom code rooms = Some room
       ∧ Server.getRoom code rooms' = Some room'
       ∧ Server.settings room' = Server.settings room
       ∧ players (state (Server.engine room'))
           = players (state (Server.engine room)) ++ [p]
       ∧ PokerEngine.id p = socketId
       ∧ isOwner p = false
       ∧ (Server.buyInMin (Server.settings room)
            <= Server.positiveOr stk (Server.buyInDefault (Server.settings room)))%Q
       ∧ stack p
           = Z.max 1 (Qfloor (Server.positiveOr stk
                                (Server.buyInDefault (Server.settings room))))
       ∧ (Server.buyInMin (Server.settings room) - 1 < inject_Z (stack p))%Q
       ∧ ∀ other, other ≠ code →
           Server.getRoom other rooms' = Server.getRoom other rooms).
Proof.
  unfold Server.joinRoom, Server.getRoom.
  destruct (map_get rooms code) as [room|] eqn:Hroom.
  2:{ intros [= <- <-]. split; done. }
  cbv zeta.
  destruct (Qle_bool _ _) eqn:Hmin; cbn [negb].
  2:{ intros [= <- <-]. split; done. }
  apply Qle_bool_iff in Hmin.
  set (desired := Server.positiveOr stk (Server.buyInDefault (Server.settings room))) in *.
  unfold addPlayer. cbv zeta.
  destruct (_ <=? _)%nat.
  { cbn. intros [= <- <-]. split; [|done]. intros _. apply map_set_same.
    rewrite Hroom. by destruct room. }
  destruct (existsb _ _).
  { cbn. intros [= <- <-]. split; [|done]. intros _. apply map_set_same.
    rewrite Hroom. by destruct room. }
  cbn [negb]. intros [= <- <-]. split; [done|]. intros _.
  eexists room, _, _. split; [done|].
  split; [rewrite map_get_set, decide_True by done; reflexivity|].
  cbn. repeat split; try done.
  - by apply floor_above_less_one.
  - intros other Hne. by rewrite map_get_set, decide_False.
Qed.

Lemma joinRoom_minimum_witness :
  ∃ room' p,
    Server.getRoom "BBBBB" twoRooms = Some room'
    ∧ length (players (state (Server.engine room'))) = 2%nat
    ∧ last (players (state (Server.engine room'))) = Some p
    ∧ PokerEngine.id p = "s3"
    ∧ stack p = 20
    ∧ (Server.buyInMin (Server.settings room') == 41 # 2)%Q.
Proof.
  destruct (joinRoom_minimum "BBBBB" "s3" "Cid" (Some (207 # 10)) ownersOnly
              Server.Done twoRooms) as [_ H].
  { vm_compute. reflexivity. }
  destruct (H eq_refl) as (room & room' & p & Hr & Hr' & Hs & Hp & Hid & _ & _ & Hst & _).
  exists room', p. split; [exact Hr'|].
  vm_compute in Hr. injection Hr as <-.
  split; [rewrite Hp; reflexivity|].
  split; [rewrite Hp; apply last_snoc|].
  split; [exact Hid|]. split; [rewrite Hst; reflexivity|].
  rewrite Hs. reflexivity.
Defined.

Lemma engineIsOwner_snoc id e e' p :
  hasPlayer id e = false → players (state e') = players (state e) ++ [p] →
  isOwner p = false → engineIsOwner id e' = false.
Proof.
  intros Hno He' Hown. unfold engineIsOwner, findById. rewrite He'.
  apply hasPlayer_false in Hno.
  destruct (list_find _ _) as [[j q]|] eqn:Hf; [|done].
  apply list_find_Some in Hf as (Hj & Hq & _).
  apply lookup_app_Some in Hj as [Hj|[_ Hj]].
  - rewrite Forall_forall in Hno. exfalso. eapply Hno; [|exact Hq].
    by eapply list_elem_of_lookup_2.
  - apply list_lookup_singleton_Some in Hj as [_ <-]. done.
Qed.

(** X23. Only the owner starts the game or kicks.  A socket that was not
    seated in the room and has joined it through [joinRoom] is not the
    room's owner: its [kick] changes nothing, whoever the target, and its
    [startGame] is answered with the not-owner error and changes nothing. *)
Theorem guest_cannot_kick_or_start code socketId name stk rooms rooms' room :
  Server.getRoom code rooms = Some room →
  hasPlayer socketId (Server.engine room) = false →
  Server.joinRoom code socketId name stk rooms = (Server.Done, rooms') →
  (∀ targetId, Server.kickPlayer code socketId targetId rooms' = rooms')
  ∧ (∀ rnd, Server.startGame code socketId rnd rooms' = Some (Server.NotOwner, rooms')).
Proof.
  intros Hroom Hno Hjoin.
  assert (∃ room', Server.getRoom code rooms' = Some room'
                   ∧ engineIsOwner socketId (Server.engine room') = false)
    as (room' & Hr' & Hown).
  { revert Hjoin. unfold Server.joinRoom. rewrite Hroom. cbv zeta.
    destruct (Qle_bool _ _); cbn [negb]; [|done].
    unfold addPlayer. cbv zeta.
    destruct (_ <=? _)%nat; [done|]. destruct (existsb _ _); [done|].
    cbn [negb]. intros [= <-]. eexists. unfold Server.getRoom.
    split; [rewrite map_get_set, decide_True by done; reflexivity|].
    cbn [Server.engine]. eapply engineIsOwner_snoc; [exact Hno|cbn; reflexivity|done]. }
  split.
  - intros targetId. unfold Server.kickPlayer. by rewrite Hr', Hown.
  - intros rnd. unfold Server.startGame. by rewrite Hr', Hown.
Qed.

Lemma guest_cannot_kick_or_start_witness :
  Server.kickPlayer "BBBBB" "s3" "s2" twoRooms = twoRooms
  ∧ Server.startGame "BBBBB" "s3" [] twoRooms = Some (Server.NotOwner, twoRooms).
Proof.
  evar (room : Server.RoomData).
  destruct (guest_cannot_kick_or_start "BBBBB" "s3" "Cid" (Some (207 # 10)) ownersOnly
              twoRooms room) as [Hk Hs].
  - unfold room. vm_compute. reflexivity.
  - vm_compute. reflexivity.
  - vm_compute. reflexivity.
  - split; [apply Hk|apply Hs].
Defined.

Lemma removePlayer_gone id e :
  NoDup (PokerEngine.id <$> players (state e)) →
  hasPlayer id (removePlayer id e) = false.
Proof.
  intros Hnd. unfold removePlayer.
  destruct (list_find _ _) as [[idx p]|] eqn:Hf.
  2:{ unfold hasPlayer, findById. by rewrite Hf. }
  cbv zeta. apply hasPlayer_false.
  assert (Forall (λ q, PokerEngine.id q ≠ id)
            (imap (λ i pp, set_seat (Z.of_nat i) pp) (delete idx (players (state e)))))
    as Hall.
  { apply list_find_Some in Hf as (Hidx & Hp & _).
    apply Forall_forall. intros q Hq.
    apply list_elem_of_lookup in Hq as [j Hj]. rewrite list_lookup_imap in Hj.
    destruct (delete idx (players (state e)) !! j) as [q0|] eqn:Hq0; [|done].
    injection Hj as <-.
    assert (Hid : PokerEngine.id (set_seat (Z.of_nat j) q0) = PokerEngine.id q0)
      by (by destruct q0).
    rewrite Hid. intros Hq0id.
    set (k := if decide (j < idx)%nat then j else S j).
    assert (Hne : k ≠ idx) by (unfold k; case_decide; lia).
    assert (Hq1 : players (state e) !! k = Some q0).
    { unfold k. case_decide.
      - by rewrite list_lookup_delete_lt in Hq0.
      - rewrite list_lookup_delete_ge in Hq0 by lia. done. }
    apply Hne. eapply NoDup_lookup; [exact Hnd| |].
    + rewrite list_lookup_fmap, Hq1. reflexivity.
    + rewrite list_lookup_fmap, Hidx. cbn. by rewrite Hp, Hq0id. }
  destruct (length _ =? 0)%nat; exact Hall.
Qed.

(** X24. Disconnecting.  [disconnect] keeps the rooms, their codes and
    their settings, leaves untouched every room in which the socket holds
    no seat, and, in rooms whose players have distinct ids, leaves the
    socket without a seat. *)
Theorem disconnect_leaves_rooms socketId rooms :
  (∀ code room, (code, room) ∈ rooms →
     NoDup (PokerEngine.id <$> players (state (Server.engine room)))) →
  (Server.disconnect socketId rooms).*1 = rooms.*1
  ∧ (Server.settings ∘ snd) <$> Server.disconnect socketId rooms
      = (Server.settings ∘ snd) <$> rooms
  ∧ (∀ code room, (code, room) ∈ Server.disconnect socketId rooms →
       hasPlayer socketId (Server.engine room) = false)
  ∧ (∀ code room, (code, room) ∈ rooms →
       hasPlayer socketId (Server.engine room) = false →
       (code, room) ∈ Server.disconnect socketId rooms).
Proof.
  intros Hnd. unfold Server.disconnect. repeat split.
  - rewrite <- list_fmap_compose. apply list_fmap_ext. intros i [c r] _. cbn.
    by destruct (hasPlayer _ _).
  - rewrite <- list_fmap_compose. apply list_fmap_ext. intros i [c r] _. cbn.
    by destruct (hasPlayer _ _).
  - intros code room Hin. apply list_elem_of_fmap in Hin as ([c r] & Heq & Hin).
    cbn in Heq. destruct (hasPlayer socketId (Server.engine r)) eqn:Hhas.
    + injection Heq as -> ->. cbn. apply removePlayer_gone. by eapply Hnd.
    + injection Heq as -> ->. done.
  - intros code room Hin Hno. apply list_elem_of_fmap. exists (code, room).
    split; [|done]. cbn. by rewrite Hno.
Qed.

Lemma disconnect_leaves_rooms_witness :
  (Server.disconnect "s3" twoRooms).*1 = ["AAAAA"; "BBBBB"]
  ∧ ∀ code room, (code, room) ∈ Server.disconnect "s3" twoRooms →
      hasPlayer "s3" (Server.engine room) = false.
Proof.
  destruct (disconnect_leaves_rooms "s3" twoRooms) as (Hk & _ & Hgone & _).
  - intros code room Hin. vm_compute in Hin.
    apply elem_of_cons in Hin as [Heq|Hin].
    { injection Heq as -> ->. vm_compute. repeat constructor; set_solver. }
    apply elem_of_cons in Hin as [Heq|Hin].
    { injection Heq as -> ->. vm_compute. repeat constructor; set_solver. }
    by apply elem_of_nil in Hin.
  - split; [rewrite Hk; reflexivity|exact Hgone].
Defined.

(** ** The deck lasts to the river *)











(** ** The showdown completes *)














(** ** The round always closes *)





